(** * justwatch-search web demo: terminal Controller and runtime Bridge

    A shallow embedding of [demo.js] (the terminal Controller that runs on
    the page) and of the worker script with the run queue (the runtime
    Bridge), followed by the properties of the specification that were
    checked against them.

    Layout: the first half holds the definitions (JavaScript strings,
    the Controller, the Bridge), the second half the lemmas and theorems. *)

From Stdlib Require Import NArith ZArith String Ascii Lia Sorted.
From stdpp Require Import base tactics option list sorting.

Local Open Scope N_scope.

(* ===================================================================== *)
(** ** JavaScript strings *)
(* ===================================================================== *)

(** A JavaScript string is a sequence of UTF-16 code units; [s[i]],
    [startsWith], [trim] and [replace] all work on code units. *)
Module JS.

Definition code_unit := N.
Definition jsstring := list code_unit.

(** Literals are written as Rocq strings and read code unit by code unit. *)
Fixpoint lit (s : string) : jsstring :=
  match s with
  | EmptyString => []
  | String a r => N_of_ascii a :: lit r
  end.

Arguments lit : simpl never.

Definition BACKSLASH : code_unit := 92.
Definition DQUOTE : code_unit := 34.
Definition SQUOTE : code_unit := 39.
Definition SPACE : code_unit := 32.
Definition TAB : code_unit := 9.

(** ECMAScript WhiteSpace and LineTerminator code points, the ones
    [String.prototype.trim] strips. *)
Definition is_js_whitespace (c : code_unit) : bool :=
  (c =? 9) || (c =? 10) || (c =? 11) || (c =? 12) || (c =? 13) || (c =? 32)
  || (c =? 160) || (c =? 5760) || ((8192 <=? c) && (c <=? 8202))
  || (c =? 8232) || (c =? 8233) || (c =? 8239) || (c =? 8287)
  || (c =? 12288) || (c =? 65279).

Fixpoint trimStart (s : jsstring) : jsstring :=
  match s with
  | [] => []
  | c :: r => if is_js_whitespace c then trimStart r else s
  end.

Definition trimEnd (s : jsstring) : jsstring := rev (trimStart (rev s)).

(** [s.trim()] *)
Definition trim (s : jsstring) : jsstring := trimEnd (trimStart s).

(** [s.startsWith(key)] *)
Fixpoint startsWith (s key : jsstring) {struct key} : bool :=
  match key, s with
  | [], _ => true
  | k :: key', c :: s' => (c =? k) && startsWith s' key'
  | _ :: _, [] => false
  end.

(** [s.replace(key, '')] with a string pattern: the first occurrence of
    [key] is removed, the rest of [s] is kept. *)
Fixpoint replace_first_empty (s key : jsstring) : jsstring :=
  if startsWith s key then drop (length key) s
  else match s with
       | [] => []
       | c :: s' => c :: replace_first_empty s' key
       end.

(** Truthiness of a string: the empty string is falsy. *)
Definition truthy (s : jsstring) : bool :=
  match s with [] => false | _ :: _ => true end.

End JS.

Import JS.

(* ===================================================================== *)
(** ** Messages exchanged between the Controller and the Bridge *)
(* ===================================================================== *)

Module Protocol.

(** A Python value as far as the exit code needs it: [None], an integer or
    a string, the values a [SystemExit] carries and Pyodide hands to
    JavaScript as plain values. *)
Inductive PyVal :=
| PyNone
| PyInt (z : Z)
| PyStr (s : jsstring).

(** Controller to Bridge. *)
Inductive ToBridge :=
| init_msg
| loadScript_msg (code : jsstring)
| run_msg (args : list jsstring)
| stdin_response_msg (response : jsstring).

(** Bridge to Controller. [complete] carries [success] and then either
    [exit_code] or [error], as the two [postMessage] calls of [run] build
    it. *)
Inductive ToController :=
| status (state message : jsstring)
| initialized
| scriptLoaded
| error_msg (message : jsstring)
| output (text : jsstring)
| stdin_request (prompt : jsstring) (runId : nat)
| complete_ok (exit_code : PyVal)
| complete_failed (error : jsstring).

End Protocol.

Import Protocol.

(* ===================================================================== *)
(** ** The terminal Controller ([demo.js]) *)
(* ===================================================================== *)

Module Controller.

(** The three functions the registry refers to. *)
Inductive Action := runHelp_action | clearTerminal_action | runJustWatchSearch_action.

Record CommandSpec := { description : jsstring; action : Action }.

(** The registry object, as the sequence of its keys in the order
    [for (const key in ...)] and [Object.keys] enumerate them. For keys that
    are not array indices (none of the registry's is) this is the order in
    which the object literal declares them. *)
Definition Registry := list (jsstring * CommandSpec).

Definition TERMINAL_COMMANDS : Registry :=
  [ (lit "help",
     {| description := lit "Show this help message"; action := runHelp_action |});
    (lit "clear",
     {| description := lit "Clear the terminal output"; action := clearTerminal_action |});
    (lit "python just_watch_search.py",
     {| description := lit "Run the JustWatch search script";
        action := runJustWatchSearch_action |}) ].

(** An array index, as a property key, is a canonical numeric string and so
    starts with a digit; such keys would be enumerated first. *)
Definition starts_with_digit (key : jsstring) : bool :=
  match key with
  | c :: _ => (48 <=? c) && (c <=? 57)
  | [] => false
  end.

(** The [type] argument of [appendOutput]; [plain] is the default ['']. *)
Inductive LineType := plain | info | error | success.

Record Line := { textContent : jsstring; lineType : LineType }.

(** The [commandInput] element. *)
Record Input := {
  value : jsstring;
  disabled : bool;
  selection : nat * nat  (* last [setSelectionRange(start, end)] *)
}.

(** Module-level variables of [demo.js] together with the page elements the
    script touches. [posted] lists the messages given to
    [worker.postMessage], oldest first. *)
Record State := {
  worker : bool;                       (* [worker] is not [null] *)
  pythonCode : jsstring;
  workerReady : bool;
  commandHistory : list jsstring;
  historyIndex : Z;
  commandInput : Input;
  terminalOutput : list Line;
  statusIndicator : jsstring;          (* class name after 'status-indicator ' *)
  statusText : jsstring;
  posted : list ToBridge
}.

(** The state right after the script has been evaluated on a fresh page. *)
Definition initial : State :=
  {| worker := false; pythonCode := []; workerReady := false;
     commandHistory := []; historyIndex := (-1)%Z;
     commandInput := {| value := []; disabled := false; selection := (0%nat, 0%nat) |};
     terminalOutput := []; statusIndicator := []; statusText := [];
     posted := [] |}.

(** *** Field updates *)

Definition set_input (i : Input) (st : State) : State :=
  {| worker := worker st; pythonCode := pythonCode st; workerReady := workerReady st;
     commandHistory := commandHistory st; historyIndex := historyIndex st;
     commandInput := i;
     terminalOutput := terminalOutput st; statusIndicator := statusIndicator st;
     statusText := statusText st; posted := posted st |}.

Definition set_value (v : jsstring) (st : State) : State :=
  set_input {| value := v; disabled := disabled (commandInput st);
               selection := selection (commandInput st) |} st.

Definition set_disabled (b : bool) (st : State) : State :=
  set_input {| value := value (commandInput st); disabled := b;
               selection := selection (commandInput st) |} st.

Definition setSelectionRange (a b : nat) (st : State) : State :=
  set_input {| value := value (commandInput st); disabled := disabled (commandInput st);
               selection := (a, b) |} st.

Definition set_output (o : list Line) (st : State) : State :=
  {| worker := worker st; pythonCode := pythonCode st; workerReady := workerReady st;
     commandHistory := commandHistory st; historyIndex := historyIndex st;
     commandInput := commandInput st;
     terminalOutput := o; statusIndicator := statusIndicator st;
     statusText := statusText st; posted := posted st |}.

Definition set_history (h : list jsstring) (i : Z) (st : State) : State :=
  {| worker := worker st; pythonCode := pythonCode st; workerReady := workerReady st;
     commandHistory := h; historyIndex := i;
     commandInput := commandInput st;
     terminalOutput := terminalOutput st; statusIndicator := statusIndicator st;
     statusText := statusText st; posted := posted st |}.

Definition set_historyIndex (i : Z) (st : State) : State :=
  set_history (commandHistory st) i st.

Definition set_workerReady (b : bool) (st : State) : State :=
  {| worker := worker st; pythonCode := pythonCode st; workerReady := b;
     commandHistory := commandHistory st; historyIndex := historyIndex st;
     commandInput := commandInput st;
     terminalOutput := terminalOutput st; statusIndicator := statusIndicator st;
     statusText := statusText st; posted := posted st |}.

Definition set_worker (b : bool) (st : State) : State :=
  {| worker := b; pythonCode := pythonCode st; workerReady := workerReady st;
     commandHistory := commandHistory st; historyIndex := historyIndex st;
     commandInput := commandInput st;
     terminalOutput := terminalOutput st; statusIndicator := statusIndicator st;
     statusText := statusText st; posted := posted st |}.

Definition set_pythonCode (c : jsstring) (st : State) : State :=
  {| worker := worker st; pythonCode := c; workerReady := workerReady st;
     commandHistory := commandHistory st; historyIndex := historyIndex st;
     commandInput := commandInput st;
     terminalOutput := terminalOutput st; statusIndicator := statusIndicator st;
     statusText := statusText st; posted := posted st |}.

(** [worker.postMessage(m)] *)
Definition postMessage (m : ToBridge) (st : State) : State :=
  {| worker := worker st; pythonCode := pythonCode st; workerReady := workerReady st;
     commandHistory := commandHistory st; historyIndex := historyIndex st;
     commandInput := commandInput st;
     terminalOutput := terminalOutput st; statusIndicator := statusIndicator st;
     statusText := statusText st; posted := posted st ++ [m] |}.

(** *** Output and status *)

Definition updateStatus (state message : jsstring) (st : State) : State :=
  {| worker := worker st; pythonCode := pythonCode st; workerReady := workerReady st;
     commandHistory := commandHistory st; historyIndex := historyIndex st;
     commandInput := commandInput st;
     terminalOutput := terminalOutput st; statusIndicator := state;
     statusText := message; posted := posted st |}.

Definition appendOutput (text : jsstring) (type : LineType) (st : State) : State :=
  set_output (terminalOutput st ++ [{| textContent := text; lineType := type |}]) st.

Definition clearTerminal (st : State) : State := set_output [] st.

(** *** The argument tokenizer *)

(** The four variables of the scanning loop of [splitArgs]. *)
Record Scanner := {
  args : list jsstring;
  cur : jsstring;
  inQuote : option code_unit;   (* [null] or the opening quote character *)
  esc : bool
}.

Definition scanner_start : Scanner :=
  {| args := []; cur := []; inQuote := None; esc := false |}.

(** The variables between two characters when no escape is pending. *)
Definition scanner (a : list jsstring) (buf : jsstring) (q : option code_unit) : Scanner :=
  {| args := a; cur := buf; inQuote := q; esc := false |}.

(** Truthiness of [inQuote]: [null] is falsy, a quote character is not. *)
Definition quote_open (q : option code_unit) : bool :=
  match q with Some _ => true | None => false end.

(** One iteration of the [for] loop, on the character [ch = s[i]]. *)
Definition scan_char (sc : Scanner) (ch : code_unit) : Scanner :=
  if esc sc then
    {| args := args sc; cur := cur sc ++ [ch]; inQuote := inQuote sc; esc := false |}
  else if ch =? BACKSLASH then
    {| args := args sc; cur := cur sc; inQuote := inQuote sc; esc := true |}
  else if (ch =? DQUOTE) || (ch =? SQUOTE) then
    match inQuote sc with
    | None =>
        {| args := args sc; cur := cur sc; inQuote := Some ch; esc := false |}
    | Some q =>
        if q =? ch then
          {| args := args sc; cur := cur sc; inQuote := None; esc := false |}
        else
          {| args := args sc; cur := cur sc ++ [ch]; inQuote := Some q; esc := false |}
    end
  else if (ch =? SPACE) && negb (quote_open (inQuote sc)) then
    if truthy (cur sc) then
      {| args := args sc ++ [cur sc]; cur := []; inQuote := inQuote sc; esc := false |}
    else sc
  else
    {| args := args sc; cur := cur sc ++ [ch]; inQuote := inQuote sc; esc := false |}.

(** The two statements after the loop. *)
Definition scan_end (sc : Scanner) : list jsstring :=
  let cur1 := if esc sc then cur sc ++ [BACKSLASH] else cur sc in
  if truthy cur1 then args sc ++ [cur1] else args sc.

Definition scan_from (sc : Scanner) (s : jsstring) : list jsstring :=
  scan_end (fold_left scan_char s sc).

Definition splitArgs (s : jsstring) : list jsstring := scan_from scanner_start s.

(** *** Commands *)

(** [runHelp]: the template literal is [`- ${cmd}: ${description}`]. *)
Definition help_line (e : jsstring * CommandSpec) : jsstring :=
  lit "- " ++ fst e ++ lit ": " ++ description (snd e).

Definition runHelp (reg : Registry) (st : State) : State :=
  let st1 := appendOutput (lit "Available commands:") plain st in
  let st2 := fold_left (fun s e => appendOutput (help_line e) plain s) reg st1 in
  appendOutput [] plain st2.

(** [runJustWatchSearch]: an [async] function without an [await] in its
    body; the promise it returns is settled when the body has run. *)
Definition runJustWatchSearch (args : list jsstring) (st : State) : State :=
  if negb (worker st) || negb (workerReady st) then
    appendOutput (lit "Python environment not ready yet. Please wait...") error st
  else
    postMessage (run_msg args) (updateStatus (lit "loading") (lit "Running command...") st).

(** [cmd.action(args)] *)
Definition invoke (reg : Registry) (a : Action) (args : list jsstring) (st : State) : State :=
  match a with
  | runHelp_action => runHelp reg st
  | clearTerminal_action => clearTerminal st
  | runJustWatchSearch_action => runJustWatchSearch args st
  end.

(** The [for ... in] loop at the head of [runTerminalCommand]: the first key
    the command starts with, its entry, and [args_raw]. [None] is the
    [cmd = null] the loop leaves when no key fits. *)
Fixpoint find_command (reg : Registry) (command : jsstring)
  : option (jsstring * CommandSpec * jsstring) :=
  match reg with
  | [] => None
  | (key, spec) :: rest =>
      if startsWith command key
      then Some (key, spec, trim (replace_first_empty command key))
      else find_command rest command
  end.

(** The body of [if (cmd)] up to the call of the action: history, echo,
    and the input field cleared and disabled. *)
Definition dispatch_begin (command : jsstring) (st : State) : State :=
  let h := commandHistory st ++ [command] in
  let st1 := set_history h (Z.of_nat (length h)) st in
  let st2 := appendOutput (lit "$ " ++ command) info st1 in
  set_disabled true (set_value [] st2).

(** The statement after [await cmd.action(args)]. None of the three actions
    waits for anything: the promise is settled when the call returns, and
    the continuation runs in the same task, before any later event. *)
Definition dispatch_end (st : State) : State := set_disabled false st.

Definition unknown_command (command : jsstring) (st : State) : State :=
  appendOutput
    (lit "Type " ++ [DQUOTE] ++ lit "help" ++ [DQUOTE]
       ++ lit " to see the list of available commands.") info
    (appendOutput (lit "Unknown command: " ++ command) error st).

Definition runTerminalCommand (reg : Registry) (command : jsstring) (st : State) : State :=
  match find_command reg command with
  | Some (_, cmd, args_raw) =>
      let args := splitArgs args_raw in
      dispatch_end (invoke reg (action cmd) args (dispatch_begin command st))
  | None => unknown_command command st
  end.

(** *** The [keydown] listener of the input field *)

Inductive Key := Enter | ArrowUp | ArrowDown | Tab | OtherKey.

Definition on_enter (reg : Registry) (st : State) : State :=
  let cmd := trim (value (commandInput st)) in
  if truthy cmd then set_value [] (runTerminalCommand reg cmd st) else st.

(** [commandHistory[historyIndex] || ''] *)
Definition history_entry (h : list jsstring) (i : Z) : jsstring :=
  match h !! Z.to_nat i with
  | Some e => if truthy e then e else []
  | None => []
  end.

Definition show_history_entry (st : State) : State :=
  let v := history_entry (commandHistory st) (historyIndex st) in
  setSelectionRange (length v) (length v) (set_value v st).

Definition on_arrow (up : bool) (st : State) : State :=
  let len := Z.of_nat (length (commandHistory st)) in
  if (len =? 0)%Z then st
  else
    let st1 :=
      if (historyIndex st <? 0)%Z || (len <? historyIndex st)%Z
      then set_historyIndex len st else st in
    if up then
      let st2 :=
        if (0 <? historyIndex st1)%Z
        then set_historyIndex (historyIndex st1 - 1) st1 else st1 in
      show_history_entry st2
    else
      if (historyIndex st1 <? len - 1)%Z
      then show_history_entry (set_historyIndex (historyIndex st1 + 1) st1)
      else set_value [] (set_historyIndex len st1).

Definition matchingCommands (reg : Registry) (currentInput : jsstring) : list jsstring :=
  List.filter (fun cmd => startsWith cmd currentInput) (map fst reg).

Definition on_tab (reg : Registry) (st : State) : State :=
  let currentInput := trim (value (commandInput st)) in
  let m := matchingCommands reg currentInput in
  match m with
  | [only] => setSelectionRange (length only) (length only) (set_value only st)
  | _ :: _ :: _ =>
      fold_left (fun s cmd => appendOutput (lit "- " ++ cmd) plain s) m
        (appendOutput (lit "Possible completions:") plain st)
  | [] => st
  end.

Definition keydown (reg : Registry) (k : Key) (st : State) : State :=
  match k with
  | Enter => on_enter reg st
  | ArrowUp => on_arrow true st
  | ArrowDown => on_arrow false st
  | Tab => on_tab reg st
  | OtherKey => st
  end.

(** The user replaces the text of the input line and presses Enter. *)
Definition submit (reg : Registry) (line : jsstring) (st : State) : State :=
  keydown reg Enter (set_value line st).

Definition submit_all (reg : Registry) (lines : list jsstring) (st : State) : State :=
  fold_left (fun s line => submit reg line s) lines st.

(** *** Messages from the worker *)

(** [error.includes(sub)] *)
Fixpoint includes (s sub : jsstring) : bool :=
  startsWith s sub ||
  match s with
  | [] => false
  | _ :: s' => includes s' sub
  end.

(** [worker.onmessage]. [fetched] is what [loadPythonScript] obtains when
    the worker reports [initialized]: the script text, or the message of the
    error [fetch] failed with. *)
Definition onmessage (fetched : jsstring + jsstring) (m : ToController) (st : State) : State :=
  match m with
  | status state message => updateStatus state message st
  | initialized =>
      match fetched with
      | inl code => postMessage (loadScript_msg code) (set_pythonCode code st)
      | inr msg => appendOutput (lit "Error loading Python script: " ++ msg) error st
      end
  | scriptLoaded =>
      appendOutput [] plain
        (appendOutput
           (lit "Type " ++ [DQUOTE] ++ lit "help" ++ [DQUOTE]
              ++ lit " to see available commands.") info
           (appendOutput (lit "Python environment loaded successfully!") success
              (set_workerReady true st)))
  | output text => appendOutput text plain st
  | error_msg message => appendOutput (lit "Error: " ++ message) error st
  | complete_ok _ =>
      appendOutput [] plain
        (updateStatus (lit "ready") (lit "Command completed successfully")
           (set_disabled false st))
  | complete_failed err =>
      let st1 := set_disabled false st in
      let st2 :=
        if truthy err && negb (includes err (lit "SystemExit"))
        then appendOutput (lit "Error: " ++ err) error st1 else st1 in
      appendOutput [] plain (updateStatus (lit "ready") (lit "Command completed") st2)
  | stdin_request _ _ => st
  end.

(** [initPyodide], when the worker can be created. *)
Definition initPyodide (st : State) : State :=
  postMessage init_msg (set_worker true (updateStatus (lit "loading") (lit "Initializing worker...") st)).

End Controller.

(* ===================================================================== *)
(** ** The runtime Bridge (the worker with the run queue) *)
(* ===================================================================== *)

Module Bridge.

(** *** The interpreter state [run] touches *)

(** The four primitives [run] replaces. *)
Inductive Slot := builtins_print | builtins_input | sys_stdout | sys_stderr.

#[global] Instance Slot_eq_dec : EqDecision Slot.
Proof. solve_decision. Defined.

(** What a primitive is bound to: the interpreter's own object, or the
    replacement a run installed ([custom_print], [async_input], a
    redirector), tagged with that run. *)
Inductive Prim := Original | Patched (run : nat).

(** The part of the Python interpreter and of Pyodide's module table that
    outlives one [runPythonAsync] call. [saved s] is the global
    [_original_...] for [s]; [None] is an unbound name. *)
Record Python := {
  live : Slot -> Prim;
  saved : Slot -> option Prim;
  imported : bool;                 (* the globals [sys] and [builtins] are bound *)
  sys_argv : list jsstring;
  cached_handler : option nat;     (* [sys.modules['output_handler']] *)
  script_module : bool;            (* [sys.modules['just_watch_search']] *)
  js_handler : option nat          (* the object registered as "output_handler" *)
}.

(** The interpreter [loadPyodide] returns. *)
Definition fresh_python : Python :=
  {| live := fun _ => Original; saved := fun _ => None; imported := false;
     sys_argv := []; cached_handler := None; script_module := false;
     js_handler := None |}.

Definition upd {A} (f : Slot -> A) (s : Slot) (a : A) : Slot -> A :=
  fun s' => if decide (s' = s) then a else f s'.

Definition set_live (s : Slot) (p : Prim) (py : Python) : Python :=
  {| live := upd (live py) s p; saved := saved py; imported := imported py;
     sys_argv := sys_argv py; cached_handler := cached_handler py;
     script_module := script_module py; js_handler := js_handler py |}.

Definition set_saved (s : Slot) (p : Prim) (py : Python) : Python :=
  {| live := live py; saved := upd (saved py) s (Some p); imported := imported py;
     sys_argv := sys_argv py; cached_handler := cached_handler py;
     script_module := script_module py; js_handler := js_handler py |}.

Definition set_imported (py : Python) : Python :=
  {| live := live py; saved := saved py; imported := true;
     sys_argv := sys_argv py; cached_handler := cached_handler py;
     script_module := script_module py; js_handler := js_handler py |}.

Definition set_argv (a : list jsstring) (py : Python) : Python :=
  {| live := live py; saved := saved py; imported := imported py;
     sys_argv := a; cached_handler := cached_handler py;
     script_module := script_module py; js_handler := js_handler py |}.

Definition set_cached (c : option nat) (py : Python) : Python :=
  {| live := live py; saved := saved py; imported := imported py;
     sys_argv := sys_argv py; cached_handler := c;
     script_module := script_module py; js_handler := js_handler py |}.

Definition set_script_module (py : Python) : Python :=
  {| live := live py; saved := saved py; imported := imported py;
     sys_argv := sys_argv py; cached_handler := cached_handler py;
     script_module := true; js_handler := js_handler py |}.

Definition set_js_handler (h : option nat) (py : Python) : Python :=
  {| live := live py; saved := saved py; imported := imported py;
     sys_argv := sys_argv py; cached_handler := cached_handler py;
     script_module := script_module py; js_handler := h |}.

(** The worker's variables [pyodide] and [activeStdinHandler]; the handler
    is named by the run that installed it. *)
Record Interp := {
  pyodide : option Python;
  activeStdinHandler : option nat
}.

Definition uninitialized : Interp := {| pyodide := None; activeStdinHandler := None |}.

(** *** Python statements of the scripts [run] evaluates *)

Inductive PyError :=
| NameError
| ModuleNotFoundError
| Fault (message : jsstring).   (* any other failure, with the message JavaScript sees *)

Definition error_message (e : PyError) : jsstring :=
  match e with
  | NameError => lit "NameError"
  | ModuleNotFoundError => lit "ModuleNotFoundError"
  | Fault m => m
  end.

Inductive Stmt :=
| ImportSysBuiltins            (* import sys; import builtins *)
| DropCachedHandler            (* if 'output_handler' in sys.modules: del ... *)
| ImportHandler                (* import output_handler *)
| Save (s : Slot)              (* _original_s = s *)
| DefineReplacements           (* the class and def statements *)
| Patch (s : Slot)             (* s = replacement *)
| SetArgv (args : list jsstring)
| Restore (s : Slot).          (* s = _original_s *)

Definition exec_stmt (run : nat) (s : Stmt) (py : Python) : Python + PyError :=
  match s with
  | ImportSysBuiltins => inl (set_imported py)
  | DropCachedHandler => inl (set_cached None py)
  | ImportHandler =>
      match cached_handler py, js_handler py with
      | Some _, _ => inl py
      | None, Some h => inl (set_cached (Some h) py)
      | None, None => inr ModuleNotFoundError
      end
  | Save s => if imported py then inl (set_saved s (live py s) py) else inr NameError
  | DefineReplacements => inl py
  | Patch s => if imported py then inl (set_live s (Patched run) py) else inr NameError
  | SetArgv a =>
      if imported py then inl (set_argv (lit "just_watch_search.py" :: a) py)
      else inr NameError
  | Restore s =>
      match saved py s with
      | Some p => if imported py then inl (set_live s p py) else inr NameError
      | None => inr NameError
      end
  end.

(** Statements in order. [fault = Some (k, m)] makes the statement at
    position [k] fail with message [m] instead of running; statements before
    it have taken effect, as in an interpreter that stops at the first
    exception. *)
Fixpoint exec_stmts (run : nat) (fault : option (nat * jsstring)) (ss : list Stmt)
    (py : Python) : Python * option PyError :=
  match ss with
  | [] => (py, None)
  | s :: rest =>
      match fault with
      | Some (O, m) => (py, Some (Fault m))
      | _ =>
          match exec_stmt run s py with
          | inl py' =>
              exec_stmts run (prod_map Nat.pred id <$> fault) rest py'
          | inr e => (py, Some e)
          end
      end
  end.

(** The first script of [run]: it imports, keeps the four primitives in
    the [_original_...] globals and defines the replacements; then it
    installs the replacements and sets [sys.argv]. *)
Definition capture_script : list Stmt :=
  [ ImportSysBuiltins; DropCachedHandler; ImportHandler;
    Save builtins_print; Save builtins_input; Save sys_stdout; Save sys_stderr;
    DefineReplacements ].

Definition install_script (args : list jsstring) : list Stmt :=
  [ Patch builtins_print; Patch builtins_input; Patch sys_stdout; Patch sys_stderr;
    SetArgv args ].

Definition setup_script (args : list jsstring) : list Stmt :=
  capture_script ++ install_script args.

(** The four assignments that end the second script and fill the [try] of
    the third. *)
Definition restore_script : list Stmt :=
  [ Restore builtins_print; Restore builtins_input; Restore sys_stdout; Restore sys_stderr ].

(** *** The script entry point, as the Bridge sees it *)

Inductive ExcClass :=
| EOFError
| KeyboardInterrupt
| SystemExit
| OtherException        (* any other class below [Exception] *)
| OtherBaseException.   (* below [BaseException] only: GeneratorExit, CancelledError, ... *)

(** [isinstance(e, h)] for the four classes the [except] clauses name. *)
Definition isinstance (c h : ExcClass) : bool :=
  match h, c with
  | EOFError, EOFError => true
  | KeyboardInterrupt, KeyboardInterrupt => true
  | SystemExit, SystemExit => true
  | OtherException, (EOFError | OtherException) => true    (* [except Exception] *)
  | _, _ => false
  end.

Record PyExc := {
  exc_class : ExcClass;
  exc_code : option PyVal;        (* the attribute [code]; [None]: no such attribute *)
  exc_str : jsstring;             (* [str(e)] *)
  exc_traceback : list jsstring;  (* what [traceback.print_exc()] writes, call by call *)
  exc_message : jsstring          (* [error.message] when the exception reaches JavaScript *)
}.

(** What [main()] does while it runs, and how it ends. *)
Inductive ScriptAction :=
| Print (text : jsstring)         (* a call of [print], [text] includes the [end] *)
| Input (prompt : jsstring).      (* an awaited call of [input] *)

Inductive Ending := Returned | Raised (e : PyExc).

(** Everything about one call of [run] that the worker's own code does not
    decide. *)
Record Scenario := {
  runId : nat;                               (* [Date.now() + Math.random()] *)
  register_fault : option jsstring;          (* [registerJsModule] throws *)
  setup_fault : option (nat * jsstring);     (* a statement of the first script fails *)
  actions : list ScriptAction;
  ending : Ending
}.

Definition LF : code_unit := 10.

(** [custom_print]: the text is formatted by calling the global
    [_original_print] and then sent. When that global does not hold the
    interpreter's own [print] the call fails inside Python and nothing is
    sent. *)
Definition custom_print (text : jsstring) (py : Python) : list ToController :=
  match saved py builtins_print with
  | Some Original => [output text]
  | _ => []
  end.

(** A call of [print]: the replacement sends the text to the Controller,
    the interpreter's own [print] writes to the console. *)
Definition py_print (text : jsstring) (py : Python) : list ToController :=
  match live py builtins_print with
  | Patched _ => custom_print text py
  | Original => []
  end.

(** A write to [sys.stdout] or [sys.stderr]: a redirector sends the text to
    the Controller. *)
Definition py_write (s : Slot) (text : jsstring) (py : Python) : list ToController :=
  match live py s with
  | Patched _ => [output text]
  | Original => []
  end.

(** [async_input]: the prompt goes out through [custom_print], the handler
    module is imported afresh, and the request is posted. *)
Definition act (a : ScriptAction) (py : Python) : Python * list ToController :=
  match a with
  | Print text => (py, py_print text py)
  | Input prompt =>
      match live py builtins_input with
      | Patched _ =>
          let shown := if truthy prompt then custom_print prompt py else [] in
          match js_handler py with
          | Some h => (set_cached (Some h) py, shown ++ [stdin_request prompt h])
          | None => (set_cached None py, shown)
          end
      | Original => (py, [])
      end
  end.

Fixpoint act_all (l : list ScriptAction) (py : Python) : Python * list ToController :=
  match l with
  | [] => (py, [])
  | a :: rest =>
      let '(py1, m1) := act a py in
      let '(py2, m2) := act_all rest py1 in
      (py2, m1 ++ m2)
  end.

(** The [except] clauses of the second script, in order: the class each
    names, and the exit code and the output it produces. *)
Definition except_clauses
  : list (ExcClass * (PyExc -> Python -> PyVal * list ToController)) :=
  [ (EOFError, fun _ _ => (PyInt 1, []));
    (KeyboardInterrupt,
       fun _ py => (PyInt 130, py_print (lit "Cancelled" ++ [LF]) py));
    (SystemExit,
       fun e _ =>
         (match exc_code e with
          | Some PyNone | None => PyInt 0
          | Some c => c
          end, []));
    (OtherException,
       fun e py =>
         (PyInt 1,
          py_print (lit "Error: " ++ exc_str e ++ [LF]) py
            ++ flat_map (fun chunk => py_write sys_stderr chunk py) (exc_traceback e))) ].

(** The clause that handles [e]: the first whose class [e] is an instance
    of. [None]: the exception leaves the script. *)
Definition handle (e : PyExc) (py : Python) : option (PyVal * list ToController) :=
  match List.find (fun cl => isinstance (exc_class e) (fst cl)) except_clauses with
  | Some cl => Some (snd cl e py)
  | None => None
  end.

(** *** [run] *)

Definition set_pyodide (py : Python) (b : Interp) : Interp :=
  {| pyodide := Some py; activeStdinHandler := activeStdinHandler b |}.

Definition set_stdin_handler (h : option nat) (b : Interp) : Interp :=
  {| pyodide := pyodide b; activeStdinHandler := h |}.

(** [pyodide.unregisterJsModule("output_handler")]: throws when no module of
    that name is registered. *)
Definition unregisterJsModule (py : Python) : Python + jsstring :=
  match js_handler py with
  | Some _ => inl (set_js_handler None py)
  | None => inr (lit "Cannot unregister output_handler")
  end.

(** The body of the outer [try], up to but not including the
    [postMessage] of [complete]: the state, the messages posted so far, and
    either the exit code or the message of the error thrown. *)
Definition run_try (args : list jsstring) (sc : Scenario) (b : Interp)
  : Interp * list ToController * (PyVal + jsstring) :=
  match pyodide b with
  | None => (b, [], inr (lit "Cannot read properties of null"))
  | Some py =>
      let py1 := match unregisterJsModule py with inl p => p | inr _ => py end in
      match register_fault sc with
      | Some m => (set_pyodide py1 b, [], inr m)
      | None =>
          let py2 := set_js_handler (Some (runId sc)) py1 in
          let b2 := set_stdin_handler (Some (runId sc)) b in
          match exec_stmts (runId sc) (setup_fault sc) (setup_script args) py2 with
          | (py3, Some e) => (set_pyodide py3 b2, [], inr (error_message e))
          | (py3, None) =>
              if negb (script_module py3)
              then (set_pyodide py3 b2, [], inr (error_message ModuleNotFoundError))
              else
                let '(py4, out1) := act_all (actions sc) py3 in
                let handled :=
                  match ending sc with
                  | Returned => inl (PyInt 0, [])
                  | Raised e =>
                      match handle e py4 with
                      | Some r => inl r
                      | None => inr (exc_message e)
                      end
                  end in
                match handled with
                | inr m => (set_pyodide py4 b2, out1, inr m)
                | inl (exit_code, out2) =>
                    match exec_stmts (runId sc) None restore_script py4 with
                    | (py5, Some e) =>
                        (set_pyodide py5 b2, out1 ++ out2, inr (error_message e))
                    | (py5, None) =>
                        let b5 := set_stdin_handler None b2 in
                        match unregisterJsModule py5 with
                        | inl py6 => (set_pyodide py6 b5, out1 ++ out2, inl exit_code)
                        | inr m => (set_pyodide py5 b5, out1 ++ out2, inr m)
                        end
                    end
                end
          end
      end
  end.

(** The [try] inside [catch]: the restoring script, whose own [except
    NameError: pass] ends it quietly at the first unbound name, and then the
    unregistration; whatever is thrown here is dropped. *)
Definition cleanup_in_catch (b : Interp) : Interp :=
  let b1 := set_stdin_handler None b in
  match pyodide b1 with
  | None => b1
  | Some py =>
      match exec_stmts 0 None restore_script py with
      | (py1, None) | (py1, Some NameError) =>
          match unregisterJsModule py1 with
          | inl py2 => set_pyodide py2 b1
          | inr _ => set_pyodide py1 b1
          end
      | (py1, Some _) => set_pyodide py1 b1
      end
  end.

(** [run(args)]: the state when [complete] is posted (the last thing [run]
    does) and the messages posted, in order. *)
Definition run (args : list jsstring) (sc : Scenario) (b : Interp)
  : Interp * list ToController :=
  match run_try args sc b with
  | (b1, out, inl exit_code) => (b1, out ++ [complete_ok exit_code])
  | (b1, out, inr m) => (cleanup_in_catch b1, out ++ [complete_failed m])
  end.

(** [initializePyodide] when the bootstrap succeeds, and [loadScript];
    [loads] tells whether executing the script text succeeds. *)
Definition initializePyodide (b : Interp) : Interp * list ToController :=
  (set_pyodide fresh_python b,
   [ status (lit "loading") (lit "Loading Pyodide...");
     status (lit "loading") (lit "Installing dependencies...");
     status (lit "ready") (lit "Ready! Enter a command below.");
     initialized ]).

Definition loadScript (loads : option jsstring) (b : Interp) : Interp * list ToController :=
  match pyodide b, loads with
  | Some py, None => (set_pyodide (set_script_module py) b, [scriptLoaded])
  | Some _, Some m => (b, [error_msg m])
  | None, _ => (b, [error_msg (lit "Cannot read properties of null")])
  end.

(** *** The run queue *)

(** A run request: the [args] of a [run] message. [req_id] counts the
    [run] messages in the order the worker received them; the worker does
    not store it, it names the request in what follows. *)
Record Request := { req_id : nat; req_args : list jsstring }.

(** [runningCommand] and [commandQueue], together with what an observer of
    the worker sees: the calls of [run] that have started and not yet
    returned, the number of [run] messages received, and the messages the
    calls of [run] have posted, each with the request it belongs to. *)
Record Worker := {
  runningCommand : bool;
  commandQueue : list Request;
  executing : list Request;
  received : nat;
  log : list (nat * ToController)
}.

Definition idle : Worker :=
  {| runningCommand := false; commandQueue := []; executing := [];
     received := 0%nat; log := [] |}.

(** [processCommandQueue] up to its [await run(args)]: the guard, the flag,
    [shift], and the call of [run], which from then on is executing. *)
Definition processCommandQueue (w : Worker) : Worker :=
  if runningCommand w || (length (commandQueue w) =? 0)%nat then w
  else
    match commandQueue w with
    | [] => w
    | r :: rest =>
        {| runningCommand := true; commandQueue := rest;
           executing := executing w ++ [r];
           received := received w; log := log w |}
    end.

(** The [finally] block, run when the awaited call of [run] has returned. *)
Definition finally (w : Worker) : Worker :=
  let w1 := {| runningCommand := false; commandQueue := commandQueue w;
               executing := executing w; received := received w; log := log w |} in
  if (0 <? length (commandQueue w1))%nat then processCommandQueue w1 else w1.

(** The [message] listener, as far as the queue is concerned. [init] and
    [loadScript] do not touch it, and a [stdin_response] goes to the handler
    of the run that waits for it. *)
Definition onmessage (m : ToBridge) (w : Worker) : Worker :=
  match m with
  | run_msg a =>
      processCommandQueue
        {| runningCommand := runningCommand w;
           commandQueue := commandQueue w ++ [{| req_id := received w; req_args := a |}];
           executing := executing w;
           received := S (received w); log := log w |}
  | init_msg | loadScript_msg _ | stdin_response_msg _ => w
  end.

Definition is_executing (id : nat) (w : Worker) : bool :=
  existsb (fun r => (req_id r =? id)%nat) (executing w).

Definition post (id : nat) (m : ToController) (w : Worker) : Worker :=
  {| runningCommand := runningCommand w; commandQueue := commandQueue w;
     executing := executing w; received := received w;
     log := log w ++ [(id, m)] |}.

Definition leave (id : nat) (w : Worker) : Worker :=
  {| runningCommand := runningCommand w; commandQueue := commandQueue w;
     executing := List.filter (fun r => negb (req_id r =? id)%nat) (executing w);
     received := received w; log := log w |}.

(** What can happen next in the worker: a message arrives, or a call of
    [run] that is executing posts something. A call of [run] posts
    [output] and [stdin_request] messages while the interpreter works for
    it, and [complete] as its last statement; the [finally] block of the
    [processCommandQueue] that awaits it follows in the same task. *)
Inductive Event :=
| Receive (m : ToBridge)
| PostsOutput (id : nat) (text : jsstring)
| PostsStdinRequest (id : nat) (prompt : jsstring)
| Completes (id : nat) (result : PyVal + jsstring).

Definition complete_of (result : PyVal + jsstring) : ToController :=
  match result with
  | inl exit_code => complete_ok exit_code
  | inr err => complete_failed err
  end.

(** An event of a call of [run] that is not executing cannot happen; the
    step leaves the state as it is. *)
Definition step (w : Worker) (e : Event) : Worker :=
  match e with
  | Receive m => onmessage m w
  | PostsOutput id text =>
      if is_executing id w then post id (output text) w else w
  | PostsStdinRequest id prompt =>
      if is_executing id w then post id (stdin_request prompt id) w else w
  | Completes id result =>
      if is_executing id w
      then finally (leave id (post id (complete_of result) w))
      else w
  end.

Definition steps (w : Worker) (evs : list Event) : Worker := fold_left step evs w.

End Bridge.

(* ===================================================================== *)
(** ** The specification's reading of the operations *)
(* ===================================================================== *)

(** Definitions that follow the wording of the specification rather than
    the code; the theorems below compare the two. *)
Module Spec.

Import Controller.

Definition is_quote (c : code_unit) : Prop := c = DQUOTE \/ c = SQUOTE.

(** "Empty tokens are never emitted." *)
Definition emit (token : jsstring) : list jsstring :=
  if truthy token then [token] else [].

(** The tokenizer rules, with the space character as the splitting
    whitespace. [Tokens q buf s toks]: with quote [q] open ([None]: no
    quote open) and [buf] collected for the current token, the rest [s] of
    the argument string yields the tokens [toks]. The escape is read
    together with the character it protects, so there is no pending-escape
    state, and tokens come out front to back. *)
Inductive Tokens : option code_unit -> jsstring -> jsstring -> list jsstring -> Prop :=
| T_end q buf :
    Tokens q buf [] (emit buf)
| T_trailing_escape q buf :
    Tokens q buf [BACKSLASH] [buf ++ [BACKSLASH]]
| T_escape q buf c s toks :
    Tokens q (buf ++ [c]) s toks ->
    Tokens q buf (BACKSLASH :: c :: s) toks
| T_open c buf s toks :
    is_quote c ->
    Tokens (Some c) buf s toks ->
    Tokens None buf (c :: s) toks
| T_close c buf s toks :
    is_quote c ->
    Tokens None buf s toks ->
    Tokens (Some c) buf (c :: s) toks
| T_other_quote q c buf s toks :
    is_quote c -> c <> q ->
    Tokens (Some q) (buf ++ [c]) s toks ->
    Tokens (Some q) buf (c :: s) toks
| T_split buf s toks :
    Tokens None [] s toks ->
    Tokens None buf (SPACE :: s) (emit buf ++ toks)
| T_char q c buf s toks :
    c <> BACKSLASH -> ~ is_quote c -> (c = SPACE -> q <> None) ->
    Tokens q (buf ++ [c]) s toks ->
    Tokens q buf (c :: s) toks.

(** No key of [r] is a prefix of [command]. *)
Definition no_key_fits (command : jsstring) (r : Registry) : Prop :=
  Forall (fun e => ~ fst e `prefix_of` command) r.

(** The browse cursor after normalisation: an index outside [0, length]
    counts as [length]. *)
Definition cursor (st : State) : Z :=
  let len := Z.of_nat (length (commandHistory st)) in
  if (historyIndex st <? 0)%Z || (len <? historyIndex st)%Z then len else historyIndex st.

(** A submitted line dispatches when, trimmed, it is not empty and starts
    with a registry key. *)
Definition dispatches (reg : Registry) (line : jsstring) : bool :=
  truthy (trim line) && existsb (fun e => startsWith (trim line) (fst e)) reg.

(** Tab-completion read literally: the candidates are the keys that have
    the text of the input line, as it stands, as a prefix. *)
Definition candidates_of_line (reg : Registry) (st : State) : list jsstring :=
  List.filter (fun key => startsWith key (value (commandInput st))) (map fst reg).

(** The output line that shows one completion candidate. *)
Definition completion_line (key : jsstring) : Line :=
  {| textContent := lit "- " ++ key; lineType := plain |}.

End Spec.

Module BridgeSpec.

Import Bridge.

(** The interpreter's primitives are its own, and whatever a global
    [_original_...] holds is the interpreter's own primitive too. *)
Definition clean_python (py : Python) : Prop :=
  (forall s, live py s = Original)
  /\ (forall s p, saved py s = Some p -> p = Original).

(** A state the restoring assignments bring back to a clean one: either
    nothing is replaced, or every [_original_...] global is bound to the
    interpreter's own primitive and [sys] and [builtins] are in scope. *)
Definition recoverable (py : Python) : Prop :=
  (forall s p, saved py s = Some p -> p = Original)
  /\ ((forall s, live py s = Original)
      \/ (imported py = true /\ forall s, saved py s = Some Original)).

(** The first half of the first script has run to its end. *)
Definition captured (py : Python) : Prop :=
  imported py = true /\ forall s, saved py s = Some Original.

Definition clean (b : Interp) : Prop :=
  match pyodide b with
  | Some py => clean_python py
  | None => True
  end.

(** No handler module is registered and no input handler is installed. *)
Definition released (b : Interp) : Prop :=
  activeStdinHandler b = None
  /\ match pyodide b with
     | Some py => js_handler py = None
     | None => True
     end.

Definition script_loaded (b : Interp) : Prop :=
  match pyodide b with
  | Some py => script_module py = true
  | None => False
  end.

Definition is_complete (m : ToController) : bool :=
  match m with
  | complete_ok _ | complete_failed _ => true
  | _ => false
  end.

Definition not_complete (m : ToController) : Prop := is_complete m = false.

(** The messages a run posts for what the script does, when the
    interception of run [r] is in place. *)
Definition relayed (r : nat) (a : ScriptAction) : list ToController :=
  match a with
  | Print text => [output text]
  | Input prompt =>
      (if truthy prompt then [output prompt] else []) ++ [stdin_request prompt r]
  end.

(** The exit-code mapping in the specification's words, with the last case
    split in two: a fault that is an instance of [Exception] gives exit
    code 1, any other fault is reported as a failed run with the fault's
    message. *)
Definition completion_for (e : Ending) : ToController :=
  match e with
  | Returned => complete_ok (PyInt 0)
  | Raised x =>
      match exc_class x with
      | SystemExit =>
          complete_ok
            match exc_code x with
            | Some PyNone | None => PyInt 0
            | Some c => c
            end
      | EOFError => complete_ok (PyInt 1)
      | KeyboardInterrupt => complete_ok (PyInt 130)
      | OtherException => complete_ok (PyInt 1)
      | OtherBaseException => complete_failed (exc_message x)
      end
  end.

(** The mapping as the specification states it: every fault other than the
    three named ones gives exit code 1. *)
Definition completion_as_stated (e : Ending) : ToController :=
  match e with
  | Returned => complete_ok (PyInt 0)
  | Raised x =>
      match exc_class x with
      | SystemExit =>
          complete_ok
            match exc_code x with
            | Some PyNone | None => PyInt 0
            | Some c => c
            end
      | EOFError => complete_ok (PyInt 1)
      | KeyboardInterrupt => complete_ok (PyInt 130)
      | OtherException | OtherBaseException => complete_ok (PyInt 1)
      end
  end.

(** What the Bridge itself prints for the way the script ended. *)
Definition reported (e : Ending) : list ToController :=
  match e with
  | Returned => []
  | Raised x =>
      match exc_class x with
      | KeyboardInterrupt => [output (lit "Cancelled" ++ [LF])]
      | OtherException =>
          output (lit "Error: " ++ exc_str x ++ [LF]) :: map output (exc_traceback x)
      | _ => []
      end
  end.

(** What the worker does between two messages, as far as the interpreter
    is concerned. *)
Inductive Op :=
| DoInit
| DoLoad (loads : option jsstring)
| DoRun (args : list jsstring) (sc : Scenario).

Definition apply_op (b : Interp) (o : Op) : Interp :=
  match o with
  | DoInit => fst (initializePyodide b)
  | DoLoad loads => fst (loadScript loads b)
  | DoRun args sc => fst (run args sc b)
  end.

Definition after (ops : list Op) : Interp := fold_left apply_op ops uninitialized.

(** *** The run queue *)

Definition ids (l : list Request) : list nat := map req_id l.

(** The requests whose [complete] has been posted, in the order of
    posting. *)
Definition completed (lg : list (nat * ToController)) : list nat :=
  map fst (List.filter (fun e => is_complete e.2) lg).

(** [e1] may come before [e2] in the log: it belongs to an earlier
    request, or to the same request and is not its [complete]. *)
Definition before (e1 e2 : nat * ToController) : Prop :=
  (e1.1 < e2.1)%nat \/ (e1.1 = e2.1 /\ is_complete e1.2 = false).

(** What holds of the worker between two events. *)
Record queue_inv (w : Worker) : Prop := {
  inv_order :
    completed (log w) ++ ids (executing w) ++ ids (commandQueue w) = seq 0 (received w);
  inv_running :
    (runningCommand w = true /\ exists r, executing w = [r])
    \/ (runningCommand w = false /\ executing w = [] /\ commandQueue w = []);
  inv_log :
    forall e, e ∈ log w ->
      e.1 ∈ completed (log w) \/ (e.1 ∈ ids (executing w) /\ is_complete e.2 = false);
  inv_sorted : StronglySorted before (log w)
}.

End BridgeSpec.

(** ** Sample inputs *)

Module Samples.

Import Controller.

(** [a "b c" d] *)
Definition arg_quoted : jsstring :=
  lit "a " ++ [DQUOTE] ++ lit "b c" ++ [DQUOTE] ++ lit " d".

(** [a\ b] as a JavaScript literal: a, backslash, space, b *)
Definition arg_escaped_space : jsstring := lit "a" ++ [BACKSLASH] ++ lit " b".

(** [it's "a" test] *)
Definition arg_its : jsstring :=
  lit "it's " ++ [DQUOTE] ++ lit "a" ++ [DQUOTE] ++ lit " test".

(** [its "a" test], one token *)
Definition token_its : jsstring :=
  lit "its " ++ [DQUOTE] ++ lit "a" ++ [DQUOTE] ++ lit " test".

(** a, tab, b *)
Definition arg_tab : jsstring := lit "a" ++ [TAB] ++ lit "b".

(** The registry of the completion example. *)
Definition help_helpme : Registry :=
  [ (lit "help", {| description := []; action := runHelp_action |});
    (lit "helpme", {| description := []; action := runHelp_action |}) ].

(** The Controller once the worker has reported [initialized] and
    [scriptLoaded]. *)
Definition ready : State :=
  onmessage (inl (lit "print(1)")) scriptLoaded
    (onmessage (inl (lit "print(1)")) initialized (initPyodide initial)).

(** The input line holds [help] followed by one space. *)
Definition typed_help_space : State := set_value (lit "help ") initial.

(** The worker is ready and the line holds the execution command with the
    argument [-h]. *)
Definition typed_search : State :=
  set_value (lit "python just_watch_search.py -h") ready.

(** The Controller after [help] and [clear] have been submitted. *)
Definition two_commands : State :=
  submit TERMINAL_COMMANDS (lit "clear") (submit TERMINAL_COMMANDS (lit "help") initial).

End Samples.

Module BridgeSamples.

Import Bridge BridgeSpec.

(** The worker after [init] and a [loadScript] that succeeds. *)
Definition loaded : Interp := after [DoInit; DoLoad None].

(** [GeneratorExit], say: an exception that is not an [Exception]. *)
Definition not_an_exception : PyExc :=
  {| exc_class := OtherBaseException; exc_code := None; exc_str := lit "boom";
     exc_traceback := []; exc_message := lit "PythonError: GeneratorExit: boom" |}.

(** [sys.exit(2)] *)
Definition exit_2 : PyExc :=
  {| exc_class := SystemExit; exc_code := Some (PyInt 2); exc_str := lit "2";
     exc_traceback := []; exc_message := lit "PythonError: SystemExit: 2" |}.

(** The script prints one line and then ends as [e] says. *)
Definition prints_then (r : nat) (e : Ending) : Scenario :=
  {| runId := r; register_fault := None; setup_fault := None;
     actions := [Print (lit "searching" ++ [LF])]; ending := e |}.

(** The first script fails at its last statement, after the primitives
    have been replaced. *)
Definition fails_in_setup (r : nat) : Scenario :=
  {| runId := r; register_fault := None;
     setup_fault := Some (12%nat, lit "PythonError: NameError");
     actions := []; ending := Returned |}.

(** Two [run] messages back to back; the first run prints and completes,
    then the second prints. *)
Definition back_to_back : list Event :=
  [ Receive (run_msg [lit "a"]); Receive (run_msg [lit "b"]);
    PostsOutput 0 (lit "one"); Completes 0 (inl (PyInt 0));
    PostsOutput 1 (lit "two") ].

End BridgeSamples.

(* ===================================================================== *)
(** ** Further code: events of the page, argument strings *)
(* ===================================================================== *)

Module ControllerMore.

Import Controller.

(** [worker.onerror] *)
Definition onerror (message : jsstring) (st : State) : State :=
  appendOutput (lit "Worker error: " ++ message) error
    (updateStatus (lit "error") (lit "Worker error: " ++ message) st).

(** What can happen on the page: the [load] event of the window, the user
    editing the input line or pressing a key in it, a message or an error
    event of the worker. A disabled input field takes neither text nor
    keys. *)
Inductive Event :=
| PageLoad
| Types (line : jsstring)
| Presses (k : Key)
| Receives (m : ToController)
| WorkerError (message : jsstring).

Definition handle (reg : Registry) (fetched : jsstring + jsstring) (st : State) (e : Event)
  : State :=
  match e with
  | PageLoad => initPyodide st
  | Types line => if disabled (commandInput st) then st else set_value line st
  | Presses k => if disabled (commandInput st) then st else keydown reg k st
  | Receives m => onmessage fetched m st
  | WorkerError message => onerror message st
  end.

Definition handle_all (reg : Registry) (fetched : jsstring + jsstring)
    (evs : list Event) (st : State) : State :=
  fold_left (handle reg fetched) evs st.

(** The messages of the worker, handled in the order of their arrival. *)
Definition deliver (fetched : jsstring + jsstring) (ms : list ToController) (st : State)
  : State :=
  fold_left (fun s m => onmessage fetched m s) ms st.

(** What must have happened before a message to the worker is posted. *)
Definition justified (fetched : jsstring + jsstring) (evs : list Event) (m : ToBridge)
  : Prop :=
  match m with
  | init_msg => PageLoad ∈ evs
  | loadScript_msg code => Receives initialized ∈ evs /\ fetched = inl code
  | run_msg _ => PageLoad ∈ evs /\ Receives scriptLoaded ∈ evs
  | stdin_response_msg _ => False
  end.

(** What holds of the page after the events [evs]. *)
Definition page_inv (fetched : jsstring + jsstring) (evs : list Event) (st : State) : Prop :=
  (worker st = true -> PageLoad ∈ evs)
  /\ (workerReady st = true -> Receives scriptLoaded ∈ evs)
  /\ Forall (justified fetched evs) (posted st).

(** A history entry as [runTerminalCommand] receives it from the Enter
    key: not empty, and without whitespace at either end. *)
Definition well_kept (h : jsstring) : Prop := h <> [] /\ trim h = h.

(** *** Argument strings *)

(** A character the tokenizer treats as ordinary wherever it stands. *)
Definition plain_char (c : code_unit) : Prop :=
  c <> SPACE /\ c <> BACKSLASH /\ c <> DQUOTE /\ c <> SQUOTE.

(** Words with one space between them. *)
Fixpoint join (ws : list jsstring) : jsstring :=
  match ws with
  | [] => []
  | w :: rest =>
      match rest with
      | [] => w
      | _ :: _ => w ++ SPACE :: join rest
      end
  end.


End ControllerMore.

(* ===================================================================== *)
(** ** Further code: input requests, the worker without a queue *)
(* ===================================================================== *)

Module BridgeMore.

Import Bridge.

(** [sys.argv] of the interpreter, if there is one. *)
Definition argv_of (b : Interp) : option (list jsstring) :=
  match pyodide b with Some py => Some (sys_argv py) | None => None end.

(** The arguments of the [run] messages among the events, in order. *)
Definition run_args (evs : list Event) : list (list jsstring) :=
  omap (fun e => match e with Receive (run_msg a) => Some a | _ => None end) evs.

(** What the call [just_watch_search.main()] in the second script gives.
    The script awaits it, whatever it is. *)
Inductive MainCall :=
| CallRaises (e : PyExc)
    (* the call itself raises: a plain function that fails *)
| GivesCoroutine (o : Ending)
    (* [main] is a coroutine function; awaiting the coroutine ends as [o] *)
| GivesValue (type_name : jsstring) (traceback : list jsstring) (message : jsstring).
    (* a plain function that returns: a value of the named type, no awaitable *)

(** The [TypeError] of an [await] applied to a value that is no awaitable;
    [traceback] is what [traceback.print_exc()] writes for it and [message]
    what JavaScript would see of it. *)
Definition not_awaitable (type_name : jsstring) (traceback : list jsstring)
    (message : jsstring) : PyExc :=
  {| exc_class := OtherException; exc_code := None;
     exc_str := lit "object " ++ type_name ++ lit " can't be used in 'await' expression";
     exc_traceback := traceback; exc_message := message |}.

(** [await just_watch_search.main()]: how the expression ends. *)
Definition await_main (m : MainCall) : Ending :=
  match m with
  | CallRaises e => Raised e
  | GivesCoroutine o => o
  | GivesValue type_name traceback message =>
      Raised (not_awaitable type_name traceback message)
  end.

(** Every pending request completes, in the order given, each with the
    result [result] assigns to it. *)
Definition complete_all (result : nat -> PyVal + jsstring) (pending : list nat) : list Event :=
  map (fun id => Completes id (result id)) pending.

End BridgeMore.

(** *** Input requests *)

(** The variables an input request goes through: [activeStdinHandler] of
    the worker, and [currentStdinResolve], of which every call of [run] has
    its own. A promise is named by the number of promises created before
    it. [settled] lists the promises that were resolved, with the response
    each was resolved with. *)
Module Stdin.

Record State := {
  activeStdinHandler : option nat;          (* the run whose [thisRunHandler] it is *)
  currentStdinResolve : nat -> option nat;  (* per run: the promise it can resolve *)
  promises : nat;
  settled : list (nat * jsstring);
  posted : list ToController
}.

Definition start : State :=
  {| activeStdinHandler := None; currentStdinResolve := fun _ => None;
     promises := 0%nat; settled := []; posted := [] |}.

Definition set_resolve (r : nat) (p : option nat) (f : nat -> option nat) : nat -> option nat :=
  fun r' => if (r' =? r)%nat then p else f r'.

(** The head of [run]: a new [currentStdinResolve], [null], and the
    handler of this run made the active one. *)
Definition begin (r : nat) (st : State) : State :=
  {| activeStdinHandler := Some r;
     currentStdinResolve := set_resolve r None (currentStdinResolve st);
     promises := promises st; settled := settled st; posted := posted st |}.

(** [request_input_async(prompt)] of the module run [r] registered. *)
Definition request_input_async (r : nat) (prompt : jsstring) (st : State) : State :=
  {| activeStdinHandler := activeStdinHandler st;
     currentStdinResolve := set_resolve r (Some (promises st)) (currentStdinResolve st);
     promises := S (promises st); settled := settled st;
     posted := posted st ++ [stdin_request prompt r] |}.

(** [activeStdinHandler = null], at the end of [run] on either path. *)
Definition finish (st : State) : State :=
  {| activeStdinHandler := None; currentStdinResolve := currentStdinResolve st;
     promises := promises st; settled := settled st; posted := posted st |}.

(** [thisRunHandler(response)] of run [r]. *)
Definition thisRunHandler (r : nat) (response : jsstring) (st : State) : State :=
  match currentStdinResolve st r with
  | Some p =>
      {| activeStdinHandler := activeStdinHandler st;
         currentStdinResolve := set_resolve r None (currentStdinResolve st);
         promises := promises st; settled := settled st ++ [(p, response)];
         posted := posted st |}
  | None => st
  end.

(** The [stdin_response] branch of the [message] listener. *)
Definition on_stdin_response (response : jsstring) (st : State) : State :=
  match activeStdinHandler st with
  | Some r => thisRunHandler r response st
  | None => st
  end.

Inductive Event :=
| Begins (r : nat)
| Requests (r : nat) (prompt : jsstring)
| Finishes
| Responds (response : jsstring).

Definition step (st : State) (e : Event) : State :=
  match e with
  | Begins r => begin r st
  | Requests r prompt => request_input_async r prompt st
  | Finishes => finish st
  | Responds response => on_stdin_response response st
  end.

Definition steps (evs : list Event) (st : State) : State := fold_left step evs st.

(** What holds between two events: a promise a run can still resolve was
    created, has not been resolved, and belongs to that run only; the
    resolved promises were created and each is listed once. *)
Definition inv (st : State) : Prop :=
  (forall r p, currentStdinResolve st r = Some p ->
     (p < promises st)%nat /\ p ∉ map fst (settled st))
  /\ (forall r1 r2 p, currentStdinResolve st r1 = Some p ->
        currentStdinResolve st r2 = Some p -> r1 = r2)
  /\ (forall p, p ∈ map fst (settled st) -> (p < promises st)%nat)
  /\ NoDup (map fst (settled st)).

End Stdin.

(** *** The worker without a queue ([pyodide-worker.js]) *)

(** The older worker script: [run] replaces [print] only, the entry point
    is called without [await], and the [message] listener calls [run]
    directly, so a call of [run] can begin while another waits at one of
    its [await]s. Statements and the interpreter are those of the Bridge. *)
Module Legacy.

Import Bridge.

Definition capture_script : list Stmt :=
  [ ImportSysBuiltins; ImportHandler; Save builtins_print; DefineReplacements ].

Definition install_script (args : list jsstring) : list Stmt :=
  [ Patch builtins_print; SetArgv args ].

(** The first script of [run]. *)
Definition setup_script (args : list jsstring) : list Stmt :=
  capture_script ++ install_script args.

(** [builtins.print = _original_print], at the end of the second script
    and, without a guard, in the [catch] block. *)
Definition restore_script : list Stmt := [ Restore builtins_print ].

(** Everything about one call of [run] that the worker's own code does not
    decide. *)
Record Script := {
  register_fault : option jsstring;          (* [registerJsModule] throws *)
  setup_fault : option (nat * jsstring);     (* a statement of the first script fails *)
  actions : list ScriptAction;               (* the calls [main()] makes *)
  ending : Ending;                           (* how [main()] ends when its calls succeed *)
  print_failure : jsstring
    (* [error.message] when a [print] of the second script fails *)
}.

(** A call of [print] in the second script. The interpreter's own [print]
    writes to the console. [custom_print] formats the text by calling the
    global [_original_print] and sends it. All definitions of
    [custom_print] read that global when they are called: when it holds a
    [custom_print] the call never comes to the interpreter's own [print]
    and fails, as it does when the name is not bound. [None] is the
    failure. *)
Definition print_call (text : jsstring) (py : Python) : option (list ToController) :=
  match live py builtins_print with
  | Original => Some []
  | Patched _ =>
      match saved py builtins_print with
      | Some Original => Some [output text]
      | _ => None
      end
  end.

(** The calls [main()] makes, up to the first that fails: what is sent, and
    whether all succeeded. A call of [input] goes to the interpreter's own
    [input] and sends nothing. *)
Fixpoint main_calls (l : list ScriptAction) (py : Python) : list ToController * bool :=
  match l with
  | [] => ([], true)
  | Print text :: rest =>
      match print_call text py with
      | Some out => let '(out', ok) := main_calls rest py in (out ++ out', ok)
      | None => ([], false)
      end
  | Input _ :: rest => main_calls rest py
  end.

(** The [except] clauses of the second script: the class each names, the
    exit code, and the line it prints, if it prints. *)
Definition except_clauses : list (ExcClass * (PyExc -> PyVal * option jsstring)) :=
  [ (EOFError,
       fun _ =>
         (PyInt 1,
          Some (lit "Interactive input is not supported in browser mode" ++ [LF])));
    (KeyboardInterrupt, fun _ => (PyInt 130, Some (lit "Cancelled" ++ [LF])));
    (SystemExit,
       fun e =>
         (match exc_code e with
          | Some PyNone | None => PyInt 0
          | Some c => c
          end, None));
    (OtherException, fun e => (PyInt 1, Some (lit "Error: " ++ exc_str e ++ [LF]))) ].

(** The clause that handles [e]; [None]: the exception leaves the script. *)
Definition handler (e : PyExc) : option (PyVal * option jsstring) :=
  match List.find (fun cl => isinstance (exc_class e) (fst cl)) except_clauses with
  | Some cl => Some (snd cl e)
  | None => None
  end.

(** The second script, run as one piece: the interpreter afterwards, what
    was sent, and the exit code or the message of the error that leaves the
    script. The script is taken not to handle a failure of [print]: the
    exception ends [main()] and reaches the [except Exception] clause,
    whose own [print] fails in turn. *)
Definition second_script (r : nat) (s : Script) (py : Python)
  : Python * list ToController * (PyVal + jsstring) :=
  if negb (script_module py) then (py, [], inr (error_message ModuleNotFoundError))
  else
    let '(out1, ok) := main_calls (actions s) py in
    let handled : (PyVal * list ToController) + jsstring :=
      if negb ok then inr (print_failure s)
      else
        match ending s with
        | Returned => inl (PyInt 0, [])
        | Raised e =>
            match handler e with
            | Some (c, None) => inl (c, [])
            | Some (c, Some line) =>
                match print_call line py with
                | Some out2 => inl (c, out2)
                | None => inr (print_failure s)
                end
            | None => inr (exc_message e)
            end
        end in
    match handled with
    | inr m => (py, out1, inr m)
    | inl (exit_code, out2) =>
        match exec_stmts r None restore_script py with
        | (py5, None) => (py5, out1 ++ out2, inl exit_code)
        | (py5, Some e) => (py5, out1 ++ out2, inr (error_message e))
        end
    end.

(** Where a call of [run] stands: what the next task of the worker does
    for it. Between two of these, other tasks of the worker can run. *)
Inductive Pc :=
| FirstScript                             (* the first script runs *)
| SecondScript                            (* the second script runs *)
| AfterSecond (exit_code : PyVal)         (* unregister, post [complete] *)
| CatchScript (m : jsstring)              (* the assignment of the [catch] block runs *)
| AfterCatch (m : jsstring) (restored : bool)
    (* unregister if the assignment succeeded, post [complete] *)
| Finished.

Record Call := {
  call_args : list jsstring;
  script : Script;
  pc : Pc
}.

Definition set_pc (p : Pc) (c : Call) : Call :=
  {| call_args := call_args c; script := script c; pc := p |}.

(** The next task of call number [r]. *)
Definition advance (r : nat) (c : Call) (py : Python) : Python * list ToController * Pc :=
  match pc c with
  | FirstScript =>
      match exec_stmts r (setup_fault (script c)) (setup_script (call_args c)) py with
      | (py3, None) => (py3, [], SecondScript)
      | (py3, Some e) => (py3, [], CatchScript (error_message e))
      end
  | SecondScript =>
      match second_script r (script c) py with
      | (py5, out, inl exit_code) => (py5, out, AfterSecond exit_code)
      | (py5, out, inr m) => (py5, out, CatchScript m)
      end
  | AfterSecond exit_code =>
      match unregisterJsModule py with
      | inl py6 => (py6, [complete_ok exit_code], Finished)
      | inr m => (py, [], CatchScript m)
      end
  | CatchScript m =>
      match exec_stmts r None restore_script py with
      | (py1, None) => (py1, [], AfterCatch m true)
      | (py1, Some _) => (py1, [], AfterCatch m false)
      end
  | AfterCatch m restored =>
      (if restored then
         match unregisterJsModule py with inl py2 => py2 | inr _ => py end
       else py,
       [complete_failed m], Finished)
  | Finished => (py, [], Finished)
  end.

(** The worker: the interpreter, the calls of [run] so far, numbered in the
    order of their messages, and the messages posted. *)
Record Worker := {
  pyodide : option Python;
  calls : list Call;
  posted : list ToController
}.

(** A [run] message: [run] up to its first [await]. Without an
    interpreter both [try] blocks fail at once and [complete] is posted. *)
Definition receive (args : list jsstring) (s : Script) (w : Worker) : Worker :=
  match pyodide w with
  | None =>
      {| pyodide := None;
         calls := calls w ++ [{| call_args := args; script := s; pc := Finished |}];
         posted := posted w ++ [complete_failed (lit "Cannot read properties of null")] |}
  | Some py =>
      match register_fault s with
      | Some m =>
          {| pyodide := Some py;
             calls := calls w ++ [{| call_args := args; script := s; pc := CatchScript m |}];
             posted := posted w |}
      | None =>
          {| pyodide := Some (set_js_handler (Some (length (calls w))) py);
             calls := calls w ++ [{| call_args := args; script := s; pc := FirstScript |}];
             posted := posted w |}
      end
  end.

Definition resume (r : nat) (w : Worker) : Worker :=
  match calls w !! r, pyodide w with
  | Some c, Some py =>
      let '(py', out, p) := advance r c py in
      {| pyodide := Some py'; calls := <[r := set_pc p c]> (calls w);
         posted := posted w ++ out |}
  | _, _ => w
  end.

(** The tasks of the worker: a [run] message arrives, or call [r] goes on
    from where it waits. *)
Inductive Event :=
| Receives (args : list jsstring) (s : Script)
| Resumes (r : nat).

Definition step (w : Worker) (e : Event) : Worker :=
  match e with
  | Receives args s => receive args s w
  | Resumes r => resume r w
  end.

Definition steps (w : Worker) (evs : list Event) : Worker := fold_left step evs w.

(** A call of [run] from its message to its [complete] with no other task
    of the worker in between: at most five tasks follow the message. *)
Definition alone (args : list jsstring) (s : Script) (w : Worker) : list Event :=
  Receives args s :: repeat (Resumes (length (calls w))) 5.

(** What is relayed of the script: its prints. *)
Definition relayed (a : ScriptAction) : list ToController :=
  match a with
  | Print text => [output text]
  | Input _ => []
  end.

(** What this worker prints for the way the script ended. *)
Definition reported (e : Ending) : list ToController :=
  match e with
  | Returned => []
  | Raised x =>
      match exc_class x with
      | EOFError =>
          [output (lit "Interactive input is not supported in browser mode" ++ [LF])]
      | KeyboardInterrupt => [output (lit "Cancelled" ++ [LF])]
      | OtherException => [output (lit "Error: " ++ exc_str x ++ [LF])]
      | _ => []
      end
  end.

(** The first half of the first script has run to its end. *)
Definition captured (py : Python) : Prop :=
  imported py = true
  /\ saved py builtins_print = Some Original
  /\ (forall s p, saved py s = Some p -> p = Original)
  /\ (forall s, s <> builtins_print -> live py s = Original).

(** [print] is replaced, and so is what [_original_print] holds. *)
Definition broken (py : Python) : Prop :=
  (exists r, live py builtins_print = Patched r)
  /\ (exists r, saved py builtins_print = Some (Patched r)).

(** Nothing is replaced in the worker's interpreter, if it has one. *)
Definition clean (w : Worker) : Prop :=
  match pyodide w with
  | Some py => BridgeSpec.clean_python py
  | None => True
  end.

(** A state the assignment of the [catch] block, if it succeeds, brings
    back to a clean one. *)
Definition recoverable (py : Python) : Prop :=
  BridgeSpec.clean_python py \/ captured py.

(** The worker has an interpreter, and [print] is broken in it. *)
Definition stuck (w : Worker) : Prop :=
  exists py, pyodide w = Some py /\ broken py.

(** What holds of the interpreter when a call that runs alone stands at
    [p]. *)
Definition ok_at (p : Pc) (py : Python) : Prop :=
  match p with
  | SecondScript => captured py
  | CatchScript _ => recoverable py
  | _ => BridgeSpec.clean_python py
  end.

(** The tasks a call at [p] still needs, at most. *)
Definition rank (p : Pc) : nat :=
  match p with
  | FirstScript => 5
  | SecondScript => 4
  | AfterSecond _ => 3
  | CatchScript _ => 2
  | AfterCatch _ _ => 1
  | Finished => 0
  end.

(** [n] tasks of call [r] in a row. *)
Fixpoint advance_n (n r : nat) (c : Call) (py : Python)
  : Python * list ToController * Pc :=
  match n with
  | O => (py, [], pc c)
  | S n' =>
      let '(py1, out1, p1) := advance r c py in
      let '(py2, out2, p2) := advance_n n' r (set_pc p1 c) py1 in
      (py2, out1 ++ out2, p2)
  end.

End Legacy.

Module LegacySamples.

Import Bridge.

(** The worker after [init] and [loadScript], before any [run]. *)
Definition loaded : Legacy.Worker :=
  {| Legacy.pyodide := Some (set_script_module fresh_python);
     Legacy.calls := []; Legacy.posted := [] |}.

(** The script prints one line and then ends as [e] says. *)
Definition prints_then (e : Ending) : Legacy.Script :=
  {| Legacy.register_fault := None; Legacy.setup_fault := None;
     Legacy.actions := [Print (lit "searching" ++ [LF])]; Legacy.ending := e;
     Legacy.print_failure := lit "PythonError: RecursionError" |}.

(** The first script fails at its last statement, after [print] has been
    replaced. *)
Definition fails_in_setup : Legacy.Script :=
  {| Legacy.register_fault := None;
     Legacy.setup_fault := Some (5%nat, lit "PythonError: TypeError");
     Legacy.actions := []; Legacy.ending := Returned;
     Legacy.print_failure := lit "PythonError: RecursionError" |}.

End LegacySamples.

(* ===================================================================== *)
(** * Properties *)
(* ===================================================================== *)

(** ** JavaScript strings *)

Section StringFacts.

Lemma startsWith_prefix (s key : jsstring) :
  startsWith s key = true <-> key `prefix_of` s.
Proof.
  revert s. induction key as [|k key IH]; intros s; simpl.
  - split; [intros _; apply prefix_nil | done].
  - destruct s as [|c s].
    + split; [done | intros H; by apply prefix_nil_inv in H].
    + rewrite andb_true_iff, N.eqb_eq, IH. split.
      * intros [-> Hp]. by apply prefix_cons.
      * intros Hp. split.
        -- symmetry. by eapply prefix_cons_inv_1.
        -- by eapply prefix_cons_inv_2.
Qed.

Lemma startsWith_app (key rest : jsstring) : startsWith (key ++ rest) key = true.
Proof. apply startsWith_prefix. by apply prefix_app_r. Qed.

Lemma replace_first_empty_prefix (s key : jsstring) :
  startsWith s key = true -> replace_first_empty s key = drop (length key) s.
Proof. intros H. destruct s; simpl in *; by rewrite H. Qed.

Lemma truthy_true (s : jsstring) : truthy s = true <-> s <> [].
Proof. destruct s; simpl; split; congruence. Qed.

Lemma truthy_false (s : jsstring) : truthy s = false <-> s = [].
Proof. destruct s; simpl; split; congruence. Qed.

Lemma trimStart_all_ws (s : jsstring) :
  forallb is_js_whitespace s = true -> trimStart s = [].
Proof.
  induction s as [|c s IH]; simpl; [done|].
  rewrite andb_true_iff. intros [-> H]. auto.
Qed.

Lemma trim_all_ws (s : jsstring) :
  forallb is_js_whitespace s = true -> trim s = [].
Proof. intros H. unfold trim. by rewrite (trimStart_all_ws s H). Qed.

End StringFacts.

(** ** The argument tokenizer *)

Section Tokenizer.

Import Controller Spec.

Lemma scan_from_cons sc c s : scan_from sc (c :: s) = scan_from (scan_char sc c) s.
Proof. reflexivity. Qed.

Lemma scan_char_escaped a buf q c s :
  scan_from (scanner a buf q) (BACKSLASH :: c :: s) = scan_from (scanner a (buf ++ [c]) q) s.
Proof. reflexivity. Qed.

Lemma quote_cases c :
  (c =? DQUOTE) || (c =? SQUOTE) = true <-> is_quote c.
Proof.
  unfold is_quote. rewrite orb_true_iff, !N.eqb_eq. tauto.
Qed.

Lemma quote_not_backslash c : is_quote c -> (c =? BACKSLASH) = false.
Proof. intros [-> | ->]; reflexivity. Qed.

Lemma scan_char_plain a buf q c :
  c <> BACKSLASH -> ~ is_quote c -> (c = SPACE -> q <> None) ->
  scan_char (scanner a buf q) c = scanner a (buf ++ [c]) q.
Proof.
  intros Hb Hq Hs. unfold scan_char, scanner; simpl.
  apply N.eqb_neq in Hb. rewrite Hb.
  destruct ((c =? DQUOTE) || (c =? SQUOTE)) eqn:E.
  { apply quote_cases in E. tauto. }
  destruct (N.eqb_spec c SPACE) as [->|_]; simpl; [|done].
  destruct q; simpl; [done|]. by destruct Hs.
Qed.

(** Every derivation of the rules is a run of the loop. *)
Lemma Tokens_sound q buf s toks :
  Tokens q buf s toks ->
  forall a, scan_from (scanner a buf q) s = a ++ toks.
Proof.
  induction 1 as
    [ q buf | q buf | q buf c s toks _ IH | c buf s toks Hc _ IH
    | c buf s toks Hc _ IH | q c buf s toks Hc Hne _ IH
    | buf s toks _ IH | q c buf s toks Hb Hq Hs _ IH ]; intros a.
  - unfold scan_from, scan_end, emit; simpl. destruct (truthy buf); [done|].
    by rewrite app_nil_r.
  - unfold scan_from, scan_end; simpl.
    by destruct (buf ++ [BACKSLASH]) eqn:E; [destruct buf|].
  - rewrite scan_char_escaped. apply IH.
  - rewrite scan_from_cons, <- IH. f_equal.
    unfold scan_char, scanner; simpl.
    rewrite (quote_not_backslash c Hc).
    by rewrite (proj2 (quote_cases c) Hc).
  - rewrite scan_from_cons, <- IH. f_equal.
    unfold scan_char, scanner; simpl.
    rewrite (quote_not_backslash c Hc), (proj2 (quote_cases c) Hc).
    by rewrite N.eqb_refl.
  - rewrite scan_from_cons, <- IH. f_equal.
    unfold scan_char, scanner; simpl.
    rewrite (quote_not_backslash c Hc), (proj2 (quote_cases c) Hc).
    destruct (N.eqb_spec q c); [congruence | done].
  - rewrite scan_from_cons. unfold scan_char, scanner, emit in *; simpl.
    destruct (truthy buf) eqn:E.
    + rewrite (IH (a ++ [buf])). by rewrite <- app_assoc.
    + apply truthy_false in E. subst buf. apply IH.
  - rewrite scan_from_cons, scan_char_plain by done. apply IH.
Qed.

(** The rules cover every argument string. *)
Lemma Tokens_total (n : nat) :
  forall s, (length s <= n)%nat -> forall q buf, exists toks, Tokens q buf s toks.
Proof.
  induction n as [n IH] using lt_wf_ind. intros s Hn q buf.
  destruct s as [|c s].
  { eexists. apply T_end. }
  simpl in Hn. destruct (decide (c = BACKSLASH)) as [->|Hb].
  { destruct s as [|c' s].
    - eexists. apply T_trailing_escape.
    - simpl in Hn.
      destruct (IH (length s) ltac:(lia) s ltac:(lia) q (buf ++ [c'])) as [toks H].
      exists toks. by apply T_escape. }
  destruct (decide (c = DQUOTE \/ c = SQUOTE)) as [Hq|Hq].
  { destruct q as [q|].
    - destruct (decide (c = q)) as [->|Hne].
      + destruct (IH (length s) ltac:(lia) s ltac:(lia) None buf) as [toks H].
        exists toks. by apply T_close.
      + destruct (IH (length s) ltac:(lia) s ltac:(lia) (Some q) (buf ++ [c])) as [toks H].
        exists toks. by apply T_other_quote.
    - destruct (IH (length s) ltac:(lia) s ltac:(lia) (Some c) buf) as [toks H].
      exists toks. by apply T_open. }
  destruct (decide (c = SPACE /\ q = None)) as [[-> ->]|Hs].
  { destruct (IH (length s) ltac:(lia) s ltac:(lia) None []) as [toks H].
    eexists. by apply T_split. }
  destruct (IH (length s) ltac:(lia) s ltac:(lia) q (buf ++ [c])) as [toks H].
  exists toks. apply T_char; try done. intros -> ->. by apply Hs.
Qed.

Lemma splitArgs_Tokens s toks :
  splitArgs s = toks <-> Tokens None [] s toks.
Proof.
  split.
  - intros <-. destruct (Tokens_total (length s) s (le_n _) None []) as [toks H].
    pose proof (Tokens_sound _ _ _ _ H []) as E. simpl in E.
    unfold splitArgs, scanner_start. unfold scanner in E. by rewrite E.
  - intros H. apply (Tokens_sound _ _ _ _ H []).
Qed.

(** No empty string is ever pushed. *)
Lemma scan_char_nonempty sc c :
  Forall (fun t => t <> []) (args sc) -> Forall (fun t => t <> []) (args (scan_char sc c)).
Proof.
  intros H. unfold scan_char.
  repeat (case_match; simpl; try done).
  apply Forall_app. split; [done|]. constructor; [|done]. by apply truthy_true.
Qed.

Lemma scan_from_nonempty s : forall sc,
  Forall (fun t => t <> []) (args sc) -> Forall (fun t => t <> []) (scan_from sc s).
Proof.
  induction s as [|c s IH]; intros sc H.
  - unfold scan_from, scan_end; simpl. case_match eqn:E; [|done].
    apply Forall_app. split; [done|]. constructor; [|done]. by apply truthy_true.
  - rewrite scan_from_cons. apply IH. by apply scan_char_nonempty.
Qed.

(** Inside an open quote everything up to the end of the string is one
    token, when no closing quote and no backslash follows. *)
Lemma scan_from_unterminated w : forall a buf q,
  Forall (fun x => x <> q /\ x <> BACKSLASH) w ->
  scan_from (scanner a buf (Some q)) w = a ++ emit (buf ++ w).
Proof.
  induction w as [|c w IH]; intros a buf q H.
  - rewrite app_nil_r. unfold scan_from, scan_end, emit; simpl.
    destruct (truthy buf); [done | by rewrite app_nil_r].
  - apply Forall_cons in H as [[Hq Hb] H].
    rewrite scan_from_cons.
    assert (scan_char (scanner a buf (Some q)) c = scanner a (buf ++ [c]) (Some q)) as ->.
    { unfold scan_char, scanner; simpl.
      apply N.eqb_neq in Hb. rewrite Hb.
      destruct ((c =? DQUOTE) || (c =? SQUOTE)).
      - destruct (N.eqb_spec q c); [congruence | done].
      - by rewrite andb_false_r. }
    rewrite IH by done. by rewrite <- app_assoc.
Qed.

End Tokenizer.

Section TokenizerClaims.

Import Controller Spec Samples.

(** C1, as the code has it. The tokenizer follows the rules [Tokens]:
    an unquoted space (the character U+0020, no other whitespace) splits
    tokens; a backslash makes the next character literal and is dropped; a
    quote suppresses splitting up to the next quote of the same kind, a
    quote of the other kind in between being literal; a backslash at the
    very end is kept; no empty token is emitted. [a "b c" d] gives
    [a], [b c], [d]; [a\ b] gives [a b]; [it's "a" test] gives the single
    token [its "a" test], because the apostrophe opens a quote that is
    never closed; an unterminated quote takes the rest of the string as one
    token. *)
Theorem C1_tokenizer_rules :
  (forall s toks, splitArgs s = toks <-> Tokens None [] s toks)
  /\ (forall s, Forall (fun t => t <> []) (splitArgs s))
  /\ splitArgs arg_quoted = [lit "a"; lit "b c"; lit "d"]
  /\ splitArgs arg_escaped_space = [lit "a b"]
  /\ splitArgs arg_its = [token_its]
  /\ (forall q w, is_quote q -> Forall (fun x => x <> q /\ x <> BACKSLASH) w ->
        splitArgs (q :: w) = emit w)
  /\ splitArgs (lit "a" ++ [BACKSLASH]) = [lit "a" ++ [BACKSLASH]].
Proof.
  split; [exact splitArgs_Tokens|].
  split; [intros s; by apply scan_from_nonempty|].
  repeat split; try reflexivity.
  intros q w Hq Hw. unfold splitArgs. rewrite scan_from_cons.
  assert (scan_char scanner_start q = scanner [] [] (Some q)) as ->.
  { unfold scan_char, scanner_start, scanner; simpl.
    by rewrite (quote_not_backslash q Hq), (proj2 (quote_cases q) Hq). }
  by rewrite scan_from_unterminated.
Qed.

Lemma C1_tokenizer_rules_witness :
  splitArgs (DQUOTE :: lit "b c") = [lit "b c"].
Proof.
  destruct C1_tokenizer_rules as (_ & _ & _ & _ & _ & H & _).
  apply (H DQUOTE (lit "b c")).
  - left. reflexivity.
  - repeat constructor; discriminate.
Defined.

(** The claim as stated fails twice: its third example does not give the
    three tokens [its], [a], [test], and a tab, which is whitespace, does
    not split. *)
Lemma C1_counterexample :
  splitArgs arg_its <> [lit "its"; lit "a"; lit "test"]
  /\ is_js_whitespace TAB = true
  /\ splitArgs arg_tab = [arg_tab].
Proof.
  split; [|split; reflexivity].
  intros H. vm_compute in H. discriminate H.
Qed.

End TokenizerClaims.

(** ** Dispatch and history *)

Section Dispatch.

Import Controller Spec Samples.

Variable reg : Registry.

Lemma find_command_first command : forall r,
  match find_command r command with
  | Some (key, spec, args_raw) =>
      exists before after,
        r = before ++ (key, spec) :: after
        /\ key `prefix_of` command
        /\ no_key_fits command before
        /\ args_raw = trim (drop (length key) command)
  | None => no_key_fits command r
  end.
Proof.
  induction r as [|[key spec] r IH]; simpl.
  - constructor.
  - destruct (startsWith command key) eqn:E.
    + exists [], r. split; [done|]. split; [by apply startsWith_prefix|].
      split; [constructor|]. by rewrite replace_first_empty_prefix.
    + destruct (find_command r command) as [[[k sp] raw]|].
      * destruct IH as (before & after & -> & Hp & Hb & ->).
        exists ((key, spec) :: before), after. repeat split; try done.
        constructor; [|done]. simpl. rewrite <- startsWith_prefix. congruence.
      * constructor; [|done]. simpl. rewrite <- startsWith_prefix. congruence.
Qed.

Lemma find_command_dispatches command :
  is_Some (find_command reg command)
  <-> existsb (fun e => startsWith command (fst e)) reg = true.
Proof.
  induction reg as [|[key spec] r IH]; simpl.
  - split; [by intros [? ?] | done].
  - destruct (startsWith command key); simpl; [|done].
    split; [done | by eexists].
Qed.

Lemma fold_appendOutput {A} (f : A -> jsstring) (l : list A) : forall st,
  fold_left (fun s x => appendOutput (f x) plain s) l st
  = set_output
      (terminalOutput st ++ map (fun x => {| textContent := f x; lineType := plain |}) l) st.
Proof.
  induction l as [|x l IH]; intros st; simpl.
  - rewrite app_nil_r. by destruct st.
  - rewrite IH. unfold appendOutput, set_output; simpl. by rewrite <- app_assoc.
Qed.

Lemma invoke_history a args st :
  commandHistory (invoke reg a args st) = commandHistory st
  /\ historyIndex (invoke reg a args st) = historyIndex st.
Proof.
  destruct a; simpl.
  - unfold runHelp. by rewrite fold_appendOutput.
  - done.
  - unfold runJustWatchSearch. by case_match.
Qed.

Lemma runTerminalCommand_history command st :
  match find_command reg command with
  | Some _ =>
      commandHistory (runTerminalCommand reg command st) = commandHistory st ++ [command]
      /\ historyIndex (runTerminalCommand reg command st)
         = Z.of_nat (length (commandHistory st ++ [command]))
  | None =>
      commandHistory (runTerminalCommand reg command st) = commandHistory st
      /\ historyIndex (runTerminalCommand reg command st) = historyIndex st
  end.
Proof.
  unfold runTerminalCommand.
  destruct (find_command reg command) as [[[key spec] raw]|]; [|done].
  unfold dispatch_end; simpl.
  by destruct (invoke_history (action spec) (splitArgs raw) (dispatch_begin command st))
    as [-> ->].
Qed.

Lemma submit_history line st :
  if dispatches reg line
  then commandHistory (submit reg line st) = commandHistory st ++ [trim line]
       /\ historyIndex (submit reg line st) = Z.of_nat (S (length (commandHistory st)))
  else commandHistory (submit reg line st) = commandHistory st
       /\ historyIndex (submit reg line st) = historyIndex st.
Proof.
  unfold dispatches, submit, keydown, on_enter; simpl.
  destruct (truthy (trim line)); simpl; [|done].
  pose proof (runTerminalCommand_history (trim line) (set_value line st)) as H.
  pose proof (find_command_dispatches (trim line)) as D.
  destruct (find_command reg (trim line)) as [m|].
  - rewrite (proj1 D) by by eexists.
    destruct H as [-> ->]. simpl. split; [done|].
    rewrite length_app; simpl. f_equal. lia.
  - destruct (existsb _ reg); [|done]. by destruct (proj2 D eq_refl).
Qed.

(** Whenever a command dispatches, the input field is disabled for the
    call of the action and enabled when [runTerminalCommand] is done. *)
Lemma dispatch_disables_then_enables command st :
  is_Some (find_command reg command) ->
  disabled (commandInput (dispatch_begin command st)) = true
  /\ disabled (commandInput (runTerminalCommand reg command st)) = false.
Proof.
  intros [[[key spec] raw] E]. unfold runTerminalCommand. by rewrite E.
Qed.

(** The execution command, with the worker ready, ends by posting the [run]
    message; it does not wait for an answer. *)
Lemma runJustWatchSearch_posts args st :
  worker st = true -> workerReady st = true ->
  posted (runJustWatchSearch args st) = posted st ++ [run_msg args].
Proof. intros Hw Hr. unfold runJustWatchSearch. by rewrite Hw, Hr. Qed.

(** C2. For every command line, [runTerminalCommand] either finds the
    first registry entry, in the registry's order, whose key is a prefix of
    the line, and then runs that entry's action on the tokens of the rest of
    the line (no earlier key is a prefix); or no key is a prefix, and then it
    appends the "Unknown command" line and the hint to the output and
    changes nothing else: no action runs. *)
Theorem C2_dispatch_first_prefix (command : jsstring) (st : State) :
  (exists before key spec after,
     reg = before ++ (key, spec) :: after
     /\ key `prefix_of` command
     /\ no_key_fits command before
     /\ runTerminalCommand reg command st
        = dispatch_end
            (invoke reg (action spec) (splitArgs (trim (drop (length key) command)))
               (dispatch_begin command st)))
  \/ (no_key_fits command reg
      /\ runTerminalCommand reg command st
         = set_output
             (terminalOutput st ++
                [ {| textContent := lit "Unknown command: " ++ command; lineType := error |};
                  {| textContent :=
                       lit "Type " ++ [DQUOTE] ++ lit "help" ++ [DQUOTE]
                         ++ lit " to see the list of available commands.";
                     lineType := info |} ]) st).
Proof.
  pose proof (find_command_first command reg) as H.
  unfold runTerminalCommand.
  destruct (find_command reg command) as [[[key spec] raw]|].
  - left. destruct H as (before & after & -> & Hp & Hb & ->).
    by exists before, key, spec, after.
  - right. split; [done|].
    unfold unknown_command, appendOutput, set_output; simpl.
    by rewrite <- app_assoc.
Qed.

(** C7. Each submitted line that dispatches adds exactly its trimmed text
    to the history and puts the browse cursor at the history's length, the
    "fresh" position; a line that does not dispatch (unknown command, or
    blank) leaves history and cursor alone. So after any sequence of
    submissions the history has grown by the number of lines that
    dispatched, and from the initial state its length is that number. *)
Theorem C7_history_counts_dispatches :
  (forall line st,
     dispatches reg line = true ->
     commandHistory (submit reg line st) = commandHistory st ++ [trim line]
     /\ historyIndex (submit reg line st)
        = Z.of_nat (length (commandHistory (submit reg line st))))
  /\ (forall line st,
        dispatches reg line = false ->
        commandHistory (submit reg line st) = commandHistory st
        /\ historyIndex (submit reg line st) = historyIndex st)
  /\ (forall lines st,
        length (commandHistory (submit_all reg lines st))
        = (length (commandHistory st) + length (List.filter (dispatches reg) lines))%nat)
  /\ (forall lines,
        length (commandHistory (submit_all reg lines initial))
        = length (List.filter (dispatches reg) lines)).
Proof.
  assert (forall lines st,
    length (commandHistory (submit_all reg lines st))
    = (length (commandHistory st) + length (List.filter (dispatches reg) lines))%nat) as Hall.
  { induction lines as [|line lines IH]; intros st; simpl; [lia|].
    unfold submit_all in *; simpl. rewrite IH.
    pose proof (submit_history line st) as H.
    destruct (dispatches reg line); destruct H as [-> _]; simpl; [|done].
    rewrite length_app; simpl. lia. }
  repeat split.
  - pose proof (submit_history line st) as Hs. rewrite H in Hs. tauto.
  - pose proof (submit_history line st) as Hs. rewrite H in Hs.
    destruct Hs as [-> ->]. rewrite length_app; simpl. f_equal. lia.
  - pose proof (submit_history line st) as Hs. rewrite H in Hs. tauto.
  - pose proof (submit_history line st) as Hs. rewrite H in Hs. tauto.
  - exact Hall.
  - intros lines. by rewrite Hall.
Qed.

(** C10. Enter on an input line that is empty or holds whitespace only
    changes nothing at all: no echo, no dispatch, no message, and history
    and cursor as they were. *)
Theorem C10_blank_submit_noop (st : State) :
  forallb is_js_whitespace (value (commandInput st)) = true ->
  keydown reg Enter st = st.
Proof.
  intros H. unfold keydown, on_enter. by rewrite (trim_all_ws _ H).
Qed.

End Dispatch.

Section DispatchWitnesses.

Import Controller Spec Samples.

(** No key of the registry is an array index: [for ... in] and
    [Object.keys] enumerate the keys in the order of the object literal. *)
Lemma TERMINAL_COMMANDS_order :
  forallb (fun e => negb (starts_with_digit (fst e))) TERMINAL_COMMANDS = true.
Proof. reflexivity. Qed.

Lemma C7_history_counts_dispatches_witness :
  commandHistory (submit TERMINAL_COMMANDS (lit " help ") initial) = [lit "help"]
  /\ historyIndex (submit TERMINAL_COMMANDS (lit " help ") initial) = 1%Z.
Proof.
  destruct (C7_history_counts_dispatches TERMINAL_COMMANDS) as (H & _).
  destruct (H (lit " help ") initial) as [H1 H2]; [reflexivity|].
  split; [exact H1 | exact H2].
Defined.

Lemma C10_blank_submit_noop_witness :
  keydown TERMINAL_COMMANDS Enter (set_value (lit "   ") initial)
  = set_value (lit "   ") initial.
Proof. apply (C10_blank_submit_noop TERMINAL_COMMANDS). reflexivity. Defined.

End DispatchWitnesses.

(** ** History navigation *)

Section Navigation.

Import Controller Spec Samples.

Variable reg : Registry.

Ltac arith :=
  repeat match goal with
  | H : _ || _ = true |- _ => apply orb_true_iff in H; destruct H
  | H : _ || _ = false |- _ => apply orb_false_iff in H; destruct H
  | H : (_ <? _)%Z = true |- _ => apply Z.ltb_lt in H
  | H : (_ <? _)%Z = false |- _ => apply Z.ltb_ge in H
  | H : (_ =? _)%Z = true |- _ => apply Z.eqb_eq in H
  | H : (_ =? _)%Z = false |- _ => apply Z.eqb_neq in H
  end; simpl in *; try lia.

Lemma cursor_range st :
  (0 <= cursor st <= Z.of_nat (length (commandHistory st)))%Z.
Proof. unfold cursor. case_match eqn:E; arith. Qed.

Lemma on_arrow_history up st : commandHistory (on_arrow up st) = commandHistory st.
Proof.
  unfold on_arrow. repeat (case_match; simpl; try done).
Qed.

Lemma on_arrow_up_index st :
  commandHistory st <> [] ->
  historyIndex (on_arrow true st) = Z.max 0 (cursor st - 1).
Proof.
  intros Hne. unfold on_arrow, cursor.
  destruct (commandHistory st) as [|h hs] eqn:Eh; [done|].
  case_match eqn:E0; [simpl in E0; lia|].
  repeat (case_match; simpl in *; rewrite ?Eh in *; simpl in *); arith.
Qed.

Lemma on_arrow_up_iter st n :
  commandHistory st <> [] ->
  historyIndex (Nat.iter (S n) (on_arrow true) st) = Z.max 0 (cursor st - Z.of_nat (S n)).
Proof.
  intros Hne. induction n as [|n IH].
  - simpl Nat.iter. by rewrite on_arrow_up_index.
  - change (Nat.iter (S (S n)) (on_arrow true) st)
      with (on_arrow true (Nat.iter (S n) (on_arrow true) st)).
    assert (commandHistory (Nat.iter (S n) (on_arrow true) st) = commandHistory st) as Hh.
    { clear IH. induction n as [|n IHn]; simpl in *; [apply on_arrow_history|].
      by rewrite on_arrow_history. }
    rewrite on_arrow_up_index by by rewrite Hh.
    pose proof (cursor_range st) as Hr.
    unfold cursor at 1. rewrite Hh, IH.
    case_match eqn:E; arith.
Qed.

Lemma on_arrow_down_past st :
  commandHistory st <> [] ->
  (Z.of_nat (length (commandHistory st)) - 1 <= cursor st)%Z ->
  value (commandInput (on_arrow false st)) = []
  /\ historyIndex (on_arrow false st) = Z.of_nat (length (commandHistory st)).
Proof.
  intros Hne Hc. unfold on_arrow, cursor in *.
  destruct (commandHistory st) as [|h hs] eqn:Eh; [done|].
  repeat (case_match; simpl in *; rewrite ?Eh in *; simpl in *); arith; done.
Qed.

(** C8. With a history that is not empty: from the fresh state with an
    empty input line, Up shows the newest entry and a following Down gives
    back the empty line and the fresh cursor; Up never takes the cursor
    below 0, stays at 0 once there, and reaches 0 after at most as many
    presses as there are entries; Down from the newest entry or from the
    fresh state empties the line and makes the cursor fresh. With an empty
    history both keys leave the state as it is. *)
Theorem C8_history_navigation :
  (forall st,
     commandHistory st <> [] ->
     historyIndex st = Z.of_nat (length (commandHistory st)) ->
     value (commandInput st) = [] ->
     Some (value (commandInput (keydown reg ArrowUp st))) = last (commandHistory st)
     /\ value (commandInput (keydown reg ArrowDown (keydown reg ArrowUp st))) = []
     /\ historyIndex (keydown reg ArrowDown (keydown reg ArrowUp st)) = historyIndex st
     /\ commandHistory (keydown reg ArrowDown (keydown reg ArrowUp st)) = commandHistory st)
  /\ (forall st,
        commandHistory st <> [] ->
        (0 <= historyIndex (keydown reg ArrowUp st))%Z
        /\ (historyIndex st = 0%Z -> historyIndex (keydown reg ArrowUp st) = 0%Z)
        /\ (forall n, (length (commandHistory st) <= n)%nat ->
              historyIndex (Nat.iter n (keydown reg ArrowUp) st) = 0%Z))
  /\ (forall st,
        commandHistory st <> [] ->
        (Z.of_nat (length (commandHistory st)) - 1 <= cursor st)%Z ->
        value (commandInput (keydown reg ArrowDown st)) = []
        /\ historyIndex (keydown reg ArrowDown st) = Z.of_nat (length (commandHistory st)))
  /\ (forall st,
        commandHistory st = [] ->
        keydown reg ArrowUp st = st /\ keydown reg ArrowDown st = st).
Proof.
  split; [|split; [|split]].
  - intros st Hne Hfresh Hv. simpl keydown.
    destruct (commandHistory st) as [|h hs] eqn:Eh using rev_ind; [done|]. clear IHhs.
    rewrite length_app in Hfresh; simpl in Hfresh.
    assert (value (commandInput (on_arrow true st)) = h
            /\ historyIndex (on_arrow true st) = Z.of_nat (length hs)
            /\ commandHistory (on_arrow true st) = hs ++ [h]) as (Hup & Hi & Hh).
    { rewrite on_arrow_history, Eh. split; [|split; [|done]].
      - unfold on_arrow. rewrite Eh, length_app; simpl.
        repeat case_match; arith; rewrite ?Eh, ?Hfresh;
          unfold history_entry;
          replace (Z.to_nat (Z.of_nat (length hs + 1) - 1)) with (length hs + 0)%nat by lia;
          rewrite lookup_app_r, Nat.add_comm, Nat.add_sub by lia; simpl;
          by destruct h.
      - rewrite on_arrow_up_index by (rewrite Eh; by destruct hs).
        unfold cursor. rewrite Eh, length_app, Hfresh; simpl.
        case_match; lia. }
    split; [by rewrite Hup, last_snoc|].
    rewrite on_arrow_history, Hh.
    destruct (on_arrow_down_past (on_arrow true st)) as [-> ->].
    + rewrite Hh. by destruct hs.
    + unfold cursor. rewrite Hh, Hi, length_app. case_match; arith.
    + by rewrite Hh, Hfresh, length_app.
  - intros st Hne. simpl keydown.
    pose proof (cursor_range st) as Hr.
    split; [rewrite on_arrow_up_index by done; lia|].
    split.
    + intros H0. rewrite on_arrow_up_index by done. unfold cursor. rewrite H0.
      case_match; lia.
    + intros n Hn. destruct n as [|n].
      { destruct (commandHistory st); [done | simpl in Hn; lia]. }
      change (Nat.iter (S n) (keydown reg ArrowUp) st)
        with (Nat.iter (S n) (on_arrow true) st).
      rewrite on_arrow_up_iter by done. lia.
  - intros st Hne Hc. by apply on_arrow_down_past.
  - intros st He. simpl. unfold on_arrow. by rewrite He.
Qed.

End Navigation.

Section NavigationWitness.

Import Controller Spec Samples.

Lemma C8_history_navigation_witness :
  Some (value (commandInput (keydown TERMINAL_COMMANDS ArrowUp two_commands)))
    = last (commandHistory two_commands)
  /\ value (commandInput
              (keydown TERMINAL_COMMANDS ArrowDown
                 (keydown TERMINAL_COMMANDS ArrowUp two_commands))) = []
  /\ historyIndex (keydown TERMINAL_COMMANDS ArrowDown
                     (keydown TERMINAL_COMMANDS ArrowUp two_commands))
     = historyIndex two_commands
  /\ commandHistory (keydown TERMINAL_COMMANDS ArrowDown
                       (keydown TERMINAL_COMMANDS ArrowUp two_commands))
     = commandHistory two_commands.
Proof.
  apply (proj1 (C8_history_navigation TERMINAL_COMMANDS) two_commands).
  - intros E. vm_compute in E. discriminate E.
  - vm_compute. reflexivity.
  - vm_compute. reflexivity.
Defined.

End NavigationWitness.

(** ** Tab-completion *)

Section Completion.

Import Controller Spec Samples.

Variable reg : Registry.

Lemma matchingCommands_spec typed key :
  key ∈ matchingCommands reg typed <-> key ∈ map fst reg /\ typed `prefix_of` key.
Proof.
  unfold matchingCommands.
  rewrite !list_elem_of_In, filter_In, startsWith_prefix. tauto.
Qed.

(** C9, as the code has it. The text completed is the input line without
    its leading and trailing whitespace. The candidates are the registry
    keys, in registry order, that have this text as a prefix. Exactly one
    candidate: the input line becomes that key, the caret goes to its end,
    and nothing is printed. Several: the line "Possible completions:" and
    then one line per candidate are appended to the output, and the input
    line stays. None: the state is unchanged. With the keys [help] and
    [helpme], the text [help] prints both and keeps the line, the text
    [helpm] turns the line into [helpme]. *)
Theorem C9_tab_completion :
  (forall st key,
     key ∈ matchingCommands reg (trim (value (commandInput st)))
     <-> key ∈ map fst reg /\ trim (value (commandInput st)) `prefix_of` key)
  /\ (forall st key,
        matchingCommands reg (trim (value (commandInput st))) = [key] ->
        keydown reg Tab st = setSelectionRange (length key) (length key) (set_value key st))
  /\ (forall st,
        (2 <= length (matchingCommands reg (trim (value (commandInput st)))))%nat ->
        keydown reg Tab st
        = set_output
            (terminalOutput st
               ++ {| textContent := lit "Possible completions:"; lineType := plain |}
               :: map completion_line
                    (matchingCommands reg (trim (value (commandInput st))))) st)
  /\ (forall st,
        matchingCommands reg (trim (value (commandInput st))) = [] ->
        keydown reg Tab st = st)
  /\ (let st := keydown help_helpme Tab (set_value (lit "help") initial) in
      terminalOutput st
      = [ {| textContent := lit "Possible completions:"; lineType := plain |};
          completion_line (lit "help"); completion_line (lit "helpme") ]
      /\ value (commandInput st) = lit "help")
  /\ value (commandInput (keydown help_helpme Tab (set_value (lit "helpm") initial)))
     = lit "helpme".
Proof.
  split; [intros; apply matchingCommands_spec|].
  split; [intros st key H; simpl; unfold on_tab; by rewrite H|].
  split; [|split; [intros st H; simpl; unfold on_tab; by rewrite H|]].
  - intros st H. simpl. unfold on_tab.
    destruct (matchingCommands reg (trim (value (commandInput st)))) as [|k1 [|k2 m]] eqn:E;
      [simpl in H; lia | simpl in H; lia |].
    rewrite fold_appendOutput. unfold appendOutput, set_output; simpl.
    by rewrite <- app_assoc.
  - split; [split|]; reflexivity.
Qed.

End Completion.

Section CompletionWitness.

Import Controller Spec Samples.

Lemma C9_tab_completion_witness :
  keydown TERMINAL_COMMANDS Tab typed_help_space
  = setSelectionRange 4 4 (set_value (lit "help") typed_help_space).
Proof.
  apply (proj1 (proj2 (C9_tab_completion TERMINAL_COMMANDS)) typed_help_space (lit "help")).
  reflexivity.
Defined.

(** The claim as stated fails: no registry key has the line [help ], with
    its trailing space, as a prefix, and yet Tab changes the line. *)
Lemma C9_counterexample :
  candidates_of_line TERMINAL_COMMANDS typed_help_space = []
  /\ value (commandInput typed_help_space) = lit "help "
  /\ value (commandInput (keydown TERMINAL_COMMANDS Tab typed_help_space)) = lit "help".
Proof. repeat split; reflexivity. Qed.

End CompletionWitness.

(** ** Input field during a command *)

Section InputField.

Import Controller Spec Samples.

(** C6, at a failing input. The worker is ready and the user submits the
    execution command. The input field is disabled when the action is
    called, but when the handler of the Enter key is done the [run] message
    has been posted, no [complete] has arrived, and the input field is
    enabled again: a second command can be submitted, and is sent to the
    Bridge as well. *)
Theorem C6_input_enabled_while_run_pending :
  let command := lit "python just_watch_search.py -h" in
  let sent := keydown TERMINAL_COMMANDS Enter typed_search in
  disabled (commandInput (dispatch_begin command typed_search)) = true
  /\ posted sent = posted ready ++ [run_msg [lit "-h"]]
  /\ disabled (commandInput sent) = false
  /\ posted (submit TERMINAL_COMMANDS command sent)
     = posted ready ++ [run_msg [lit "-h"]; run_msg [lit "-h"]].
Proof. vm_compute. repeat split; reflexivity. Qed.

End InputField.

(** ** One run of the script *)

Section RunFacts.

Import Bridge BridgeSpec.

Lemma exec_stmts_inv (P : Python -> Prop) r ss :
  (forall s py py', s ∈ ss -> P py -> exec_stmt r s py = inl py' -> P py') ->
  forall fault py, P py -> P (exec_stmts r fault ss py).1.
Proof.
  induction ss as [|s ss IH]; intros Hstep fault py HP; [done|].
  assert (forall f, P (match exec_stmt r s py with
                       | inl py' => exec_stmts r f ss py'
                       | inr e => (py, Some e)
                       end).1) as Hgo.
  { intros f. destruct (exec_stmt r s py) as [py'|e] eqn:E; [|done].
    apply IH.
    - intros s0 p0 p1 Hin. apply Hstep. by right.
    - eapply Hstep; [left | done | done]. }
  cbn [exec_stmts]. destruct fault as [[[|k] m]|]; [done | apply Hgo | apply Hgo].
Qed.

Lemma exec_stmts_no_fault r ss : forall fault py py1,
  exec_stmts r fault ss py = (py1, None) -> exec_stmts r None ss py = (py1, None).
Proof.
  induction ss as [|s ss IH]; intros fault py py1; [done|].
  cbn [exec_stmts]. destruct fault as [[[|k] m]|]; [done | |];
    destruct (exec_stmt r s py) as [py'|e]; try done; apply IH.
Qed.

Lemma exec_stmts_app r l1 l2 : forall fault py,
  exists fault',
    exec_stmts r fault (l1 ++ l2) py
    = match exec_stmts r fault l1 py with
      | (py1, None) => exec_stmts r fault' l2 py1
      | (py1, Some e) => (py1, Some e)
      end.
Proof.
  induction l1 as [|s l1 IH]; intros fault py.
  - by exists fault.
  - cbn [app exec_stmts]. destruct fault as [[[|k] m]|].
    + by exists None.
    + destruct (exec_stmt r s py) as [py'|e]; [apply IH | by exists None].
    + destruct (exec_stmt r s py) as [py'|e]; [apply IH | by exists None].
Qed.

(** Errors that the statements raise by themselves. *)
Lemma exec_stmts_restore_error r py py1 e :
  exec_stmts r None restore_script py = (py1, Some e) -> e = NameError.
Proof.
  unfold restore_script. cbn [exec_stmts fmap option_fmap option_map].
  repeat (match goal with
          | |- context [exec_stmt r (Restore ?s) ?p] =>
              let E := fresh "E" in
              destruct (exec_stmt r (Restore s) p) as [?|?] eqn:E;
              [| cbn in E; repeat case_match; congruence]
          end).
  congruence.
Qed.

Lemma clean_recoverable py : clean_python py -> recoverable py.
Proof. intros [Hl Hs]. split; [done | by left]. Qed.

Lemma upd_same {A} (f : Slot -> A) s a : upd f s a s = a.
Proof. unfold upd. by rewrite decide_True. Qed.

Lemma upd_const {A} (f : Slot -> A) s a s' : f s' = a -> upd f s a s' = a.
Proof. unfold upd. by case_decide. Qed.

(** The capturing statements keep a clean interpreter clean. *)
Lemma capture_keeps_clean r s py py' :
  s ∈ capture_script -> clean_python py -> exec_stmt r s py = inl py' -> clean_python py'.
Proof.
  intros Hin [Hl Hs] E. unfold capture_script in Hin.
  repeat (apply elem_of_cons in Hin as [->|Hin]); [..|by apply elem_of_nil in Hin];
    cbn in E; repeat case_match; simplify_eq; split; cbn; try done.
  all: intros s' p; unfold upd; case_decide; [|apply Hs].
  all: intros; simplify_eq; apply Hl.
Qed.

(** Once everything is captured, the installing statements keep it so. *)
Lemma install_keeps_captured r args s py py' :
  s ∈ install_script args -> captured py -> exec_stmt r s py = inl py' -> captured py'.
Proof.
  intros Hin [Hi Hs] E. unfold install_script in Hin.
  repeat (apply elem_of_cons in Hin as [->|Hin]); [..|by apply elem_of_nil in Hin];
    cbn in E; rewrite Hi in E; simplify_eq; by split.
Qed.

Lemma captured_recoverable py : captured py -> recoverable py.
Proof.
  intros [Hi Hs]. split; [|by right].
  intros s p. rewrite Hs. congruence.
Qed.

Lemma capture_done r py py1 :
  clean_python py ->
  exec_stmts r None capture_script py = (py1, None) -> captured py1.
Proof.
  intros [Hl Hs]. unfold capture_script. cbn.
  destruct (js_handler py); [|done]. cbn.
  intros E. simplify_eq. split; [done|].
  intros s. cbn. unfold upd. rewrite !Hl.
  repeat case_decide; try done. destruct s; congruence.
Qed.

(** However far the first script gets, the restoring assignments can undo
    it. *)
Lemma setup_recoverable r fault args py :
  clean_python py -> recoverable (exec_stmts r fault (setup_script args) py).1.
Proof.
  intros Hc. unfold setup_script.
  destruct (exec_stmts_app r capture_script (install_script args) fault py) as [f' ->].
  destruct (exec_stmts r fault capture_script py) as [py1 [e|]] eqn:E.
  - apply clean_recoverable.
    change py1 with (py1, Some e).1. rewrite <- E.
    apply exec_stmts_inv; [|done]. apply capture_keeps_clean.
  - apply captured_recoverable.
    apply (exec_stmts_inv captured).
    + apply install_keeps_captured.
    + eapply capture_done; [done|]. by eapply exec_stmts_no_fault.
Qed.

Lemma restore_captured r py :
  captured py ->
  exists py',
    exec_stmts r None restore_script py = (py', None)
    /\ (forall s, live py' s = Original)
    /\ saved py' = saved py /\ imported py' = imported py
    /\ js_handler py' = js_handler py /\ script_module py' = script_module py.
Proof.
  intros [Hi Hs]. unfold restore_script.
  cbn [exec_stmts exec_stmt fmap option_fmap option_map].
  rewrite (Hs builtins_print), Hi. cbn -[exec_stmt]. cbn [exec_stmt].
  rewrite (Hs builtins_input). cbn [saved set_live imported]. rewrite Hi.
  cbn -[exec_stmt]. cbn [exec_stmt].
  rewrite (Hs sys_stdout). cbn [saved set_live imported]. rewrite Hi.
  cbn -[exec_stmt]. cbn [exec_stmt].
  rewrite (Hs sys_stderr). cbn [saved set_live imported]. rewrite Hi.
  eexists. split; [reflexivity|]. cbn. repeat split; try done. by intros [].
Qed.

Lemma restore_keeps_clean r s py py' :
  s ∈ restore_script -> clean_python py -> exec_stmt r s py = inl py' ->
  clean_python py'.
Proof.
  intros Hin [Hl Hs] E. unfold restore_script in Hin.
  repeat (apply elem_of_cons in Hin as [->|Hin]); [..|by apply elem_of_nil in Hin];
    cbn in E; repeat case_match; simplify_eq; split; cbn; try done.
  all: intros s'.
  all: match goal with H : saved _ _ = Some ?p |- _ => rewrite (Hs _ _ H) end.
  all: apply upd_const, Hl.
Qed.

Lemma restore_frame r s py py' :
  s ∈ restore_script -> exec_stmt r s py = inl py' ->
  js_handler py' = js_handler py /\ script_module py' = script_module py.
Proof.
  intros Hin E. unfold restore_script in Hin.
  repeat (apply elem_of_cons in Hin as [->|Hin]); [..|by apply elem_of_nil in Hin];
    cbn in E; repeat case_match; by simplify_eq.
Qed.

(** The restoring assignments, from a recoverable state. *)
Lemma restore_recovers r py :
  recoverable py ->
  exists py' e,
    exec_stmts r None restore_script py = (py', e)
    /\ clean_python py'
    /\ js_handler py' = js_handler py
    /\ script_module py' = script_module py
    /\ (e = None \/ e = Some NameError).
Proof.
  intros [Hs [Hl | Hc]].
  - assert ((fun p => clean_python p /\ js_handler p = js_handler py
                      /\ script_module p = script_module py)
              (exec_stmts r None restore_script py).1) as Hinv.
    { apply exec_stmts_inv; [|done].
      intros s p p' Hin (Hp & Hj & Hm) Ex. split; [by eapply restore_keeps_clean|].
      by destruct (restore_frame r s p p' Hin Ex) as [-> ->]. }
    destruct (exec_stmts r None restore_script py) as [py' e] eqn:E.
    cbn in Hinv. destruct Hinv as (H1 & H2 & H3).
    exists py', e. repeat split; try done; try apply H1.
    destruct e as [e|]; [right | by left].
    by rewrite (exec_stmts_restore_error r py py' e E).
  - destruct (restore_captured r py Hc) as (py' & E & Hl & Hsv & _ & Hj & Hm).
    exists py', None. repeat split; try done; [|by left].
    intros s p. rewrite Hsv. apply Hs.
Qed.

(** What the script does leaves the primitives and the registration as
    they are. *)
Lemma act_frame a py :
  live (act a py).1 = live py /\ saved (act a py).1 = saved py
  /\ imported (act a py).1 = imported py
  /\ js_handler (act a py).1 = js_handler py
  /\ script_module (act a py).1 = script_module py.
Proof. destruct a; cbn; repeat case_match; done. Qed.

Lemma act_all_frame l : forall py,
  live (act_all l py).1 = live py /\ saved (act_all l py).1 = saved py
  /\ imported (act_all l py).1 = imported py
  /\ js_handler (act_all l py).1 = js_handler py
  /\ script_module (act_all l py).1 = script_module py.
Proof.
  induction l as [|a l IH]; intros py; [done|].
  cbn [act_all]. destruct (act a py) as [py1 m1] eqn:E1.
  destruct (act_all l py1) as [py2 m2] eqn:E2. cbn.
  destruct (IH py1) as (H1 & H2 & H3 & H4 & H5). rewrite E2 in *. cbn in *.
  destruct (act_frame a py) as (G1 & G2 & G3 & G4 & G5). rewrite E1 in *. cbn in *.
  repeat split; congruence.
Qed.

Lemma act_all_not_complete l : forall py, Forall not_complete (act_all l py).2.
Proof.
  induction l as [|a l IH]; intros py; [constructor|].
  cbn [act_all]. destruct (act a py) as [py1 m1] eqn:E1.
  specialize (IH py1). destruct (act_all l py1) as [py2 m2]. cbn in *.
  apply Forall_app. split; [|done].
  destruct a; cbn in E1; unfold py_print, custom_print in E1;
    repeat case_match; simplify_eq; repeat constructor.
Qed.

Lemma py_write_not_complete s text py : Forall not_complete (py_write s text py).
Proof. unfold py_write. case_match; repeat constructor. Qed.

Lemma py_print_not_complete text py : Forall not_complete (py_print text py).
Proof. unfold py_print, custom_print. repeat case_match; repeat constructor. Qed.

Lemma handle_not_complete e py r :
  handle e py = Some r -> Forall not_complete r.2.
Proof.
  unfold handle, except_clauses. cbn [List.find fst snd].
  repeat case_match; intros; simplify_eq; cbn;
    try (by constructor); try apply py_print_not_complete.
  apply Forall_app. split; [apply py_print_not_complete|].
  induction (exc_traceback e); cbn; [constructor|].
  apply Forall_app. split; [apply py_write_not_complete | done].
Qed.

Lemma act_all_relayed r l : forall py,
  (forall s, exists r', live py s = Patched r') ->
  saved py builtins_print = Some Original ->
  js_handler py = Some r ->
  (act_all l py).2 = flat_map (relayed r) l.
Proof.
  induction l as [|a l IH]; intros py Hl Hs Hj; [done|].
  cbn [act_all flat_map]. destruct (act a py) as [py1 m1] eqn:E1.
  destruct (act_frame a py) as (G1 & G2 & _ & G4 & _). rewrite E1 in *. cbn in *.
  specialize (IH py1). destruct (act_all l py1) as [py2 m2]. cbn in *.
  rewrite IH; [|by rewrite G1|by rewrite G2|congruence]. f_equal.
  destruct a; cbn in E1; unfold py_print, custom_print in E1; rewrite Hs in E1.
  - destruct (Hl builtins_print) as [r' Hp]. rewrite Hp in E1. by simplify_eq.
  - destruct (Hl builtins_input) as [r' Hp]. rewrite Hp, Hj in E1. by simplify_eq.
Qed.

Lemma recoverable_ext py py' :
  live py' = live py -> saved py' = saved py -> imported py' = imported py ->
  recoverable py -> recoverable py'.
Proof. unfold recoverable. by intros -> -> ->. Qed.

Lemma clean_python_ext py py' :
  live py' = live py -> saved py' = saved py -> clean_python py -> clean_python py'.
Proof. unfold clean_python. by intros -> ->. Qed.

Lemma exec_stmt_script_module r s py py' :
  exec_stmt r s py = inl py' -> script_module py' = script_module py.
Proof. destruct s; cbn; repeat case_match; intros; by simplify_eq. Qed.

Lemma exec_stmts_script_module r fault ss py :
  script_module (exec_stmts r fault ss py).1 = script_module py.
Proof.
  apply (exec_stmts_inv (fun p => script_module p = script_module py)); [|done].
  intros s p p' _ <- E. by eapply exec_stmt_script_module.
Qed.

Lemma unregister_or_keep py :
  let py1 := match unregisterJsModule py with inl p => p | inr _ => py end in
  live py1 = live py /\ saved py1 = saved py /\ imported py1 = imported py
  /\ script_module py1 = script_module py /\ js_handler py1 = None.
Proof.
  unfold unregisterJsModule. destruct (js_handler py) eqn:E; cbn; by rewrite ?E.
Qed.

(** The body of the outer [try]. When it ends normally the interpreter is
    clean and nothing is registered; when it throws, the state is one the
    [catch] block can restore. *)
Ltac trio := split; [|split].

Lemma run_try_spec args sc b :
  clean b ->
  Forall not_complete (run_try args sc b).1.2
  /\ (script_loaded b -> script_loaded (run_try args sc b).1.1)
  /\ match (run_try args sc b).2 with
     | inl _ => clean (run_try args sc b).1.1 /\ released (run_try args sc b).1.1
     | inr _ =>
         match pyodide (run_try args sc b).1.1 with
         | Some py => recoverable py
         | None => True
         end
     end.
Proof.
  unfold run_try, clean, script_loaded.
  destruct (pyodide b) as [py|] eqn:Eb; [|cbn; rewrite Eb; by repeat split].
  intros Hc.
  destruct (unregister_or_keep py) as (U1 & U2 & U3 & U4 & U5).
  set (py1 := match unregisterJsModule py with inl p => p | inr _ => py end) in *.
  assert (clean_python py1) as Hc1 by by eapply clean_python_ext.
  destruct (register_fault sc) as [m|]; cbn [fst snd].
  { cbn. trio; [constructor | congruence | by apply clean_recoverable]. }
  set (py2 := set_js_handler (Some (runId sc)) py1).
  assert (clean_python py2) as Hc2 by by eapply clean_python_ext.
  assert (script_module py2 = script_module py) as Hm2 by exact U4.
  pose proof (setup_recoverable (runId sc) (setup_fault sc) args py2 Hc2) as Hrec.
  pose proof (exec_stmts_script_module (runId sc) (setup_fault sc) (setup_script args) py2)
    as Hmod.
  destruct (exec_stmts (runId sc) (setup_fault sc) (setup_script args) py2)
    as [py3 [e|]] eqn:E3; cbn in Hrec, Hmod.
  { cbn. trio; [constructor | congruence | done]. }
  destruct (script_module py3) eqn:Em3; cbn [negb].
  2: { cbn. trio; [constructor | congruence | done]. }
  pose proof (act_all_frame (actions sc) py3) as (F1 & F2 & F3 & F4 & F5).
  pose proof (act_all_not_complete (actions sc) py3) as Hout1.
  destruct (act_all (actions sc) py3) as [py4 out1]; cbn in F1, F2, F3, F4, F5, Hout1.
  assert (recoverable py4) as Hrec4 by by eapply recoverable_ext.
  assert (script_module py4 = true) as Em4 by congruence.
  set (handled := match ending sc with
                  | Returned => inl (PyInt 0, [])
                  | Raised e0 =>
                      match handle e0 py4 with
                      | Some r => inl r
                      | None => inr (exc_message e0)
                      end
                  end).
  assert (match handled with inl r => Forall not_complete r.2 | inr _ => True end) as Hh.
  { unfold handled. destruct (ending sc) as [|e0]; [constructor|].
    destruct (handle e0 py4) eqn:Eh; [|done]. by eapply handle_not_complete. }
  destruct handled as [[exit_code out2]|m]; cbn in Hh.
  2: { cbn. trio; [done | congruence | done]. }
  destruct (restore_recovers (runId sc) py4 Hrec4) as (py5 & e5 & E5 & Hc5 & Hj5 & Hm5 & He5).
  rewrite E5.
  assert (Forall not_complete (out1 ++ out2)) as Hout by by apply Forall_app.
  destruct e5 as [e5|].
  { cbn. trio; [done | congruence | by apply clean_recoverable]. }
  unfold unregisterJsModule. destruct (js_handler py5) eqn:Ej5; cbn.
  - trio; [done | congruence | by repeat split; try apply Hc5].
  - trio; [done | congruence | by apply clean_recoverable].
Qed.

Lemma cleanup_in_catch_spec b :
  match pyodide b with Some py => recoverable py | None => True end ->
  clean (cleanup_in_catch b) /\ released (cleanup_in_catch b)
  /\ (script_loaded b -> script_loaded (cleanup_in_catch b)).
Proof.
  unfold cleanup_in_catch.
  change (pyodide (set_stdin_handler None b)) with (pyodide b).
  destruct (pyodide b) as [py|] eqn:Eb.
  2: { intros _. unfold clean, released, script_loaded. cbn. by rewrite Eb. }
  intros Hrec.
  destruct (restore_recovers 0 py Hrec) as (py1 & e & E & Hc & Hj & Hm & He).
  rewrite E.
  assert (forall b2,
            match unregisterJsModule py1 with
            | inl p => set_pyodide p (set_stdin_handler None b)
            | inr _ => set_pyodide py1 (set_stdin_handler None b)
            end = b2 ->
            clean b2 /\ released b2 /\ (script_loaded b -> script_loaded b2)) as Hgo.
  { intros b2 <-. unfold unregisterJsModule, clean, released, script_loaded.
    rewrite Eb.
    destruct (js_handler py1) eqn:Ej; cbn; trio; try done; try congruence. }
  destruct He as [-> | ->]; by apply Hgo.
Qed.

(** [run] as a whole. *)
Lemma run_spec args sc b :
  clean b ->
  clean (run args sc b).1 /\ released (run args sc b).1
  /\ (script_loaded b -> script_loaded (run args sc b).1)
  /\ exists out c,
       (run args sc b).2 = out ++ [c] /\ Forall not_complete out /\ is_complete c = true.
Proof.
  intros Hc. unfold run.
  destruct (run_try_spec args sc b Hc) as (Hout & Hload & Hres).
  destruct (run_try args sc b) as [[b1 out] [exit_code|m]]; cbn in *.
  - destruct Hres as [H1 H2]. repeat split; try done; try apply H2.
    by exists out, (complete_ok exit_code).
  - destruct (cleanup_in_catch_spec b1 Hres) as (H1 & H2 & H3).
    repeat split; try done; try apply H2; [tauto|].
    by exists out, (complete_failed m).
Qed.

Lemma after_clean ops : forall b, clean b -> clean (fold_left apply_op ops b).
Proof.
  induction ops as [|o ops IH]; intros b Hc; [done|].
  cbn [fold_left]. apply IH. destruct o; cbn.
  - unfold clean; cbn. by split.
  - unfold loadScript, clean in *. destruct (pyodide b) as [py|] eqn:E.
    + destruct loads; cbn; by rewrite ?E.
    + cbn. by rewrite E.
  - by apply run_spec.
Qed.

Lemma setup_no_fault r args py h :
  js_handler py = Some h ->
  exists py',
    exec_stmts r None (setup_script args) py = (py', None)
    /\ (forall s, live py' s = Patched r)
    /\ (forall s, saved py' s = Some (live py s))
    /\ imported py' = true
    /\ js_handler py' = Some h
    /\ script_module py' = script_module py.
Proof.
  intros Hjs. destruct py as [l sv im av ch sm js]. cbn in Hjs. subst js.
  eexists. split; [vm_compute; reflexivity|].
  repeat split; try done; intros []; reflexivity.
Qed.

Lemma restore_succeeds r py :
  imported py = true -> (forall s, is_Some (saved py s)) ->
  exists py',
    exec_stmts r None restore_script py = (py', None)
    /\ js_handler py' = js_handler py.
Proof.
  intros Hi Hs. unfold restore_script.
  destruct (Hs builtins_print) as [p1 H1], (Hs builtins_input) as [p2 H2],
    (Hs sys_stdout) as [p3 H3], (Hs sys_stderr) as [p4 H4].
  cbn [exec_stmts exec_stmt fmap option_fmap option_map].
  rewrite H1, Hi. cbn -[exec_stmt]. cbn [exec_stmt].
  cbn [saved set_live imported]. rewrite H2, Hi.
  cbn -[exec_stmt]. cbn [exec_stmt].
  cbn [saved set_live imported]. rewrite H3, Hi.
  cbn -[exec_stmt]. cbn [exec_stmt].
  cbn [saved set_live imported]. rewrite H4, Hi.
  eexists. split; [reflexivity | done].
Qed.

Lemma flat_map_output (l : list jsstring) : flat_map (fun c => [output c]) l = map output l.
Proof. induction l; cbn; congruence. Qed.

(** The [except] clauses, with the replacements in place. *)
Lemma handle_spec e py :
  (forall s, exists r', live py s = Patched r') ->
  saved py builtins_print = Some Original ->
  match handle e py with
  | Some r =>
      completion_for (Raised e) = complete_ok r.1 /\ r.2 = reported (Raised e)
  | None =>
      completion_for (Raised e) = complete_failed (exc_message e)
      /\ reported (Raised e) = []
  end.
Proof.
  intros Hl Hs. unfold handle, except_clauses, completion_for, reported.
  destruct (Hl builtins_print) as [r1 H1], (Hl sys_stderr) as [r2 H2].
  destruct (exc_class e); cbn; unfold py_print, custom_print, py_write;
    rewrite ?H1, ?Hs; try done.
  split; [done|]. cbn. f_equal. rewrite <- flat_map_output.
  induction (exc_traceback e); cbn; [done|]. rewrite H2. cbn. congruence.
Qed.

(** A run in which nothing fails before the script starts: what the script
    does is relayed, the way it ends is reported and mapped. *)
Lemma run_no_fault args sc py h :
  clean_python py ->
  script_module py = true ->
  register_fault sc = None ->
  setup_fault sc = None ->
  (run args sc {| pyodide := Some py; activeStdinHandler := h |}).2
  = flat_map (relayed (runId sc)) (actions sc)
      ++ reported (ending sc) ++ [completion_for (ending sc)].
Proof.
  intros [Hcl _] Hm Hr Hf. unfold run, run_try. cbn [pyodide]. rewrite Hr, Hf.
  destruct (unregister_or_keep py) as (U1 & _ & _ & U4 & _).
  set (py1 := match unregisterJsModule py with inl p => p | inr _ => py end) in *.
  destruct (setup_no_fault (runId sc) args (set_js_handler (Some (runId sc)) py1) (runId sc))
    as (py3 & -> & Hl3 & Hs3 & Hi3 & Hj3 & Hm3); [done|].
  cbn in Hm3. rewrite Hm3, U4, Hm. cbn [negb].
  pose proof (act_all_frame (actions sc) py3) as (F1 & F2 & F3 & F4 & F5).
  pose proof (act_all_relayed (runId sc) (actions sc) py3) as Hout.
  destruct (act_all (actions sc) py3) as [py4 out1]; cbn in F1, F2, F3, F4, F5, Hout.
  assert (saved py4 builtins_print = Some Original) as Hs4.
  { rewrite F2, Hs3. cbn. by rewrite U1, Hcl. }
  rewrite Hout; [|by eauto|congruence|done].
  assert (forall s, exists r', live py4 s = Patched r') as Hl4.
  { intros s. rewrite F1. eauto. }
  destruct (restore_succeeds (runId sc) py4) as (py5 & E5 & Hj5).
  { congruence. }
  { intros s. rewrite F2, Hs3. by eexists. }
  assert (unregisterJsModule py5 = inl (set_js_handler None py5)) as Eu.
  { unfold unregisterJsModule. by rewrite Hj5, F4, Hj3. }
  destruct (ending sc) as [|e].
  - rewrite E5, Eu. cbn. by rewrite app_nil_r.
  - pose proof (handle_spec e py4 Hl4 Hs4) as Hh.
    destruct (handle e py4) as [[exit_code out2]|].
    + destruct Hh as [-> Hh]. cbn in Hh. subst out2.
      rewrite E5, Eu. cbn [fst snd]. by rewrite <- app_assoc.
    + destruct Hh as [-> ->]. by cbn.
Qed.

End RunFacts.

Section RunClaims.

Import Bridge BridgeSpec BridgeMore BridgeSamples.

(** C4, as the code has it. The script awaits the call of its entry point,
    and [ending] is how that awaited call ends. When the interception is
    installed without a failure, [run] relays what the script did, then what
    the Bridge prints about the ending, and last the [complete] message of
    [completion_for]: the code carried by a [SystemExit], 0 when it carries
    none; 1 for an [EOFError]; 130 for a [KeyboardInterrupt], after the line
    "Cancelled"; 1 for any other instance of [Exception], after the line
    "Error: " with the fault's text and the traceback; exit code 0 when the
    awaited call completes without a fault. A fault that is not an instance
    of [Exception] is not caught by the script wrapper: [complete] then
    reports a failed run with the fault's message and carries no exit code.
    An entry point that is a plain function and returns does not give exit
    code 0: what it returns cannot be awaited, the [await] raises a
    [TypeError], and that is one of the other instances of [Exception], with
    exit code 1 after the "Error: " line. *)
Theorem C4_exit_code_mapping args sc py h :
  clean_python py ->
  script_module py = true ->
  register_fault sc = None ->
  setup_fault sc = None ->
  (run args sc {| pyodide := Some py; activeStdinHandler := h |}).2
  = flat_map (relayed (runId sc)) (actions sc)
      ++ reported (ending sc) ++ [completion_for (ending sc)]
  /\ (forall type_name traceback message,
        ending sc = await_main (GivesValue type_name traceback message) ->
        (run args sc {| pyodide := Some py; activeStdinHandler := h |}).2
        = flat_map (relayed (runId sc)) (actions sc)
            ++ output (lit "Error: object " ++ type_name
                         ++ lit " can't be used in 'await' expression" ++ [LF])
               :: map output traceback
            ++ [complete_ok (PyInt 1)]).
Proof.
  intros Hc Hm Hr Hf.
  pose proof (run_no_fault args sc py h Hc Hm Hr Hf) as E.
  split; [exact E|].
  intros type_name traceback message He. rewrite E, He. cbn.
  by rewrite <- !app_assoc.
Qed.

Lemma C4_exit_code_mapping_witness :
  (run [] (prints_then 7 (Raised exit_2))
     {| pyodide := Some (set_script_module fresh_python); activeStdinHandler := None |}).2
  = flat_map (relayed 7) [Print (lit "searching" ++ [LF])]
      ++ reported (Raised exit_2) ++ [complete_ok (PyInt 2)]
  /\ (run [] (prints_then 8 (await_main (GivesValue (lit "NoneType") [] (lit "TypeError"))))
        {| pyodide := Some (set_script_module fresh_python); activeStdinHandler := None |}).2
     = flat_map (relayed 8) [Print (lit "searching" ++ [LF])]
         ++ output (lit "Error: object " ++ lit "NoneType"
                      ++ lit " can't be used in 'await' expression" ++ [LF])
            :: map output []
         ++ [complete_ok (PyInt 1)].
Proof.
  split.
  - refine (proj1 (C4_exit_code_mapping [] (prints_then 7 (Raised exit_2))
                     (set_script_module fresh_python) None _ _ _ _)).
    + split; [reflexivity | discriminate].
    + reflexivity.
    + reflexivity.
    + reflexivity.
  - refine (proj2 (C4_exit_code_mapping []
                     (prints_then 8
                        (await_main (GivesValue (lit "NoneType") [] (lit "TypeError"))))
                     (set_script_module fresh_python) None _ _ _ _)
              (lit "NoneType") [] (lit "TypeError") _).
    + split; [reflexivity | discriminate].
    + reflexivity.
    + reflexivity.
    + reflexivity.
    + reflexivity.
Defined.

(** The claim as stated fails for a fault that is not an instance of
    [Exception]: the run is reported as failed, with the fault's message and
    without exit code 1. *)
Lemma C4_counterexample :
  (run [] (prints_then 7 (Raised not_an_exception)) loaded).2
  = [ output (lit "searching" ++ [LF]);
      complete_failed (lit "PythonError: GeneratorExit: boom") ]
  /\ completion_as_stated (Raised not_an_exception) = complete_ok (PyInt 1).
Proof. split; reflexivity. Qed.

(** C5. Every state the worker reaches between two messages is clean.
    From a clean state, whatever happens in a run (the registration fails,
    a statement of the first script fails, the script module is missing,
    the script returns or raises, caught or not), the state in which [run]
    posts [complete] is clean again: the four primitives are the
    interpreter's own, no handler module is registered, no input handler is
    installed; [complete] is the last message of the run and the only one.
    A run that follows and meets no failure relays what its script does and
    completes with exit code 0. *)
Theorem C5_cleanup_on_every_path :
  (forall ops, clean (after ops))
  /\ (forall args sc b,
        clean b ->
        clean (run args sc b).1
        /\ released (run args sc b).1
        /\ exists out c,
             (run args sc b).2 = out ++ [c]
             /\ Forall not_complete out /\ is_complete c = true)
  /\ (forall args sc b args' sc',
        clean b -> script_loaded b ->
        register_fault sc' = None -> setup_fault sc' = None -> ending sc' = Returned ->
        (run args' sc' (run args sc b).1).2
        = flat_map (relayed (runId sc')) (actions sc') ++ [complete_ok (PyInt 0)]).
Proof.
  split; [|split].
  - intros ops. by apply after_clean.
  - intros args sc b Hc. destruct (run_spec args sc b Hc) as (H1 & H2 & _ & H4). done.
  - intros args sc b args' sc' Hc Hl Hr Hf He.
    destruct (run_spec args sc b Hc) as (H1 & _ & H3 & _).
    specialize (H3 Hl).
    destruct (run args sc b).1 as [[py1|] h1]; [|done].
    rewrite run_no_fault by done. by rewrite He.
Qed.

Lemma C5_cleanup_on_every_path_witness :
  clean (run [] (fails_in_setup 1) loaded).1
  /\ released (run [] (fails_in_setup 1) loaded).1
  /\ (run [lit "-h"] (prints_then 2 Returned) (run [] (fails_in_setup 1) loaded).1).2
     = flat_map (relayed 2) [Print (lit "searching" ++ [LF])] ++ [complete_ok (PyInt 0)].
Proof.
  destruct C5_cleanup_on_every_path as (Hreach & Hrun & Hnext).
  assert (clean loaded) as Hc by apply (Hreach [DoInit; DoLoad None]).
  destruct (Hrun [] (fails_in_setup 1) loaded Hc) as (H1 & H2 & _).
  split; [exact H1 | split; [exact H2 |]].
  apply (Hnext [] (fails_in_setup 1) loaded [lit "-h"] (prints_then 2 Returned) Hc);
    reflexivity.
Defined.

End RunClaims.

(** ** The run queue *)

Section Queue.

Import Bridge BridgeSpec.

Lemma seq_sorted n : forall s, StronglySorted lt (seq s n).
Proof.
  induction n as [|n IH]; intros s; cbn; constructor; [apply IH|].
  apply Forall_forall. intros x Hx. apply list_elem_of_In, in_seq in Hx. lia.
Qed.

Lemma seq_app_lt (l1 l2 : list nat) s n x y :
  l1 ++ l2 = seq s n -> x ∈ l1 -> y ∈ l2 -> (x < y)%nat.
Proof.
  intros E. pose proof (seq_sorted n s) as H. rewrite <- E in H.
  by eapply StronglySorted_app_1_elem_of.
Qed.

Lemma completed_app lg1 lg2 : completed (lg1 ++ lg2) = completed lg1 ++ completed lg2.
Proof. unfold completed. by rewrite List.filter_app, List.map_app. Qed.

Lemma completed_elem id m lg : (id, m) ∈ lg -> is_complete m = true -> id ∈ completed lg.
Proof.
  intros Hin Hc. unfold completed. apply list_elem_of_In, in_map_iff.
  exists (id, m). split; [done|]. apply filter_In. split; [|done].
  by apply list_elem_of_In.
Qed.

Lemma idle_inv : queue_inv idle.
Proof.
  split; cbn; try done.
  - right. done.
  - intros e He. by apply elem_of_nil in He.
  - constructor.
Qed.

Lemma is_executing_single r id w :
  executing w = [r] -> is_executing id w = true -> req_id r = id.
Proof.
  unfold is_executing. intros ->. cbn. rewrite orb_false_r. apply Nat.eqb_eq.
Qed.

(** A new log entry of the executing request keeps the log in order. *)
Lemma log_snoc_sorted w r m :
  queue_inv w -> executing w = [r] ->
  StronglySorted before (log w ++ [(req_id r, m)]).
Proof.
  intros [Ho _ Hl Hs] Ex. apply StronglySorted_app. split; [|split; [done|]].
  - intros e1 e2 H1 H2. apply list_elem_of_singleton in H2 as ->.
    destruct (Hl e1 H1) as [Hc | [He Hn]].
    + left. cbn. rewrite Ex in Ho. cbn in Ho.
      eapply (seq_app_lt _ _ _ _ _ _ Ho Hc). by left.
    + right. rewrite Ex in He. cbn in He. apply list_elem_of_singleton in He. done.
  - repeat constructor.
Qed.

Lemma post_inv w id m :
  is_complete m = false -> is_executing id w = true ->
  queue_inv w -> queue_inv (post id m w).
Proof.
  intros Hm Hex Hinv. pose proof Hinv as [Ho Hr Hl Hs].
  destruct Hr as [[Hrun [r Ex]] | [_ [Ex _]]].
  2: { unfold is_executing in Hex. by rewrite Ex in Hex. }
  pose proof (is_executing_single r id w Ex Hex) as <-.
  assert (completed (log w ++ [(req_id r, m)]) = completed (log w)) as Hcompl.
  { rewrite completed_app. unfold completed at 2. cbn. rewrite Hm. cbn.
    by rewrite app_nil_r. }
  split; cbn -[completed]; rewrite ?Hcompl.
  - done.
  - left. eauto.
  - intros e He. apply elem_of_app in He as [He | He].
    + by apply Hl.
    + apply list_elem_of_singleton in He as ->. right. cbn. split; [|done].
      rewrite Ex. cbn. by left.
  - by apply log_snoc_sorted.
Qed.

Lemma receive_run_inv w a : queue_inv w -> queue_inv (onmessage (run_msg a) w).
Proof.
  intros [Ho Hr Hl Hs]. destruct w as [run q ex n lg]. cbn -[completed ids seq] in *.
  unfold onmessage, processCommandQueue. cbn -[completed ids seq].
  destruct Hr as [[-> [r ->]] | [-> [-> ->]]]; cbn -[completed ids seq].
  - split; cbn -[completed ids seq]; try done.
    + rewrite seq_S, <- Ho. unfold ids. rewrite List.map_app. cbn.
      by rewrite <- !app_assoc.
    + left. eauto.
  - split; cbn -[completed ids seq]; try done.
    + rewrite seq_S, <- Ho. cbn. by rewrite !app_nil_r.
    + left. eauto.
    + intros e He. destruct (Hl e He) as [Hc | [Hc _]]; [by left|].
      by apply elem_of_nil in Hc.
Qed.

Lemma completes_inv w id result :
  is_executing id w = true ->
  queue_inv w -> queue_inv (finally (leave id (post id (complete_of result) w))).
Proof.
  intros Hex Hinv. pose proof Hinv as [Ho Hr Hl Hs].
  destruct Hr as [[Hrun [r Ex]] | [_ [Ex _]]].
  2: { unfold is_executing in Hex. by rewrite Ex in Hex. }
  pose proof (is_executing_single r id w Ex Hex) as <-.
  pose proof (log_snoc_sorted w r (complete_of result) Hinv Ex) as Hsorted.
  assert (is_complete (complete_of result) = true) as Hc by by destruct result.
  assert (completed (log w ++ [(req_id r, complete_of result)])
          = completed (log w) ++ [req_id r]) as Hcompl.
  { rewrite completed_app. unfold completed at 2. cbn. by rewrite Hc. }
  assert (forall e, e ∈ log w ++ [(req_id r, complete_of result)] ->
            e.1 ∈ completed (log w) ++ [req_id r]) as Hlog.
  { intros e He. apply elem_of_app. apply elem_of_app in He as [He | He].
    - destruct (Hl e He) as [H1 | [H1 _]]; [by left | right].
      by rewrite Ex in H1.
    - apply list_elem_of_singleton in He as ->. right. by left. }
  destruct w as [run q ex n lg]. cbn -[completed ids seq] in *. subst ex run.
  unfold finally, leave, post, processCommandQueue. cbn -[completed ids seq].
  rewrite Nat.eqb_refl. cbn -[completed ids seq].
  destruct q as [|r' q]; cbn -[completed ids seq].
  - split; cbn -[completed ids seq]; rewrite ?Hcompl; try done.
    + by rewrite <- app_assoc.
    + right. done.
    + intros e He. left. by apply Hlog.
  - split; cbn -[completed ids seq]; rewrite ?Hcompl; try done.
    + by rewrite <- app_assoc.
    + left. eauto.
    + intros e He. left. by apply Hlog.
Qed.

Lemma step_inv w e : queue_inv w -> queue_inv (step w e).
Proof.
  intros Hinv. destruct e as [m | id text | id prompt | id result]; cbn.
  - destruct m; try done. by apply receive_run_inv.
  - destruct (is_executing id w) eqn:E; [|done]. by apply post_inv.
  - destruct (is_executing id w) eqn:E; [|done]. by apply post_inv.
  - destruct (is_executing id w) eqn:E; [|done]. by apply completes_inv.
Qed.

Lemma steps_inv evs : forall w, queue_inv w -> queue_inv (steps w evs).
Proof.
  induction evs as [|e evs IH]; intros w Hinv; [done|].
  cbn. apply IH. by apply step_inv.
Qed.

Lemma sorted_lookup {A} (R : A -> A -> Prop) (l : list A) i j x y :
  StronglySorted R l -> l !! i = Some x -> l !! j = Some y -> (i < j)%nat -> R x y.
Proof.
  intros Hs Hi Hj Hlt.
  rewrite <- (take_drop j l) in Hs.
  eapply StronglySorted_app_1_elem_of; [done| |].
  - apply list_elem_of_lookup. exists i. by rewrite lookup_take_lt.
  - apply list_elem_of_lookup. exists 0%nat. by rewrite lookup_drop, Nat.add_0_r.
Qed.

Lemma reachable_inv evs : queue_inv (steps idle evs).
Proof. apply steps_inv, idle_inv. Qed.

End Queue.

Section QueueClaims.

Import Bridge BridgeSpec BridgeSamples.

(** C3. Whatever messages arrive and whatever the runs post, in any
    order: at most one call of [run] is executing at any time; a [run]
    message that arrives while a run is active only appends its request to
    the queue, and one that arrives while none is active starts at once; the
    requests complete, execute and wait in the order of their arrival, and
    no request waits while no run is active; every [output] of a request
    comes before the [complete] of that request, and the [complete] of a
    request comes before every [output] of a later request. *)
Theorem C3_run_queue_exclusive :
  (forall evs, (length (executing (steps idle evs)) <= 1)%nat)
  /\ (forall w a,
        runningCommand w = true ->
        step w (Receive (run_msg a))
        = {| runningCommand := true;
             commandQueue := commandQueue w ++ [{| req_id := received w; req_args := a |}];
             executing := executing w;
             received := S (received w);
             log := log w |})
  /\ (forall evs a,
        runningCommand (steps idle evs) = false ->
        executing (step (steps idle evs) (Receive (run_msg a)))
        = [{| req_id := received (steps idle evs); req_args := a |}])
  /\ (forall evs,
        completed (log (steps idle evs)) ++ ids (executing (steps idle evs))
          ++ ids (commandQueue (steps idle evs))
        = seq 0 (received (steps idle evs)))
  /\ (forall evs,
        executing (steps idle evs) = [] -> commandQueue (steps idle evs) = [])
  /\ (forall evs i j n text c,
        log (steps idle evs) !! i = Some (n, output text) ->
        log (steps idle evs) !! j = Some (n, c) ->
        is_complete c = true ->
        (i < j)%nat)
  /\ (forall evs i j n m c text,
        log (steps idle evs) !! i = Some (n, c) ->
        is_complete c = true ->
        log (steps idle evs) !! j = Some (m, output text) ->
        (n < m)%nat ->
        (i < j)%nat).
Proof.
  repeat apply conj.
  - intros evs. destruct (reachable_inv evs) as [_ Hr _ _].
    destruct Hr as [[_ [r ->]] | [_ [-> _]]]; cbn; lia.
  - intros w a Hrun. destruct w as [run q ex n lg]. cbn in Hrun. subst run.
    reflexivity.
  - intros evs a Hrun. destruct (reachable_inv evs) as [_ Hr _ _].
    destruct Hr as [[Hr _] | [_ [Hex Hq]]]; [congruence|].
    destruct (steps idle evs) as [run q ex n lg]. cbn in *. by subst.
  - intros evs. apply reachable_inv.
  - intros evs Hex. destruct (reachable_inv evs) as [_ Hr _ _].
    destruct Hr as [[_ [r Hr]] | [_ [_ Hq]]]; [congruence | done].
  - intros evs i j n text c Hi Hj Hc.
    destruct (reachable_inv evs) as [_ _ _ Hs].
    destruct (Nat.lt_trichotomy i j) as [Hlt | [-> | Hgt]]; [done | |].
    + rewrite Hi in Hj. by simplify_eq.
    + destruct (sorted_lookup _ _ _ _ _ _ Hs Hj Hi Hgt) as [H | [_ H]]; cbn in H;
        [lia | congruence].
  - intros evs i j n m c text Hi Hc Hj Hnm.
    destruct (reachable_inv evs) as [_ _ _ Hs].
    destruct (Nat.lt_trichotomy i j) as [Hlt | [-> | Hgt]]; [done | |].
    + rewrite Hi in Hj; simplify_eq; lia.
    + destruct (sorted_lookup _ _ _ _ _ _ Hs Hj Hi Hgt) as [H | [H _]]; cbn in H; lia.
Qed.

Lemma C3_run_queue_exclusive_witness :
  log (steps idle back_to_back)
  = [ (0%nat, output (lit "one")); (0%nat, complete_ok (PyInt 0));
      (1%nat, output (lit "two")) ]
  /\ (0 < 1)%nat /\ (1 < 2)%nat.
Proof.
  destruct C3_run_queue_exclusive as (_ & _ & _ & _ & _ & H1 & H2).
  split; [reflexivity|]. split.
  - apply (H1 back_to_back 0%nat 1%nat 0%nat (lit "one") (complete_ok (PyInt 0)));
      reflexivity.
  - apply (H2 back_to_back 1%nat 2%nat 0%nat 1%nat (complete_ok (PyInt 0)) (lit "two"));
      [reflexivity | reflexivity | reflexivity | lia].
Defined.

End QueueClaims.

(* ===================================================================== *)
(** * Further properties *)
(* ===================================================================== *)

(** ** Argument strings *)

Section ArgumentStrings.

Import Controller Spec ControllerMore.

Lemma plain_not_quote c : plain_char c -> ~ is_quote c.
Proof. intros (_ & _ & Hd & Hs) [H | H]; congruence. Qed.

(** A run of ordinary characters goes to the token being collected. *)
Lemma scan_plain_word w : forall a buf,
  Forall plain_char w ->
  fold_left scan_char w (scanner a buf None) = scanner a (buf ++ w) None.
Proof.
  induction w as [|c w IH]; intros a buf H.
  - by rewrite app_nil_r.
  - apply Forall_cons in H as [Hc H]. cbn [fold_left].
    rewrite scan_char_plain.
    + rewrite IH by done. by rewrite <- app_assoc.
    + apply Hc.
    + by apply plain_not_quote.
    + intros ->. by destruct Hc as [Hc _].
Qed.

Lemma scan_space_pushes a w :
  w <> [] -> scan_char (scanner a w None) SPACE = scanner (a ++ [w]) [] None.
Proof. intros H. destruct w; [done | reflexivity]. Qed.

Lemma scan_join ws : forall a,
  Forall (fun w => w <> [] /\ Forall plain_char w) ws ->
  scan_from (scanner a [] None) (join ws) = a ++ ws.
Proof.
  induction ws as [|w ws IH]; intros a H.
  - cbn. by rewrite app_nil_r.
  - apply Forall_cons in H as [[Hne Hw] H].
    destruct ws as [|w' ws].
    + cbn [join]. unfold scan_from. rewrite scan_plain_word by done.
      cbn. unfold scan_end. cbn. by destruct w.
    + change (join (w :: w' :: ws)) with (w ++ SPACE :: join (w' :: ws)).
      unfold scan_from. rewrite fold_left_app, scan_plain_word by done.
      cbn [fold_left app]. rewrite scan_space_pushes by done.
      fold (scan_from (scanner (a ++ [w]) [] None) (join (w' :: ws))).
      rewrite IH by done. by rewrite <- app_assoc.
Qed.



(** A quoted stretch goes to the token being collected and leaves no quote
    open. *)
Lemma scan_quoted q w a buf :
  is_quote q -> Forall (fun x => x <> q /\ x <> BACKSLASH) w ->
  fold_left scan_char ([q] ++ w ++ [q]) (scanner a buf None) = scanner a (buf ++ w) None.
Proof.
  intros Hq Hw. cbn [app fold_left].
  assert (scan_char (scanner a buf None) q = scanner a buf (Some q)) as ->.
  { unfold scan_char, scanner; cbn.
    by rewrite (quote_not_backslash q Hq), (proj2 (quote_cases q) Hq). }
  rewrite fold_left_app. cbn [fold_left].
  assert (forall w b, Forall (fun x => x <> q /\ x <> BACKSLASH) w ->
            fold_left scan_char w (scanner a b (Some q)) = scanner a (b ++ w) (Some q)) as Hin.
  { clear. induction w as [|c w IH]; intros b H.
    - by rewrite app_nil_r.
    - apply Forall_cons in H as [[Hc Hb] H]. cbn [fold_left].
      assert (scan_char (scanner a b (Some q)) c = scanner a (b ++ [c]) (Some q)) as ->.
      { unfold scan_char, scanner; cbn.
        apply N.eqb_neq in Hb. rewrite Hb.
        destruct ((c =? DQUOTE) || (c =? SQUOTE)).
        - destruct (N.eqb_spec q c); [congruence | done].
        - by rewrite andb_false_r. }
      rewrite IH by done. by rewrite <- app_assoc. }
  rewrite Hin by done.
  unfold scan_char, scanner; cbn.
  by rewrite (quote_not_backslash q Hq), (proj2 (quote_cases q) Hq), N.eqb_refl.
Qed.

(** X1. Words made of ordinary characters (no space, backslash or quote),
    none of them empty and written with one space between them, are split
    into exactly these words. *)
Theorem splitArgs_join ws :
  Forall (fun w => w <> [] /\ Forall plain_char w) ws ->
  splitArgs (join ws) = ws.
Proof. intros H. apply (scan_join ws [] H). Qed.

Lemma splitArgs_join_witness :
  splitArgs (join [lit "-t"; lit "movie"; lit "2020"]) = [lit "-t"; lit "movie"; lit "2020"].
Proof.
  apply (splitArgs_join [lit "-t"; lit "movie"; lit "2020"]).
  repeat (constructor || discriminate).
Defined.


(** X3. Quotes group, they do not delimit: a quoted stretch between two
    runs of ordinary characters is one token with them, without the quotes;
    inside the quotes spaces and the other kind of quote are kept. When all
    three parts are empty, as for a pair of quotes alone, no token comes
    out. *)
Theorem splitArgs_quoted u q w v :
  Forall plain_char u -> Forall plain_char v ->
  is_quote q -> Forall (fun x => x <> q /\ x <> BACKSLASH) w ->
  splitArgs (u ++ [q] ++ w ++ [q] ++ v) = emit (u ++ w ++ v).
Proof.
  intros Hu Hv Hq Hw. unfold splitArgs, scan_from.
  change scanner_start with (scanner [] [] None).
  rewrite fold_left_app, scan_plain_word by done.
  rewrite (app_assoc [q] w), (app_assoc ([q] ++ w)), <- (app_assoc [q] w [q]).
  rewrite fold_left_app, scan_quoted by done.
  rewrite scan_plain_word by done.
  unfold scan_end, emit; cbn. rewrite <- app_assoc.
  by destruct (truthy (u ++ w ++ v)).
Qed.

Lemma splitArgs_quoted_witness :
  splitArgs (lit "--title=" ++ [DQUOTE] ++ lit "the 'big' one" ++ [DQUOTE] ++ lit "!")
  = emit (lit "--title=" ++ lit "the 'big' one" ++ lit "!")
  /\ splitArgs ([] ++ [SQUOTE] ++ [] ++ [SQUOTE] ++ []) = emit ([] ++ [] ++ []).
Proof.
  split.
  - apply (splitArgs_quoted (lit "--title=") DQUOTE (lit "the 'big' one") (lit "!"));
      [ repeat (constructor || discriminate) | repeat (constructor || discriminate)
      | by left | repeat (constructor || discriminate) ].
  - apply (splitArgs_quoted [] SQUOTE [] []);
      [ constructor | constructor | by right | constructor ].
Defined.

End ArgumentStrings.

(** ** The three commands *)

Section Commands.

Import Controller Spec ControllerMore.

Lemma args_raw_of_prefix key rest :
  trim (replace_first_empty (key ++ rest) key) = trim rest.
Proof.
  rewrite replace_first_empty_prefix by apply startsWith_app.
  by rewrite drop_app_length.
Qed.

Lemma find_clear rest :
  find_command TERMINAL_COMMANDS (lit "clear" ++ rest)
  = Some (lit "clear",
          {| description := lit "Clear the terminal output"; action := clearTerminal_action |},
          trim rest).
Proof.
  unfold TERMINAL_COMMANDS. cbn [find_command].
  change (startsWith (lit "clear" ++ rest) (lit "help")) with false. cbn iota.
  by rewrite startsWith_app, args_raw_of_prefix.
Qed.

Lemma find_search rest :
  find_command TERMINAL_COMMANDS (lit "python just_watch_search.py" ++ rest)
  = Some (lit "python just_watch_search.py",
          {| description := lit "Run the JustWatch search script";
             action := runJustWatchSearch_action |},
          trim rest).
Proof.
  unfold TERMINAL_COMMANDS. cbn [find_command].
  change (startsWith (lit "python just_watch_search.py" ++ rest) (lit "help")) with false.
  change (startsWith (lit "python just_watch_search.py" ++ rest) (lit "clear")) with false.
  cbn iota.
  by rewrite startsWith_app, args_raw_of_prefix.
Qed.

(** X4. [runHelp] appends the heading, then one line per registered
    command with its description, in the order of the registry, then an
    empty line; it changes nothing but the output. *)
Theorem runHelp_lists_registry (reg : Registry) (st : State) :
  runHelp reg st
  = set_output
      (terminalOutput st
         ++ [{| textContent := lit "Available commands:"; lineType := plain |}]
         ++ map (fun e => {| textContent := lit "- " ++ fst e ++ lit ": " ++ description (snd e);
                             lineType := plain |}) reg
         ++ [{| textContent := []; lineType := plain |}]) st.
Proof.
  unfold runHelp. rewrite fold_appendOutput.
  unfold appendOutput, set_output, help_line; cbn.
  by rewrite <- !app_assoc.
Qed.

(** X5. A line that starts with [clear], whatever follows, leaves the
    output empty: the echo of the command is removed with everything else.
    The line is recorded in the history, nothing is sent to the worker, and
    the input line is empty and enabled afterwards. *)
Theorem clear_command_empties_output (rest : jsstring) (st : State) :
  runTerminalCommand TERMINAL_COMMANDS (lit "clear" ++ rest) st
  = set_input {| value := []; disabled := false; selection := selection (commandInput st) |}
      (set_output []
         (set_history (commandHistory st ++ [lit "clear" ++ rest])
            (Z.of_nat (length (commandHistory st ++ [lit "clear" ++ rest]))) st)).
Proof. unfold runTerminalCommand. by rewrite find_clear. Qed.

(** X6. A line that starts with the execution command sends the worker one
    [run] message with the tokens of the rest of the line when the worker
    exists and has reported that the script is loaded, and sets the status
    to loading. Otherwise it sends nothing, leaves the status alone and
    prints the echo of the command and the "not ready" error line. *)
Theorem search_command_needs_ready (rest : jsstring) (st : State) :
  let command := lit "python just_watch_search.py" ++ rest in
  let st' := runTerminalCommand TERMINAL_COMMANDS command st in
  (worker st = true -> workerReady st = true ->
     posted st' = posted st ++ [run_msg (splitArgs (trim rest))]
     /\ statusIndicator st' = lit "loading"
     /\ terminalOutput st'
        = terminalOutput st ++ [{| textContent := lit "$ " ++ command; lineType := info |}])
  /\ (worker st = false \/ workerReady st = false ->
        posted st' = posted st
        /\ statusIndicator st' = statusIndicator st
        /\ statusText st' = statusText st
        /\ terminalOutput st'
           = terminalOutput st
               ++ [ {| textContent := lit "$ " ++ command; lineType := info |};
                    {| textContent := lit "Python environment not ready yet. Please wait...";
                       lineType := error |} ]).
Proof.
  cbn zeta. unfold runTerminalCommand. rewrite find_search.
  unfold invoke, action, runJustWatchSearch, dispatch_end, dispatch_begin.
  split.
  - intros Hw Hr. cbn. rewrite Hw, Hr. by cbn.
  - intros H. cbn.
    assert (negb (worker st) || negb (workerReady st) = true) as ->.
    { destruct H as [-> | ->]; [done | by rewrite orb_true_r]. }
    cbn. by rewrite <- app_assoc.
Qed.

End Commands.

(** ** What the page sends to the worker *)

Section PageTraces.

Import Controller Spec ControllerMore.

Variable reg : Registry.
Variable fetched : jsstring + jsstring.

Lemma invoke_frame a args st :
  worker (invoke reg a args st) = worker st
  /\ workerReady (invoke reg a args st) = workerReady st
  /\ (posted (invoke reg a args st) = posted st
      \/ (worker st = true /\ workerReady st = true
          /\ posted (invoke reg a args st) = posted st ++ [run_msg args])).
Proof.
  destruct a; cbn.
  - unfold runHelp. rewrite fold_appendOutput. cbn. tauto.
  - tauto.
  - unfold runJustWatchSearch.
    destruct (worker st) eqn:Hw, (workerReady st) eqn:Hr; cbn; rewrite ?Hw, ?Hr; tauto.
Qed.

Lemma keydown_frame k st :
  worker (keydown reg k st) = worker st
  /\ workerReady (keydown reg k st) = workerReady st
  /\ (posted (keydown reg k st) = posted st
      \/ (worker st = true /\ workerReady st = true
          /\ exists args, posted (keydown reg k st) = posted st ++ [run_msg args])).
Proof.
  destruct k; cbn.
  - unfold on_enter. destruct (truthy (trim (value (commandInput st)))); [|tauto].
    unfold runTerminalCommand.
    destruct (find_command reg (trim (value (commandInput st)))) as [[[key spec] raw]|];
      [|cbn; tauto].
    destruct (invoke_frame (action spec) (splitArgs raw)
                (dispatch_begin (trim (value (commandInput st))) st))
      as (H1 & H2 & H3).
    cbn in *. rewrite H1, H2. split; [done|]. split; [done|].
    destruct H3 as [-> | (Hw & Hr & ->)]; [by left | right]. eauto.
  - unfold on_arrow. repeat case_match; cbn; tauto.
  - unfold on_arrow. repeat case_match; cbn; tauto.
  - unfold on_tab. repeat case_match; rewrite ?fold_appendOutput; cbn; tauto.
  - tauto.
Qed.

Lemma justified_mono evs e m : justified fetched evs m -> justified fetched (evs ++ [e]) m.
Proof.
  destruct m; cbn; rewrite ?elem_of_app; tauto.
Qed.

Lemma page_inv_step evs st e :
  page_inv fetched evs st -> page_inv fetched (evs ++ [e]) (handle reg fetched st e).
Proof.
  intros (Hw & Hr & Hp).
  assert (Forall (justified fetched (evs ++ [e])) (posted st)) as Hp'.
  { eapply Forall_impl; [done|]. intros m. apply justified_mono. }
  assert (forall x, x ∈ evs -> x ∈ evs ++ [e]) as Hin.
  { intros x Hx. apply elem_of_app. by left. }
  assert (e ∈ evs ++ [e]) as He.
  { apply elem_of_app. right. by left. }
  destruct e as [|line|k|m|msg]; cbn.
  - unfold initPyodide, page_inv; cbn. split; [done|]. split; [auto|].
    apply Forall_app. split; [done|]. by repeat constructor.
  - destruct (disabled (commandInput st)); unfold page_inv; cbn; auto.
  - destruct (disabled (commandInput st)); [unfold page_inv; auto|].
    destruct (keydown_frame k st) as (H1 & H2 & H3).
    unfold page_inv. rewrite H1, H2. split; [auto|]. split; [auto|].
    destruct H3 as [-> | (Hw1 & Hr1 & args & ->)]; [done|].
    apply Forall_app. split; [done|]. repeat constructor; cbn; auto.
  - destruct m as [s1 s2| | |msg|text|prompt r|code|err]; unfold page_inv; cbn; auto.
    + destruct fetched as [code|err] eqn:Ef; cbn; auto.
      split; [auto|]. split; [auto|].
      apply Forall_app. split; [done|]. repeat constructor; cbn; auto.
    + destruct (truthy err && negb (includes err (lit "SystemExit"))); cbn; auto.
  - unfold page_inv; cbn; auto.
Qed.

Lemma page_inv_reachable evs : page_inv fetched evs (handle_all reg fetched evs initial).
Proof.
  induction evs as [|e evs IH] using rev_ind.
  - unfold page_inv; cbn. split; [done|]. split; [done | constructor].
  - unfold handle_all. rewrite fold_left_app. cbn. by apply page_inv_step.
Qed.

(** X7. Whatever happens on the page, in any order: a [run] message has
    been posted only after the page was loaded and the worker reported the
    script loaded; the only script text ever sent is the one that was
    fetched, and only after the worker reported it is initialized; and no
    [stdin_response] is ever posted, so an input request of a script
    remains unanswered. *)
Theorem page_posts_only_when_justified (evs : list Event) :
  (forall args, run_msg args ∈ posted (handle_all reg fetched evs initial) ->
     PageLoad ∈ evs /\ Receives scriptLoaded ∈ evs)
  /\ (forall code, loadScript_msg code ∈ posted (handle_all reg fetched evs initial) ->
        Receives initialized ∈ evs /\ fetched = inl code)
  /\ (forall response,
        stdin_response_msg response ∉ posted (handle_all reg fetched evs initial)).
Proof.
  destruct (page_inv_reachable evs) as (_ & _ & Hp).
  rewrite Forall_forall in Hp.
  split; [|split].
  - intros args H. apply (Hp _ H).
  - intros code H. apply (Hp _ H).
  - intros response H. apply (Hp _ H).
Qed.

End PageTraces.

Section PageTracesWitness.

Import Controller Spec ControllerMore Samples.

Lemma page_posts_only_when_justified_witness :
  PageLoad ∈ [PageLoad; Receives scriptLoaded;
              Types (lit "python just_watch_search.py -h"); Presses Enter]
  /\ Receives scriptLoaded ∈ [PageLoad; Receives scriptLoaded;
                               Types (lit "python just_watch_search.py -h"); Presses Enter].
Proof.
  apply (proj1 (page_posts_only_when_justified TERMINAL_COMMANDS (inl [])
                  [PageLoad; Receives scriptLoaded;
                   Types (lit "python just_watch_search.py -h"); Presses Enter])
           [lit "-h"]).
  vm_compute. right. left.
Defined.

Lemma search_command_needs_ready_witness :
  posted (runTerminalCommand TERMINAL_COMMANDS
            (lit "python just_watch_search.py" ++ lit " -t movie") ready)
  = posted ready ++ [run_msg (splitArgs (trim (lit " -t movie")))]
  /\ statusIndicator (runTerminalCommand TERMINAL_COMMANDS
                        (lit "python just_watch_search.py" ++ lit " -t movie") ready)
     = lit "loading"
  /\ terminalOutput (runTerminalCommand TERMINAL_COMMANDS
                       (lit "python just_watch_search.py" ++ lit " -t movie") ready)
     = terminalOutput ready
         ++ [{| textContent := lit "$ " ++ (lit "python just_watch_search.py" ++ lit " -t movie");
                lineType := info |}].
Proof.
  apply (proj1 (search_command_needs_ready (lit " -t movie") ready)); reflexivity.
Defined.

End PageTracesWitness.

(** ** What the worker's messages do to the page *)

Section WorkerMessages.

Import Controller Spec ControllerMore.

Variable fetched : jsstring + jsstring.

Lemma deliver_outputs texts : forall st,
  deliver fetched (map output texts) st
  = set_output
      (terminalOutput st ++ map (fun t => {| textContent := t; lineType := plain |}) texts) st.
Proof.
  induction texts as [|t texts IH]; intros st; cbn.
  - rewrite app_nil_r. by destruct st.
  - unfold deliver in IH. rewrite IH.
    unfold appendOutput, set_output; cbn. by rewrite <- app_assoc.
Qed.

(** X8. A message or an error event of the worker never removes a line of
    the output and never touches the command history, the browse cursor or
    the text of the input line; and a series of [output] messages becomes
    one plain output line each, in the order of arrival and with the text as
    it came. *)
Theorem worker_messages_only_append :
  (forall m st,
     terminalOutput st `prefix_of` terminalOutput (onmessage fetched m st)
     /\ commandHistory (onmessage fetched m st) = commandHistory st
     /\ historyIndex (onmessage fetched m st) = historyIndex st
     /\ value (commandInput (onmessage fetched m st)) = value (commandInput st))
  /\ (forall message st,
        terminalOutput st `prefix_of` terminalOutput (onerror message st)
        /\ commandHistory (onerror message st) = commandHistory st
        /\ historyIndex (onerror message st) = historyIndex st
        /\ commandInput (onerror message st) = commandInput st)
  /\ (forall texts st,
        deliver fetched (map output texts) st
        = set_output
            (terminalOutput st
               ++ map (fun t => {| textContent := t; lineType := plain |}) texts) st).
Proof.
  split; [|split].
  - intros m st.
    destruct m as [s1 s2| | |msg|text|prompt r|code|err]; cbn;
      repeat split; try done; try (by apply prefix_app_r).
    + destruct fetched; cbn; [done | by apply prefix_app_r].
    + destruct fetched; by cbn.
    + destruct fetched; by cbn.
    + destruct fetched; by cbn.
    + rewrite <- !app_assoc. by apply prefix_app_r.
    + destruct (truthy err && negb (includes err (lit "SystemExit"))); cbn.
      * rewrite <- !app_assoc. by apply prefix_app_r.
      * by apply prefix_app_r.
    + by destruct (truthy err && negb (includes err (lit "SystemExit"))).
    + by destruct (truthy err && negb (includes err (lit "SystemExit"))).
    + by destruct (truthy err && negb (includes err (lit "SystemExit"))).
  - intros message st. cbn. repeat split; try done. by apply prefix_app_r.
  - apply deliver_outputs.
Qed.

End WorkerMessages.

(** ** The end of a run, as the page shows it *)

Section CompleteHandler.

Import Controller Spec ControllerMore.

Variable fetched : jsstring + jsstring.

Lemma includes_unfold s sub :
  includes s sub
  = startsWith s sub || match s with [] => false | _ :: s' => includes s' sub end.
Proof. by destruct s. Qed.

Lemma includes_spec s sub :
  includes s sub = true <-> exists pre post, s = pre ++ sub ++ post.
Proof.
  split.
  - induction s as [|c s IH]; rewrite includes_unfold; intros H.
    + rewrite orb_false_r in H. apply startsWith_prefix in H as [post ->].
      by exists [], post.
    + apply orb_true_iff in H as [H | H].
      * apply startsWith_prefix in H as [post ->]. by exists [], post.
      * destruct (IH H) as (pre & post & ->). by exists (c :: pre), post.
  - intros (pre & post & ->). induction pre as [|c pre IH].
    + rewrite includes_unfold. cbn [app]. by rewrite startsWith_app.
    + rewrite includes_unfold. cbn [app]. by rewrite IH, orb_true_r.
Qed.

(** X9. When the worker reports a failed run the page enables the input
    field and sets the status to ready. It shows the error as a line
    "Error: ..." followed by an empty line, unless the error text is empty
    or contains [SystemExit]: then only the empty line is added, and the
    failure is not shown. *)
Theorem failed_run_report (err : jsstring) (st : State) :
  disabled (commandInput (onmessage fetched (complete_failed err) st)) = false
  /\ statusIndicator (onmessage fetched (complete_failed err) st) = lit "ready"
  /\ (err = [] \/ (exists pre post, err = pre ++ lit "SystemExit" ++ post) ->
        terminalOutput (onmessage fetched (complete_failed err) st)
        = terminalOutput st ++ [{| textContent := []; lineType := plain |}])
  /\ (err <> [] -> (forall pre post, err <> pre ++ lit "SystemExit" ++ post) ->
        terminalOutput (onmessage fetched (complete_failed err) st)
        = terminalOutput st
            ++ [ {| textContent := lit "Error: " ++ err; lineType := error |};
                 {| textContent := []; lineType := plain |} ]).
Proof.
  cbn [onmessage].
  split; [by destruct (truthy err && negb (includes err (lit "SystemExit")))|].
  split; [by destruct (truthy err && negb (includes err (lit "SystemExit")))|].
  split.
  - intros H.
    assert (truthy err && negb (includes err (lit "SystemExit")) = false) as ->; [|done].
    destruct H as [-> | H]; [done|].
    apply includes_spec in H. rewrite H. by rewrite andb_false_r.
  - intros Hne Hno.
    assert (truthy err && negb (includes err (lit "SystemExit")) = true) as ->.
    { apply andb_true_iff. split; [by apply truthy_true|].
      apply negb_true_iff. destruct (includes err (lit "SystemExit")) eqn:E; [|done].
      apply includes_spec in E as (pre & post & E). by destruct (Hno pre post). }
    cbn. by rewrite <- app_assoc.
Qed.

End CompleteHandler.

Section CompleteHandlerWitness.

Import Controller Spec ControllerMore.

Lemma failed_run_report_witness :
  terminalOutput
    (onmessage (inl [])
       (complete_failed (lit "Traceback: " ++ lit "SystemExit" ++ lit ": 2")) initial)
  = terminalOutput initial ++ [{| textContent := []; lineType := plain |}].
Proof.
  apply (proj1 (proj2 (proj2
           (failed_run_report (inl [])
              (lit "Traceback: " ++ lit "SystemExit" ++ lit ": 2") initial)))).
  right. exists (lit "Traceback: "), (lit ": 2"). reflexivity.
Defined.

End CompleteHandlerWitness.

(** ** The command history *)

Section HistoryEntries.

Import Controller Spec ControllerMore.

Variable reg : Registry.

Lemma trimStart_head s :
  trimStart s = [] \/ exists c r, trimStart s = c :: r /\ is_js_whitespace c = false.
Proof.
  induction s as [|c s IH]; [by left|].
  cbn [trimStart]. destruct (is_js_whitespace c) eqn:E; [done|].
  right. by exists c, s.
Qed.

Lemma trimStart_fixed c r : is_js_whitespace c = false -> trimStart (c :: r) = c :: r.
Proof. intros H. cbn. by rewrite H. Qed.

Lemma trimStart_snoc l c :
  is_js_whitespace c = false -> exists l', trimStart (l ++ [c]) = l' ++ [c].
Proof.
  intros Hc. induction l as [|x l IH].
  - exists []. cbn. by rewrite Hc.
  - cbn [app trimStart]. destruct (is_js_whitespace x); [done|].
    by exists (x :: l).
Qed.

Lemma trimEnd_head c r :
  is_js_whitespace c = false -> exists r', trimEnd (c :: r) = c :: r'.
Proof.
  intros Hc. unfold trimEnd. cbn [rev].
  destruct (trimStart_snoc (rev r) c Hc) as [l' ->].
  exists (rev l'). by rewrite rev_unit.
Qed.

Lemma trimEnd_idempotent s : trimEnd (trimEnd s) = trimEnd s.
Proof.
  unfold trimEnd. rewrite rev_involutive.
  destruct (trimStart_head (rev s)) as [-> | (c & r & -> & Hc)]; [done|].
  by rewrite trimStart_fixed.
Qed.

(** [trim] leaves nothing to trim. *)
Lemma trim_idempotent s : trim (trim s) = trim s.
Proof.
  unfold trim.
  destruct (trimStart_head s) as [-> | (c & r & -> & Hc)]; [done|].
  destruct (trimEnd_head c r Hc) as [r' E]. rewrite E.
  rewrite trimStart_fixed by done. rewrite <- E. apply trimEnd_idempotent.
Qed.

Lemma submit_well_kept line st :
  Forall well_kept (commandHistory st) ->
  Forall well_kept (commandHistory (submit reg line st)).
Proof.
  intros H. pose proof (submit_history reg line st) as Hs.
  destruct (dispatches reg line) eqn:E; destruct Hs as [-> _]; [|done].
  apply Forall_app. split; [done|]. constructor; [|done].
  unfold dispatches in E. apply andb_true_iff in E as [E _].
  split; [by apply truthy_true | apply trim_idempotent].
Qed.

Variable fetched : jsstring + jsstring.

Ltac zarith :=
  repeat match goal with
  | H : _ || _ = true |- _ => apply orb_true_iff in H; destruct H
  | H : _ || _ = false |- _ => apply orb_false_iff in H; destruct H
  | H : (_ <? _)%Z = true |- _ => apply Z.ltb_lt in H
  | H : (_ <? _)%Z = false |- _ => apply Z.ltb_ge in H
  | H : (_ =? _)%Z = true |- _ => apply Z.eqb_eq in H
  | H : (_ =? _)%Z = false |- _ => apply Z.eqb_neq in H
  end; simpl in *; try lia.

Lemma set_value_same st : set_value (value (commandInput st)) st = st.
Proof. destruct st as [w pc wr h hi [v d sel] o si stx p]. reflexivity. Qed.

Lemma keydown_enter_submit st :
  keydown reg Enter st = submit reg (value (commandInput st)) st.
Proof. unfold submit. by rewrite set_value_same. Qed.

Lemma keydown_history_other k st :
  k <> Enter -> commandHistory (keydown reg k st) = commandHistory st.
Proof.
  destruct k; try done; intros _; cbn.
  - apply on_arrow_history.
  - apply on_arrow_history.
  - unfold on_tab. repeat case_match; rewrite ?fold_appendOutput; done.
Qed.

Lemma handle_well_kept st e :
  Forall well_kept (commandHistory st) ->
  Forall well_kept (commandHistory (handle reg fetched st e)).
Proof.
  intros H. destruct e as [|line|k|m|msg]; cbn; try done.
  - by destruct (disabled (commandInput st)).
  - destruct (disabled (commandInput st)); [done|].
    destruct k; try (by rewrite keydown_history_other by discriminate).
    rewrite keydown_enter_submit. by apply submit_well_kept.
  - destruct m as [s1 s2| | |msg|text|prompt r|code|err]; cbn; try done.
    + by destruct fetched.
    + by destruct (truthy err && negb (includes err (lit "SystemExit"))).
Qed.

(** X10. Whatever happens on the page, every entry of the command history
    is a non-empty string without whitespace at its start or end: the
    trimmed text of a line that dispatched. *)
Theorem history_entries_are_trimmed (evs : list Event) :
  Forall well_kept (commandHistory (handle_all reg fetched evs initial)).
Proof.
  induction evs as [|e evs IH] using rev_ind; [constructor|].
  unfold handle_all. rewrite fold_left_app. cbn. by apply handle_well_kept.
Qed.

Lemma cursor_in_range st :
  (0 <= historyIndex st <= Z.of_nat (length (commandHistory st)))%Z ->
  cursor st = historyIndex st.
Proof. intros H. unfold cursor. case_match; zarith. Qed.

Lemma on_arrow_up_value st :
  commandHistory st <> [] ->
  value (commandInput (on_arrow true st))
  = history_entry (commandHistory st) (historyIndex (on_arrow true st)).
Proof.
  intros Hne. unfold on_arrow.
  destruct (commandHistory st) as [|h hs] eqn:Eh; [done|].
  repeat (case_match; simpl in *; rewrite ?Eh in *; simpl in *); zarith; done.
Qed.

Lemma on_arrow_down_index st :
  commandHistory st <> [] ->
  historyIndex (on_arrow false st)
  = if (cursor st <? Z.of_nat (length (commandHistory st)) - 1)%Z
    then (cursor st + 1)%Z else Z.of_nat (length (commandHistory st)).
Proof.
  intros Hne. unfold on_arrow, cursor.
  destruct (commandHistory st) as [|h hs] eqn:Eh; [done|].
  repeat (case_match; simpl in *; rewrite ?Eh in *; simpl in *); zarith; done.
Qed.

Lemma iter_up_history k st :
  commandHistory (Nat.iter k (on_arrow true) st) = commandHistory st.
Proof. induction k as [|k IH]; [done|]. cbn. by rewrite on_arrow_history. Qed.

(** X11. Recalling commands. After a line has dispatched, one press of Up
    puts its trimmed text back into the input line. In general, from the
    fresh cursor, the k-th press of Up shows the k-th most recent entry of
    the history, for k up to the length of the history. *)
Theorem up_recalls_entries :
  (forall line st,
     dispatches reg line = true ->
     value (commandInput (keydown reg ArrowUp (submit reg line st))) = trim line)
  /\ (forall st k (h : jsstring),
        historyIndex st = Z.of_nat (length (commandHistory st)) ->
        (1 <= k <= length (commandHistory st))%nat ->
        commandHistory st !! (length (commandHistory st) - k)%nat = Some h ->
        h <> [] ->
        value (commandInput (Nat.iter k (keydown reg ArrowUp) st)) = h).
Proof.
  assert (forall st k (h : jsstring),
    historyIndex st = Z.of_nat (length (commandHistory st)) ->
    (1 <= k <= length (commandHistory st))%nat ->
    commandHistory st !! (length (commandHistory st) - k)%nat = Some h ->
    h <> [] ->
    value (commandInput (Nat.iter k (keydown reg ArrowUp) st)) = h) as Hk.
  { intros st k h Hfresh Hk Hl Hne.
    destruct k as [|k]; [lia|].
    assert (commandHistory st <> []) as Hh.
    { intros E. rewrite E in Hk. cbn in Hk. lia. }
    change (Nat.iter (S k) (keydown reg ArrowUp) st)
      with (on_arrow true (Nat.iter k (on_arrow true) st)).
    rewrite on_arrow_up_value by by rewrite iter_up_history.
    rewrite iter_up_history.
    change (on_arrow true (Nat.iter k (on_arrow true) st))
      with (Nat.iter (S k) (on_arrow true) st).
    rewrite on_arrow_up_iter by done.
    rewrite cursor_in_range by lia. rewrite Hfresh.
    unfold history_entry.
    replace (Z.to_nat (0 `max` (Z.of_nat (length (commandHistory st)) - Z.of_nat (S k))))
      with (length (commandHistory st) - S k)%nat by lia.
    rewrite Hl. by destruct h. }
  split; [|exact Hk].
  intros line st Hd.
  pose proof (submit_history reg line st) as Hs. rewrite Hd in Hs.
  destruct Hs as [Hh Hi].
  apply (Hk (submit reg line st) 1%nat (trim line)).
  - rewrite Hi, Hh, length_app. cbn. lia.
  - rewrite Hh, length_app. cbn. lia.
  - rewrite Hh, length_app. cbn.
    replace (length (commandHistory st) + 1 - 1)%nat
      with (length (commandHistory st) + 0)%nat by lia.
    by rewrite lookup_app_r, Nat.add_comm, Nat.add_sub by lia.
  - unfold dispatches in Hd. apply andb_true_iff in Hd as [Hd _].
    by apply truthy_true.
Qed.

(** X12. Up and Down undo each other on the browse cursor: Down after Up
    gives the cursor back unless it stood at the oldest entry, and Up after
    Down gives it back unless it stood at the newest entry or was fresh. *)
Theorem up_down_inverse (st : State) :
  commandHistory st <> [] ->
  ((0 < cursor st)%Z ->
     historyIndex (keydown reg ArrowDown (keydown reg ArrowUp st)) = cursor st)
  /\ ((cursor st < Z.of_nat (length (commandHistory st)) - 1)%Z ->
        historyIndex (keydown reg ArrowUp (keydown reg ArrowDown st)) = cursor st).
Proof.
  intros Hne. pose proof (cursor_range st) as Hr. cbn [keydown]. split; intros Hc.
  - rewrite on_arrow_down_index by by rewrite on_arrow_history.
    rewrite on_arrow_history.
    rewrite (cursor_in_range (on_arrow true st));
      rewrite ?on_arrow_history, on_arrow_up_index by done; [|lia].
    case_match; zarith.
  - rewrite on_arrow_up_index by by rewrite on_arrow_history.
    rewrite (cursor_in_range (on_arrow false st));
      rewrite ?on_arrow_history, on_arrow_down_index by done.
    + case_match; zarith.
    + case_match; zarith.
Qed.

End HistoryEntries.

Section HistoryWitnesses.

Import Controller Spec ControllerMore Samples.

Lemma up_recalls_entries_witness :
  value (commandInput (keydown TERMINAL_COMMANDS ArrowUp
                         (submit TERMINAL_COMMANDS (lit "  help me ") initial)))
  = trim (lit "  help me ").
Proof.
  apply (proj1 (up_recalls_entries TERMINAL_COMMANDS) (lit "  help me ") initial).
  reflexivity.
Defined.

Lemma up_down_inverse_witness :
  historyIndex (keydown TERMINAL_COMMANDS ArrowDown
                  (keydown TERMINAL_COMMANDS ArrowUp two_commands))
  = cursor two_commands.
Proof.
  apply (proj1 (up_down_inverse TERMINAL_COMMANDS two_commands
                  ltac:(intros E; vm_compute in E; discriminate E))).
  vm_compute. reflexivity.
Defined.

End HistoryWitnesses.

(** ** Arguments, from the input line to the worker *)

Section EscapedArguments.

Import Controller Spec ControllerMore.








End EscapedArguments.

(** ** Completion on a blank line *)

Section BlankCompletion.

Import Controller Spec ControllerMore.

Variable reg : Registry.

Lemma matchingCommands_blank : matchingCommands reg [] = map fst reg.
Proof.
  unfold matchingCommands. induction (map fst reg) as [|key keys IH]; [done|].
  cbn [List.filter]. rewrite IH. by destruct key.
Qed.

(** X13. Tab on an input line that is empty or holds whitespace only
    offers every command: with two or more registered commands it prints
    the heading and all keys in registry order and leaves the line alone;
    with exactly one it puts that key into the line. *)
Theorem tab_on_blank_line (st : State) :
  forallb is_js_whitespace (value (commandInput st)) = true ->
  ((2 <= length reg)%nat ->
     keydown reg Tab st
     = set_output
         (terminalOutput st
            ++ {| textContent := lit "Possible completions:"; lineType := plain |}
            :: map completion_line (map fst reg)) st)
  /\ (forall key spec, reg = [(key, spec)] ->
        keydown reg Tab st = setSelectionRange (length key) (length key) (set_value key st)).
Proof.
  intros Hb. cbn [keydown]. unfold on_tab.
  rewrite (trim_all_ws _ Hb), matchingCommands_blank. split.
  - intros Hlen. destruct reg as [|e1 [|e2 r]]; cbn in Hlen; try lia.
    cbn [map]. rewrite fold_appendOutput.
    unfold appendOutput, set_output; cbn. by rewrite <- app_assoc.
  - by intros key spec ->.
Qed.

End BlankCompletion.

Section BlankCompletionWitness.

Import Controller Spec ControllerMore.

Lemma tab_on_blank_line_witness :
  keydown TERMINAL_COMMANDS Tab (set_value (lit "  ") initial)
  = set_output
      (terminalOutput (set_value (lit "  ") initial)
         ++ {| textContent := lit "Possible completions:"; lineType := plain |}
         :: map completion_line (map fst TERMINAL_COMMANDS))
      (set_value (lit "  ") initial).
Proof.
  apply (proj1 (tab_on_blank_line TERMINAL_COMMANDS (set_value (lit "  ") initial) eq_refl)).
  cbn. lia.
Defined.

End BlankCompletionWitness.

(** ** Start-up *)

Section Handshake.

Import Controller Spec ControllerMore.

(** X14. Start-up, end to end. Loading the page posts [init]. The
    messages the worker posts while it initializes make the page show the
    status ready and, when the script text could be fetched, post it to the
    worker; the page is not ready for the execution command yet. It becomes
    ready when the worker reports the script loaded. When loading fails on
    the worker, the page shows the error and stays not ready, and the
    worker is as before; when fetching fails, nothing is posted and the
    page shows that error. *)
Theorem boot_handshake (code message : jsstring) :
  let page0 := initPyodide initial in
  let worker1 := (Bridge.initializePyodide Bridge.uninitialized).1 in
  let page1 := deliver (inl code) (Bridge.initializePyodide Bridge.uninitialized).2 page0 in
  posted page0 = [init_msg]
  /\ posted page1 = [init_msg; loadScript_msg code]
  /\ statusIndicator page1 = lit "ready"
  /\ workerReady page1 = false
  /\ (let page2 := deliver (inl code) (Bridge.loadScript None worker1).2 page1 in
      workerReady page2 = true
      /\ posted page2 = posted page1
      /\ terminalOutput page2
         = [ {| textContent := lit "Python environment loaded successfully!";
                lineType := success |};
             {| textContent :=
                  lit "Type " ++ [DQUOTE] ++ lit "help" ++ [DQUOTE]
                    ++ lit " to see available commands.";
                lineType := info |};
             {| textContent := []; lineType := plain |} ]
      /\ BridgeSpec.script_loaded (Bridge.loadScript None worker1).1)
  /\ (let page2 := deliver (inl code) (Bridge.loadScript (Some message) worker1).2 page1 in
      workerReady page2 = false
      /\ terminalOutput page2
         = [{| textContent := lit "Error: " ++ message; lineType := error |}]
      /\ (Bridge.loadScript (Some message) worker1).1 = worker1)
  /\ (let page1' :=
        deliver (inr message) (Bridge.initializePyodide Bridge.uninitialized).2 page0 in
      posted page1' = [init_msg]
      /\ workerReady page1' = false
      /\ terminalOutput page1'
         = [{| textContent := lit "Error loading Python script: " ++ message;
               lineType := error |}]).
Proof. cbn. repeat split. Qed.

End Handshake.

(** ** Runs that cannot start, and the arguments of a run *)

Section RunEdges.

Import Bridge BridgeSpec BridgeMore.

Lemma setup_no_fault_argv r args py h :
  js_handler py = Some h ->
  exists py',
    exec_stmts r None (setup_script args) py = (py', None)
    /\ sys_argv py' = lit "just_watch_search.py" :: args.
Proof.
  intros Hjs. destruct py as [l sv im av ch sm js]. cbn in Hjs. subst js.
  eexists. split; [vm_compute; reflexivity | reflexivity].
Qed.

Lemma exec_stmt_restore_argv r s py py' :
  s ∈ restore_script -> exec_stmt r s py = inl py' -> sys_argv py' = sys_argv py.
Proof.
  intros Hin E. unfold restore_script in Hin.
  repeat (apply elem_of_cons in Hin as [->|Hin]); [..|by apply elem_of_nil in Hin];
    cbn in E; repeat case_match; by simplify_eq.
Qed.

Lemma restore_argv r fault py :
  sys_argv (exec_stmts r fault restore_script py).1 = sys_argv py.
Proof.
  apply (exec_stmts_inv (fun p => sys_argv p = sys_argv py)); [|done].
  intros s p p' Hin <- E. by eapply exec_stmt_restore_argv.
Qed.

Lemma act_all_argv l : forall py, sys_argv (act_all l py).1 = sys_argv py.
Proof.
  induction l as [|a l IH]; intros py; [done|].
  cbn [act_all]. destruct (act a py) as [py1 m1] eqn:E1.
  specialize (IH py1). destruct (act_all l py1) as [py2 m2]. cbn in *.
  rewrite IH. destruct a; cbn in E1; repeat case_match; by simplify_eq.
Qed.

Lemma cleanup_in_catch_argv b : argv_of (cleanup_in_catch b) = argv_of b.
Proof.
  unfold cleanup_in_catch, argv_of.
  change (pyodide (set_stdin_handler None b)) with (pyodide b).
  destruct (pyodide b) as [py|] eqn:Eb; [|cbn; by rewrite Eb].
  pose proof (restore_argv 0 None py) as H.
  destruct (exec_stmts 0 None restore_script py) as [py1 e]. cbn in H.
  assert (forall b2,
            match unregisterJsModule py1 with
            | inl p => set_pyodide p (set_stdin_handler None b)
            | inr _ => set_pyodide py1 (set_stdin_handler None b)
            end = b2 ->
            match pyodide b2 with Some p => Some (sys_argv p) | None => None end
            = Some (sys_argv py)) as Hgo.
  { intros b2 <-. unfold unregisterJsModule.
    destruct (js_handler py1); cbn; by rewrite H. }
  destruct e as [[]|]; cbn; try (by rewrite H); by apply Hgo.
Qed.

(** X16. Once the interception is installed without a failure, the state
    [run] leaves behind has [sys.argv] set to the script name followed by
    the arguments of the run, however the script ends and even when the
    script module is missing. *)
Theorem run_sets_argv args sc py h :
  register_fault sc = None ->
  setup_fault sc = None ->
  argv_of (run args sc {| pyodide := Some py; activeStdinHandler := h |}).1
  = Some (lit "just_watch_search.py" :: args).
Proof.
  intros Hr Hf. unfold run, run_try. cbn [pyodide]. rewrite Hr, Hf.
  set (py1 := match unregisterJsModule py with inl p => p | inr _ => py end).
  destruct (setup_no_fault_argv (runId sc) args (set_js_handler (Some (runId sc)) py1)
              (runId sc)) as (py3 & -> & Ha); [done|].
  destruct (script_module py3); cbn [negb].
  2: { cbn [fst snd]. rewrite cleanup_in_catch_argv. unfold argv_of; cbn. by rewrite Ha. }
  pose proof (act_all_argv (actions sc) py3) as Ha4.
  destruct (act_all (actions sc) py3) as [py4 out1]. cbn in Ha4.
  pose proof (restore_argv (runId sc) None py4) as Ha5.
  destruct (exec_stmts (runId sc) None restore_script py4) as [py5 e5]. cbn in Ha5.
  assert (argv_of (cleanup_in_catch
            (set_pyodide py4 (set_stdin_handler (Some (runId sc))
               {| pyodide := Some py; activeStdinHandler := h |})))
          = Some (lit "just_watch_search.py" :: args)) as Hcatch4.
  { rewrite cleanup_in_catch_argv. unfold argv_of; cbn. congruence. }
  destruct (ending sc) as [|e]; [|destruct (handle e py4) as [[exit_code out2]|]];
    try exact Hcatch4.
  all: destruct e5 as [e5|];
    [ cbn [fst snd]; rewrite cleanup_in_catch_argv; unfold argv_of; cbn; congruence |].
  all: unfold unregisterJsModule; destruct (js_handler py5); cbn [fst snd];
    rewrite ?cleanup_in_catch_argv; unfold argv_of; cbn; congruence.
Qed.

(** X15. A run that cannot start. When the interpreter has not been
    initialized, or when it is clean but the script module has not been
    loaded, [run] posts a single message, a failed [complete]; nothing the
    script would do is relayed, and the state is clean with nothing
    registered. *)
Theorem run_cannot_start args sc h :
  (exists m,
     run args sc {| pyodide := None; activeStdinHandler := h |}
     = ({| pyodide := None; activeStdinHandler := None |}, [complete_failed m]))
  /\ (forall py,
        clean_python py -> script_module py = false ->
        register_fault sc = None -> setup_fault sc = None ->
        (exists m,
           (run args sc {| pyodide := Some py; activeStdinHandler := h |}).2
           = [complete_failed m])
        /\ clean (run args sc {| pyodide := Some py; activeStdinHandler := h |}).1
        /\ released (run args sc {| pyodide := Some py; activeStdinHandler := h |}).1).
Proof.
  split; [by eexists|].
  intros py Hc Hm Hr Hf.
  destruct (run_spec args sc {| pyodide := Some py; activeStdinHandler := h |} Hc)
    as (H1 & H2 & _ & _).
  split; [|done].
  unfold run, run_try. cbn [pyodide]. rewrite Hr, Hf.
  destruct (unregister_or_keep py) as (_ & _ & _ & U4 & _).
  set (py1 := match unregisterJsModule py with inl p => p | inr _ => py end) in *.
  destruct (setup_no_fault (runId sc) args (set_js_handler (Some (runId sc)) py1) (runId sc))
    as (py3 & -> & _ & _ & _ & _ & Hm3); [done|].
  cbn in Hm3. rewrite Hm3, U4, Hm. cbn. by eexists.
Qed.

End RunEdges.

Section RunEdgesWitness.

Import Bridge BridgeSpec BridgeMore BridgeSamples.

Lemma run_sets_argv_witness :
  argv_of (run [lit "-t"; lit "movie"] (prints_then 3 (Raised not_an_exception))
             {| pyodide := Some fresh_python; activeStdinHandler := None |}).1
  = Some (lit "just_watch_search.py" :: [lit "-t"; lit "movie"]).
Proof.
  apply (run_sets_argv [lit "-t"; lit "movie"] (prints_then 3 (Raised not_an_exception))
           fresh_python None); reflexivity.
Defined.

Lemma run_cannot_start_witness :
  (exists m,
     (run [] (prints_then 3 Returned)
        {| pyodide := Some fresh_python; activeStdinHandler := None |}).2
     = [complete_failed m])
  /\ clean (run [] (prints_then 3 Returned)
             {| pyodide := Some fresh_python; activeStdinHandler := None |}).1
  /\ released (run [] (prints_then 3 Returned)
                {| pyodide := Some fresh_python; activeStdinHandler := None |}).1.
Proof.
  apply (proj2 (run_cannot_start [] (prints_then 3 Returned) None) fresh_python);
    try reflexivity.
  split; [reflexivity | discriminate].
Defined.

End RunEdgesWitness.

(** ** More on the run queue *)

Section QueueMore.

Import Bridge BridgeSpec BridgeMore.

Lemma steps_snoc w evs e : steps w (evs ++ [e]) = step (steps w evs) e.
Proof. unfold steps. by rewrite fold_left_app. Qed.

Lemma run_args_snoc evs e :
  run_args (evs ++ [e])
  = run_args evs ++ match e with Receive (run_msg a) => [a] | _ => [] end.
Proof.
  unfold run_args. rewrite omap_app. f_equal.
  destruct e as [[]| | |]; done.
Qed.

Lemma processCommandQueue_members w r :
  r ∈ executing (processCommandQueue w) ++ commandQueue (processCommandQueue w)
  <-> r ∈ executing w ++ commandQueue w.
Proof.
  destruct w as [run q ex n lg]. unfold processCommandQueue.
  destruct run, q as [|r0 q]; cbn; try done.
  by rewrite <- app_assoc.
Qed.

Lemma processCommandQueue_received w :
  received (processCommandQueue w) = received w.
Proof. unfold processCommandQueue. by repeat case_match. Qed.

Lemma step_received w e :
  received (step w e)
  = (received w + match e with Receive (run_msg _) => 1 | _ => 0 end)%nat.
Proof.
  destruct e as [m|id text|id prompt|id result]; cbn.
  - destruct m; cbn; rewrite ?processCommandQueue_received; cbn; lia.
  - destruct (is_executing id w); cbn; lia.
  - destruct (is_executing id w); cbn; lia.
  - destruct (is_executing id w); cbn; [|lia].
    unfold finally. case_match; rewrite ?processCommandQueue_received; cbn; lia.
Qed.

Lemma step_members w e r :
  r ∈ executing (step w e) ++ commandQueue (step w e) ->
  r ∈ executing w ++ commandQueue w
  \/ exists a, e = Receive (run_msg a) /\ r = {| req_id := received w; req_args := a |}.
Proof.
  destruct e as [m|id text|id prompt|id result]; cbn.
  - destruct m as [|code|a|resp]; cbn; auto.
    intros H. apply (proj1 (processCommandQueue_members _ _)) in H. cbn in H.
    revert H. rewrite app_assoc, elem_of_app, list_elem_of_singleton.
    intros [H | ->]; [by left | right; by exists a].
  - destruct (is_executing id w); cbn; auto.
  - destruct (is_executing id w); cbn; auto.
  - destruct (is_executing id w); cbn; auto.
    intros H. left. unfold finally in H.
    assert (r ∈ List.filter (fun r0 => negb (req_id r0 =? id)%nat) (executing w)
                  ++ commandQueue w) as H'.
    { destruct (0 <? length _)%nat in H; [|exact H].
      apply (proj1 (processCommandQueue_members _ _)) in H. exact H. }
    apply elem_of_app in H' as [H' | H']; apply elem_of_app; [left | by right].
    apply list_elem_of_In, filter_In in H' as [H' _]. by apply list_elem_of_In.
Qed.

Lemma args_inv evs :
  received (steps idle evs) = length (run_args evs)
  /\ forall r, r ∈ executing (steps idle evs) ++ commandQueue (steps idle evs) ->
       run_args evs !! req_id r = Some (req_args r).
Proof.
  induction evs as [|e evs [IHn IH]] using rev_ind.
  - split; [done|]. intros r H. by apply elem_of_nil in H.
  - rewrite steps_snoc, run_args_snoc. split.
    + rewrite step_received, length_app, IHn. by destruct e as [[]| | |].
    + intros r H. apply step_members in H as [H | (a & -> & ->)].
      * apply lookup_app_l_Some. by apply IH.
      * cbn. rewrite IHn. rewrite lookup_app_r by lia.
        by rewrite Nat.sub_diag.
Qed.

(** X17. A request keeps the arguments of its message: the request that
    executes, and every request that waits, carries the arguments of the
    [run] message it is numbered after, whatever else arrived and completed
    in between. *)
Theorem requests_keep_their_args (evs : list Event) (r : Request) :
  r ∈ executing (steps idle evs) ++ commandQueue (steps idle evs) ->
  run_args evs !! req_id r = Some (req_args r).
Proof. apply args_inv. Qed.

Lemma drain (result : nat -> PyVal + jsstring) q : forall w,
  queue_inv w -> commandQueue w = q ->
  let w' := steps w (complete_all result (ids (executing w) ++ ids q)) in
  runningCommand w' = false /\ executing w' = [] /\ commandQueue w' = []
  /\ received w' = received w
  /\ completed (log w') = seq 0 (received w).
Proof.
  induction q as [|r' q IH]; intros w Hinv Hq.
  - pose proof Hinv as [Ho Hr _ _]. rewrite Hq in Ho.
    destruct Hr as [[Hrun [r Ex]] | [Hrun [Ex _]]]; rewrite Ex in *; cbn.
    + assert (is_executing (req_id r) w = true) as ->.
      { unfold is_executing. rewrite Ex. cbn. by rewrite Nat.eqb_refl. }
      pose proof (completes_inv w (req_id r) (result (req_id r))) as Hinv'.
      destruct Hinv' as [Ho' _ _ _]; [|done|].
      { unfold is_executing. rewrite Ex. cbn. by rewrite Nat.eqb_refl. }
      destruct w as [run qq ex n lg]. cbn in *. subst.
      unfold finally, leave, post, processCommandQueue in *. cbn in *.
      rewrite Nat.eqb_refl in *. cbn in *.
      repeat split; try done. by rewrite !app_nil_r in Ho'.
    + cbn in Ho. rewrite app_nil_r in Ho. by rewrite Hq.
  - pose proof Hinv as [Ho Hr _ _].
    destruct Hr as [[Hrun [r Ex]] | [_ [_ Hq']]]; [|congruence].
    rewrite Ex. cbn [ids map app complete_all steps fold_left step].
    assert (is_executing (req_id r) w = true) as Hex.
    { unfold is_executing. rewrite Ex. cbn. by rewrite Nat.eqb_refl. }
    rewrite Hex.
    pose proof (completes_inv w (req_id r) (result (req_id r)) Hex Hinv) as Hinv'.
    set (w1 := finally (leave (req_id r) (post (req_id r) (complete_of (result (req_id r))) w)))
      in *.
    assert (executing w1 = [r'] /\ commandQueue w1 = q /\ received w1 = received w)
      as (Ex1 & Hq1 & Hn1).
    { unfold w1. destruct w as [run qq ex n lg]. cbn in *. subst.
      unfold finally, leave, post, processCommandQueue. cbn.
      by rewrite Nat.eqb_refl. }
    specialize (IH w1 Hinv' Hq1). rewrite Ex1, Hn1 in IH. exact IH.
Qed.

(** X18. The queue drains. From any state the worker can reach, once the
    run that executes and then every waiting request have completed, each
    in its turn and with any result, no run is active, the queue is empty,
    and the requests completed are all that were received, in the order of
    their arrival. *)
Theorem queue_drains (result : nat -> PyVal + jsstring) (evs : list Event) :
  let w := steps idle evs in
  let w' := steps w (complete_all result (ids (executing w) ++ ids (commandQueue w))) in
  runningCommand w' = false
  /\ executing w' = []
  /\ commandQueue w' = []
  /\ completed (log w') = seq 0 (received w).
Proof.
  cbn zeta.
  destruct (drain result (commandQueue (steps idle evs)) (steps idle evs)
              (reachable_inv evs) eq_refl) as (H1 & H2 & H3 & _ & H5).
  done.
Qed.

End QueueMore.

Section QueueMoreWitness.

Import Bridge BridgeSpec BridgeMore BridgeSamples.

Lemma requests_keep_their_args_witness :
  run_args back_to_back !! req_id {| req_id := 1; req_args := [lit "b"] |}
  = Some (req_args {| req_id := 1; req_args := [lit "b"] |}).
Proof.
  apply (requests_keep_their_args back_to_back {| req_id := 1; req_args := [lit "b"] |}).
  vm_compute. left.
Defined.

End QueueMoreWitness.

(** ** Input requests *)

Section StdinFacts.

Import Stdin.

Lemma set_resolve_eq r p f : set_resolve r p f r = p.
Proof. unfold set_resolve. by rewrite Nat.eqb_refl. Qed.

Lemma set_resolve_ne r r' p f : r' <> r -> set_resolve r p f r' = f r'.
Proof. unfold set_resolve. intros H. by destruct (Nat.eqb_spec r' r). Qed.

Lemma settled_snoc (l : list (nat * jsstring)) p resp :
  map fst (l ++ [(p, resp)]) = map fst l ++ [p].
Proof. by rewrite List.map_app. Qed.

Lemma stdin_step_inv st e : inv st -> inv (step st e).
Proof.
  intros (H1 & H2 & H3 & H4).
  destruct e as [r|r prompt| |resp]; cbn.
  - unfold inv, begin; cbn. split; [|split; [|split]]; try done.
    + intros r' p. destruct (decide (r' = r)) as [->|Hne].
      * by rewrite set_resolve_eq.
      * rewrite set_resolve_ne by done. apply H1.
    + intros r1 r2 p. destruct (decide (r1 = r)) as [->|Hn1].
      { by rewrite set_resolve_eq. }
      destruct (decide (r2 = r)) as [->|Hn2].
      { by rewrite (set_resolve_eq r). }
      rewrite !set_resolve_ne by done. apply H2.
  - unfold inv, request_input_async; cbn. split; [|split; [|split]]; try done.
    + intros r' p H. destruct (decide (r' = r)) as [->|Hne].
      * rewrite set_resolve_eq in H. simplify_eq. split; [lia|].
        intros Hin. apply H3 in Hin. lia.
      * rewrite set_resolve_ne in H by done. destruct (H1 _ _ H). split; [lia | done].
    + intros r1 r2 p. destruct (decide (r1 = r)) as [->|Hn1];
        destruct (decide (r2 = r)) as [->|Hn2]; try done;
        rewrite ?set_resolve_eq, ?set_resolve_ne by done; intros E1 E2; simplify_eq.
      * destruct (H1 _ _ E2). lia.
      * destruct (H1 _ _ E1). lia.
      * by eapply H2.
    + intros p Hp. apply H3 in Hp. lia.
  - done.
  - unfold on_stdin_response. destruct (activeStdinHandler st) as [r|]; [|done].
    unfold thisRunHandler. destruct (currentStdinResolve st r) as [p|] eqn:E; [|done].
    destruct (H1 _ _ E) as [Hp Hnew].
    unfold inv; cbn. rewrite settled_snoc. split; [|split; [|split]].
    + intros r' q H. destruct (decide (r' = r)) as [->|Hne].
      * by rewrite set_resolve_eq in H.
      * rewrite set_resolve_ne in H by done. destruct (H1 _ _ H) as [Hq Hqn].
        split; [done|].
        rewrite elem_of_app, list_elem_of_singleton. intros [Hin | ->]; [done|].
        apply Hne. by eapply H2.
    + intros r1 r2 q. destruct (decide (r1 = r)) as [->|Hn1].
      { by rewrite set_resolve_eq. }
      destruct (decide (r2 = r)) as [->|Hn2].
      { by rewrite (set_resolve_eq r). }
      rewrite !set_resolve_ne by done. apply H2.
    + intros q. rewrite elem_of_app, list_elem_of_singleton. intros [Hq | ->]; auto.
    + apply NoDup_app. split; [done|]. split; [|apply NoDup_singleton].
      intros q Hq. rewrite list_elem_of_singleton. intros ->. done.
Qed.

Lemma stdin_steps_inv evs : forall st, inv st -> inv (steps evs st).
Proof.
  induction evs as [|e evs IH]; intros st H; [done|].
  cbn. apply IH. by apply stdin_step_inv.
Qed.

Lemma stdin_start_inv : inv start.
Proof.
  unfold inv, start; cbn. repeat split; try done.
  - intros p H. by apply elem_of_nil in H.
  - constructor.
Qed.

(** A promise no run can resolve any more stays unresolved. *)
Lemma orphan_stays evs : forall st p,
  (forall r, currentStdinResolve st r <> Some p) ->
  (p < promises st)%nat ->
  p ∉ map fst (settled st) ->
  p ∉ map fst (settled (steps evs st)).
Proof.
  induction evs as [|e evs IH]; intros st p Hno Hlt Hout; [done|].
  cbn [steps fold_left]. apply IH.
  - destruct e as [r|r prompt| |resp]; cbn; try done.
    + intros r'. destruct (decide (r' = r)) as [->|Hne].
      * by rewrite set_resolve_eq.
      * rewrite set_resolve_ne by done. apply Hno.
    + intros r'. destruct (decide (r' = r)) as [->|Hne].
      * rewrite set_resolve_eq. intros E. simplify_eq. lia.
      * rewrite set_resolve_ne by done. apply Hno.
    + unfold on_stdin_response. destruct (activeStdinHandler st) as [r|]; [|done].
      unfold thisRunHandler. destruct (currentStdinResolve st r) as [q|] eqn:E; [|done].
      cbn. intros r'. destruct (decide (r' = r)) as [->|Hne].
      * by rewrite set_resolve_eq.
      * rewrite set_resolve_ne by done. apply Hno.
  - destruct e as [r|r prompt| |resp]; cbn; try done; [lia|].
    unfold on_stdin_response. destruct (activeStdinHandler st) as [r|]; [|done].
    unfold thisRunHandler. by destruct (currentStdinResolve st r).
  - destruct e as [r|r prompt| |resp]; cbn; try done.
    unfold on_stdin_response. destruct (activeStdinHandler st) as [r|]; [|done].
    unfold thisRunHandler. destruct (currentStdinResolve st r) as [q|] eqn:E; [|done].
    cbn. rewrite settled_snoc, elem_of_app, list_elem_of_singleton.
    intros [H | ->]; [done|]. by apply (Hno r).
Qed.

(** X19. Input requests and responses. Whatever runs begin, request input
    and finish and whatever responses arrive, in any order, every promise
    is resolved at most once. A response is dropped, not kept, when no run
    is active or the active run has no request pending. A response that
    follows a request of the active run resolves the promise of that request
    with the text of the response. And when a run makes a second request
    before the first was answered, the promise of the first is never
    resolved, whatever happens afterwards. *)
Theorem stdin_responses :
  (forall evs, NoDup (map fst (settled (steps evs start))))
  /\ (forall st response,
        activeStdinHandler st = None \/
        (exists r, activeStdinHandler st = Some r /\ currentStdinResolve st r = None) ->
        on_stdin_response response st = st)
  /\ (forall st r prompt response,
        activeStdinHandler st = Some r ->
        settled (on_stdin_response response (request_input_async r prompt st))
        = settled st ++ [(promises st, response)])
  /\ (forall evs0 r prompt1 prompt2 evs,
        promises (steps evs0 start)
        ∉ map fst (settled
                     (steps evs
                        (request_input_async r prompt2
                           (request_input_async r prompt1 (steps evs0 start)))))).
Proof.
  split; [|split; [|split]].
  - intros evs. apply (stdin_steps_inv evs start stdin_start_inv).
  - intros st response [H | (r & H & Hr)]; unfold on_stdin_response; rewrite H; [done|].
    unfold thisRunHandler. by rewrite Hr.
  - intros st r prompt response H. unfold on_stdin_response. cbn. rewrite H.
    unfold thisRunHandler. cbn. by rewrite set_resolve_eq.
  - intros evs0 r prompt1 prompt2 evs.
    destruct (stdin_steps_inv evs0 start stdin_start_inv) as (H1 & H2 & H3 & H4).
    apply orphan_stays; cbn.
    + intros r'. destruct (decide (r' = r)) as [->|Hne].
      * rewrite set_resolve_eq. intros E. simplify_eq. lia.
      * rewrite !set_resolve_ne by done. intros E. destruct (H1 _ _ E). lia.
    + lia.
    + intros Hin. apply H3 in Hin. lia.
Qed.

Lemma stdin_responses_witness :
  settled (on_stdin_response (lit "y")
             (request_input_async 7 (lit "Continue? ") (begin 7 start)))
  = settled (begin 7 start) ++ [(promises (begin 7 start), lit "y")].
Proof.
  apply (proj1 (proj2 (proj2 stdin_responses)) (begin 7 start) 7%nat (lit "Continue? ")
           (lit "y")).
  reflexivity.
Defined.

End StdinFacts.

(** ** The worker without a queue *)

Section LegacyFacts.

Import Bridge BridgeSpec.

Lemma legacy_capture_in s : s ∈ Legacy.capture_script -> s ∈ capture_script.
Proof.
  unfold Legacy.capture_script, capture_script.
  rewrite !elem_of_cons, !elem_of_nil. tauto.
Qed.

Lemma legacy_capture_done r py py1 :
  clean_python py ->
  exec_stmts r None Legacy.capture_script py = (py1, None) -> Legacy.captured py1.
Proof.
  intros [Hl Hs]. destruct py as [l sv im av ch sm js]. cbn in *.
  unfold Legacy.capture_script. cbn.
  destruct ch as [c|]; [|destruct js as [j|]]; cbn; intros E; simplify_eq;
    (split; [done|]); cbn; unfold upd; cbn.
  all: split; [by rewrite Hl|].
  all: split; [|intros s _; apply Hl].
  all: intros s p; case_decide; [|apply Hs]; intros; simplify_eq; apply Hl.
Qed.

Lemma legacy_install_keeps r args s py py' :
  s ∈ Legacy.install_script args -> Legacy.captured py ->
  exec_stmt r s py = inl py' -> Legacy.captured py'.
Proof.
  intros Hin (Hi & Hp & Hs & Hl) E. unfold Legacy.install_script in Hin.
  repeat (apply elem_of_cons in Hin as [->|Hin]); [..|by apply elem_of_nil in Hin];
    cbn in E; rewrite Hi in E; simplify_eq; repeat split; cbn; try done.
  intros s Hne. unfold upd. by rewrite decide_False; [apply Hl|].
Qed.

Lemma legacy_setup_recoverable r fault args py :
  clean_python py ->
  Legacy.recoverable (exec_stmts r fault (Legacy.setup_script args) py).1.
Proof.
  intros Hc. unfold Legacy.setup_script.
  destruct (exec_stmts_app r Legacy.capture_script (Legacy.install_script args) fault py)
    as [f' ->].
  destruct (exec_stmts r fault Legacy.capture_script py) as [py1 [e|]] eqn:E.
  - left. change py1 with (py1, Some e).1. rewrite <- E.
    apply exec_stmts_inv; [|done].
    intros s p p' Hin. apply capture_keeps_clean. by apply legacy_capture_in.
  - right. apply (exec_stmts_inv Legacy.captured).
    + apply legacy_install_keeps.
    + eapply legacy_capture_done; [done|]. by eapply exec_stmts_no_fault.
Qed.

Lemma legacy_setup_captured r fault args py py3 :
  clean_python py ->
  exec_stmts r fault (Legacy.setup_script args) py = (py3, None) ->
  Legacy.captured py3.
Proof.
  intros Hc E. apply exec_stmts_no_fault in E. revert E.
  unfold Legacy.setup_script.
  destruct (exec_stmts_app r Legacy.capture_script (Legacy.install_script args) None py)
    as [f' ->].
  destruct (exec_stmts r None Legacy.capture_script py) as [py1 [e|]] eqn:E1; [done|].
  intros E. change py3 with (py3, @None PyError).1. rewrite <- E.
  apply (exec_stmts_inv Legacy.captured).
  - apply legacy_install_keeps.
  - by eapply legacy_capture_done.
Qed.

Lemma legacy_restore r py :
  Legacy.recoverable py ->
  clean_python (exec_stmts r None Legacy.restore_script py).1.
Proof.
  intros H. unfold Legacy.restore_script. cbn [exec_stmts exec_stmt].
  destruct H as [[Hl Hs] | (Hi & Hp & Hs & Hl)].
  - destruct (saved py builtins_print) as [p|] eqn:E; [|by cbn].
    destruct (imported py); [|by cbn]. cbn. split; [|done].
    assert (p = Original) as -> by by eapply Hs.
    intros s. by apply upd_const.
  - rewrite Hp, Hi. cbn. split; [|done].
    intros s. cbn. unfold upd. case_decide; [done | by apply Hl].
Qed.

Lemma legacy_restore_captured r py :
  Legacy.captured py ->
  exists py5, exec_stmts r None Legacy.restore_script py = (py5, None)
              /\ clean_python py5 /\ js_handler py5 = js_handler py.
Proof.
  intros Hc. pose proof (legacy_restore r py (or_intror Hc)) as H. revert H.
  destruct Hc as (Hi & Hp & _). unfold Legacy.restore_script. cbn [exec_stmts exec_stmt].
  rewrite Hp, Hi. cbn. intros H. by eexists.
Qed.

Lemma main_calls_not_complete l py : Forall not_complete (Legacy.main_calls l py).1.
Proof.
  induction l as [|[text|prompt] l IH]; cbn [Legacy.main_calls]; [constructor| |done].
  unfold Legacy.print_call.
  destruct (Legacy.main_calls l py) as [out' ok]. cbn in IH.
  repeat case_match; simplify_eq; cbn; repeat constructor; done.
Qed.

Lemma print_call_not_complete text py out :
  Legacy.print_call text py = Some out -> Forall not_complete out.
Proof.
  unfold Legacy.print_call. repeat case_match; intros; simplify_eq; repeat constructor.
Qed.

Lemma second_script_spec r s py :
  Legacy.captured py ->
  Forall not_complete (Legacy.second_script r s py).1.2
  /\ match (Legacy.second_script r s py).2 with
     | inl _ => clean_python (Legacy.second_script r s py).1.1
     | inr _ => Legacy.captured (Legacy.second_script r s py).1.1
     end.
Proof.
  intros Hc. unfold Legacy.second_script.
  destruct (script_module py); cbn [negb]; [|by split; [constructor|]].
  pose proof (main_calls_not_complete (Legacy.actions s) py) as Hout1.
  destruct (Legacy.main_calls (Legacy.actions s) py) as [out1 ok]. cbn in Hout1.
  destruct (legacy_restore_captured r py Hc) as (py5 & E5 & Hc5 & _).
  destruct ok; cbn [negb]; [|by split].
  destruct (Legacy.ending s) as [|e].
  { rewrite E5. cbn. split; [by rewrite app_nil_r | done]. }
  destruct (Legacy.handler e) as [[c [line|]]|]; [| |by split].
  - destruct (Legacy.print_call line py) as [out2|] eqn:E2; [|by split].
    rewrite E5. cbn. split; [|done].
    apply Forall_app. split; [done|]. by eapply print_call_not_complete.
  - rewrite E5. cbn. split; [by rewrite app_nil_r | done].
Qed.

Lemma unregister_clean py py' :
  unregisterJsModule py = inl py' -> clean_python py -> clean_python py'.
Proof.
  unfold unregisterJsModule. destruct (js_handler py); [|done].
  intros [= <-]. by apply clean_python_ext.
Qed.

(** One task of a call that runs alone. *)
Lemma advance_spec r c py :
  Legacy.ok_at (Legacy.pc c) py ->
  Legacy.pc c <> Legacy.Finished ->
  Legacy.ok_at (Legacy.advance r c py).2 (Legacy.advance r c py).1.1
  /\ (Legacy.rank (Legacy.advance r c py).2 < Legacy.rank (Legacy.pc c))%nat
  /\ match (Legacy.advance r c py).2 with
     | Legacy.Finished => exists m, (Legacy.advance r c py).1.2 = [m] /\ is_complete m = true
     | _ => Forall not_complete (Legacy.advance r c py).1.2
     end.
Proof.
  unfold Legacy.advance. destruct (Legacy.pc c) as [| |code|m|m restored|] eqn:Epc;
    cbn [Legacy.ok_at]; intros Hok Hne; [| | | | |done].
  - pose proof (legacy_setup_recoverable r (Legacy.setup_fault (Legacy.script c))
                  (Legacy.call_args c) py Hok) as Hrec.
    pose proof (legacy_setup_captured r (Legacy.setup_fault (Legacy.script c))
                  (Legacy.call_args c) py) as Hcap.
    destruct (exec_stmts r (Legacy.setup_fault (Legacy.script c))
                (Legacy.setup_script (Legacy.call_args c)) py) as [py3 [e|]]; cbn in *.
    + split; [done|]. split; [lia|]. constructor.
    + split; [by apply Hcap|]. split; [lia|]. constructor.
  - destruct (second_script_spec r (Legacy.script c) py Hok) as [Hout Hres].
    destruct (Legacy.second_script r (Legacy.script c) py) as [[py5 out] [code|m]];
      cbn in *.
    + split; [done|]. by split; [lia|].
    + split; [by right|]. by split; [lia|].
  - destruct (unregisterJsModule py) as [py6|m] eqn:Eu; cbn.
    + split; [by eapply unregister_clean|]. split; [lia|].
      by eexists.
    + split; [by left|]. split; [lia|]. constructor.
  - pose proof (legacy_restore r py Hok) as Hc.
    destruct (exec_stmts r None Legacy.restore_script py) as [py1 [e|]]; cbn in *.
    + split; [done|]. split; [lia|]. constructor.
    + split; [done|]. split; [lia|]. constructor.
  - cbn. split.
    + destruct restored; [|done].
      destruct (unregisterJsModule py) as [py2|] eqn:Eu; [|done].
      by eapply unregister_clean.
    + split; [lia|]. by eexists.
Qed.

Lemma set_pc_pc p c : Legacy.pc (Legacy.set_pc p c) = p.
Proof. done. Qed.

Lemma set_pc_set_pc p q c : Legacy.set_pc p (Legacy.set_pc q c) = Legacy.set_pc p c.
Proof. done. Qed.

Lemma set_pc_same c : Legacy.set_pc (Legacy.pc c) c = c.
Proof. by destruct c. Qed.

Lemma advance_n_finished n r c py :
  Legacy.pc c = Legacy.Finished -> Legacy.advance_n n r c py = (py, [], Legacy.Finished).
Proof.
  revert c. induction n as [|n IH]; intros c Hc; cbn [Legacy.advance_n].
  - by rewrite Hc.
  - unfold Legacy.advance. rewrite Hc. by rewrite IH.
Qed.

(** A call that runs alone comes to its end within the tasks its rank
    allows: the interpreter is clean, and [complete] is the last message and
    the only one. *)
Lemma advance_n_spec n r : forall c py,
  Legacy.ok_at (Legacy.pc c) py ->
  Legacy.pc c <> Legacy.Finished ->
  (Legacy.rank (Legacy.pc c) <= n)%nat ->
  (Legacy.advance_n n r c py).2 = Legacy.Finished
  /\ clean_python (Legacy.advance_n n r c py).1.1
  /\ exists out m,
       (Legacy.advance_n n r c py).1.2 = out ++ [m]
       /\ Forall not_complete out /\ is_complete m = true.
Proof.
  induction n as [|n IH]; intros c py Hok Hne Hrank.
  { destruct (Legacy.pc c); cbn in Hrank; try lia; done. }
  cbn [Legacy.advance_n].
  destruct (advance_spec r c py Hok Hne) as (Hok1 & Hr1 & Hout1).
  destruct (Legacy.advance r c py) as [[py1 out1] p1]. cbn in Hok1, Hr1, Hout1.
  assert (p1 = Legacy.Finished \/ p1 <> Legacy.Finished) as [-> | Hne1]
    by (destruct p1; (by left) || (by right)).
  - destruct Hout1 as (m & -> & Hm).
    rewrite advance_n_finished by done. cbn.
    split; [done|]. split; [done|]. by exists [], m.
  - destruct (IH (Legacy.set_pc p1 c) py1) as (H1 & H2 & out & m & H3 & H4 & H5);
      [done | done | cbn; lia |].
    destruct (Legacy.advance_n n r (Legacy.set_pc p1 c) py1) as [[py2 out2] p2].
    cbn in *. subst. split; [done|]. split; [done|].
    exists (out1 ++ out), m. rewrite app_assoc. split; [done|].
    split; [|done]. apply Forall_app. split; [|done]. by destruct p1.
Qed.

Lemma resume_at r w c py :
  Legacy.calls w !! r = Some c -> Legacy.pyodide w = Some py ->
  Legacy.resume r w
  = {| Legacy.pyodide := Some (Legacy.advance r c py).1.1;
       Legacy.calls := <[r := Legacy.set_pc (Legacy.advance r c py).2 c]> (Legacy.calls w);
       Legacy.posted := Legacy.posted w ++ (Legacy.advance r c py).1.2 |}.
Proof.
  intros Hc Hp. unfold Legacy.resume. rewrite Hc, Hp.
  by destruct (Legacy.advance r c py) as [[py' out] p].
Qed.

(** Tasks of one call in a row, on the worker. *)
Lemma resumes_advance_n n r : forall w c py,
  Legacy.calls w !! r = Some c -> Legacy.pyodide w = Some py ->
  Legacy.steps w (repeat (Legacy.Resumes r) n)
  = {| Legacy.pyodide := Some (Legacy.advance_n n r c py).1.1;
       Legacy.calls := <[r := Legacy.set_pc (Legacy.advance_n n r c py).2 c]> (Legacy.calls w);
       Legacy.posted := Legacy.posted w ++ (Legacy.advance_n n r c py).1.2 |}.
Proof.
  induction n as [|n IH]; intros w c py Hc Hp.
  - cbn. rewrite set_pc_same, list_insert_id, app_nil_r by done.
    destruct w. cbn in *. by subst.
  - cbn [repeat Legacy.steps fold_left Legacy.step].
    rewrite (resume_at r w c py Hc Hp).
    fold (Legacy.steps). cbn [Legacy.advance_n].
    destruct (Legacy.advance r c py) as [[py1 out1] p1]. cbn [fst snd].
    change (fold_left Legacy.step) with (fun l w => Legacy.steps w l). cbn beta.
    rewrite (IH _ (Legacy.set_pc p1 c) py1); cbn [Legacy.calls Legacy.pyodide Legacy.posted].
    + destruct (Legacy.advance_n n r (Legacy.set_pc p1 c) py1) as [[py2 out2] p2].
      cbn. by rewrite list_insert_insert_eq, set_pc_set_pc, app_assoc.
    + apply list_lookup_insert_eq. by eapply lookup_lt_Some.
    + done.
Qed.

Lemma resumes_no_interpreter n r w :
  Legacy.pyodide w = None -> Legacy.steps w (repeat (Legacy.Resumes r) n) = w.
Proof.
  intros Hp. induction n as [|n IH]; [done|].
  cbn [repeat Legacy.steps fold_left Legacy.step].
  assert (Legacy.resume r w = w) as ->; [|exact IH].
  unfold Legacy.resume. rewrite Hp. by destruct (Legacy.calls w !! r).
Qed.

Lemma steps_cons w e evs :
  Legacy.steps w (e :: evs) = Legacy.steps (Legacy.step w e) evs.
Proof. done. Qed.

Lemma steps_app w evs1 evs2 :
  Legacy.steps w (evs1 ++ evs2) = Legacy.steps (Legacy.steps w evs1) evs2.
Proof. apply fold_left_app. Qed.

(** A call at [p], appended as the newest call, run alone to its end. *)
Lemma alone_from w py c :
  Legacy.ok_at (Legacy.pc c) py ->
  Legacy.pc c <> Legacy.Finished ->
  (Legacy.rank (Legacy.pc c) <= 5)%nat ->
  let w1 := {| Legacy.pyodide := Some py; Legacy.calls := Legacy.calls w ++ [c];
               Legacy.posted := Legacy.posted w |} in
  let w' := Legacy.steps w1 (repeat (Legacy.Resumes (length (Legacy.calls w))) 5) in
  Legacy.clean w'
  /\ (exists c', Legacy.calls w' !! length (Legacy.calls w) = Some c'
                 /\ Legacy.pc c' = Legacy.Finished)
  /\ exists out m,
       Legacy.posted w' = Legacy.posted w ++ out ++ [m]
       /\ Forall not_complete out /\ is_complete m = true.
Proof.
  intros Hok Hne Hrank w1 w'. unfold w'.
  assert (Legacy.calls w1 !! length (Legacy.calls w) = Some c) as Hc
    by by apply list_lookup_middle.
  rewrite (resumes_advance_n 5 _ w1 c py Hc eq_refl).
  destruct (advance_n_spec 5 (length (Legacy.calls w)) c py Hok Hne Hrank)
    as (H1 & H2 & out & m & H3 & H4 & H5).
  destruct (Legacy.advance_n 5 (length (Legacy.calls w)) c py) as [[py' out'] p'].
  cbn in H1, H2, H3. subst. cbn -[Legacy.advance_n].
  split; [done|]. split.
  - exists (Legacy.set_pc Legacy.Finished c). split; [|done].
    apply list_lookup_insert_eq. rewrite length_app. cbn. lia.
  - by exists out, m.
Qed.

(** X20. A call of [run] that no other call overlaps restores [print].
    When the interpreter is clean as a [run] message arrives and the
    worker does nothing else until that call has posted [complete]
    (at most five tasks), then, whatever happens in the call (the
    registration fails, a statement of the first script fails, the script
    module is missing, the script returns or raises, caught or not), the
    interpreter is clean again, the call is finished, and its [complete] is
    the last message it posts and the only one. *)
Theorem legacy_run_alone_restores_print args s w :
  Legacy.clean w ->
  Legacy.clean (Legacy.steps w (Legacy.alone args s w))
  /\ (exists c,
        Legacy.calls (Legacy.steps w (Legacy.alone args s w)) !! length (Legacy.calls w)
        = Some c
        /\ Legacy.pc c = Legacy.Finished)
  /\ exists out m,
       Legacy.posted (Legacy.steps w (Legacy.alone args s w))
       = Legacy.posted w ++ out ++ [m]
       /\ Forall not_complete out /\ is_complete m = true.
Proof.
  intros Hc. unfold Legacy.alone. rewrite steps_cons. cbn [Legacy.step].
  unfold Legacy.receive, Legacy.clean in *.
  destruct (Legacy.pyodide w) as [py|] eqn:Ep.
  - destruct (Legacy.register_fault s) as [m|].
    + apply (alone_from w py
               {| Legacy.call_args := args; Legacy.script := s;
                  Legacy.pc := Legacy.CatchScript m |}); cbn; [by left | done | lia].
    + apply (alone_from w (set_js_handler (Some (length (Legacy.calls w))) py)
               {| Legacy.call_args := args; Legacy.script := s;
                  Legacy.pc := Legacy.FirstScript |}); cbn; [|done|lia].
      by eapply clean_python_ext.
  - rewrite resumes_no_interpreter by done. cbn.
    split; [done|]. split.
    + eexists. split; [by apply list_lookup_middle | done].
    + by exists [], (complete_failed (lit "Cannot read properties of null")).
Qed.

Lemma legacy_setup_no_fault r args py :
  (forall s, live py s = Original) ->
  exists py3,
    exec_stmts r None (Legacy.setup_script args) (set_js_handler (Some r) py) = (py3, None)
    /\ live py3 builtins_print = Patched r
    /\ saved py3 builtins_print = Some Original
    /\ imported py3 = true
    /\ js_handler py3 = Some r
    /\ script_module py3 = script_module py.
Proof.
  intros Hl. destruct py as [l sv im av ch sm js]. cbn in Hl.
  unfold Legacy.setup_script, Legacy.capture_script, Legacy.install_script.
  destruct ch as [c|]; cbn; eexists; (split; [reflexivity|]); cbn; unfold upd; cbn.
  all: rewrite !Hl; repeat case_decide; by repeat split.
Qed.

Lemma main_calls_relayed l py r :
  live py builtins_print = Patched r ->
  saved py builtins_print = Some Original ->
  Legacy.main_calls l py = (flat_map Legacy.relayed l, true).
Proof.
  intros Hp Hs. induction l as [|[text|prompt] l IH]; cbn [Legacy.main_calls flat_map];
    [done| |done].
  unfold Legacy.print_call. by rewrite Hp, Hs, IH.
Qed.

Lemma restore_print r py :
  saved py builtins_print = Some Original -> imported py = true ->
  exec_stmts r None Legacy.restore_script py = (set_live builtins_print Original py, None).
Proof. intros Hs Hi. unfold Legacy.restore_script. cbn. by rewrite Hs, Hi. Qed.

(** The second script when the first ran without a failure from a clean
    state. *)
Lemma second_script_messages r0 r s py :
  live py builtins_print = Patched r0 ->
  saved py builtins_print = Some Original ->
  imported py = true ->
  script_module py = true ->
  (Legacy.second_script r s py).1.2
  = flat_map Legacy.relayed (Legacy.actions s) ++ Legacy.reported (Legacy.ending s)
  /\ match (Legacy.second_script r s py).2 with
     | inl c =>
         completion_for (Legacy.ending s) = complete_ok c
         /\ (Legacy.second_script r s py).1.1 = set_live builtins_print Original py
     | inr m =>
         completion_for (Legacy.ending s) = complete_failed m
         /\ (Legacy.second_script r s py).1.1 = py
     end.
Proof.
  intros Hp Hs Hi Hm. unfold Legacy.second_script. rewrite Hm. cbn [negb].
  rewrite (main_calls_relayed _ py r0 Hp Hs). cbn [negb].
  rewrite (restore_print r py Hs Hi).
  destruct (Legacy.ending s) as [|e]; [by rewrite !app_nil_r|].
  unfold Legacy.handler, Legacy.except_clauses, completion_for. cbn [Legacy.reported].
  destruct (exc_class e); cbn; unfold Legacy.print_call; rewrite ?Hp, ?Hs; cbn;
    by rewrite ?app_nil_r.
Qed.

Lemma advance_n_step n r c py py1 out1 p1 :
  Legacy.advance r c py = (py1, out1, p1) ->
  Legacy.advance_n (S n) r c py
  = ((Legacy.advance_n n r (Legacy.set_pc p1 c) py1).1.1,
     out1 ++ (Legacy.advance_n n r (Legacy.set_pc p1 c) py1).1.2,
     (Legacy.advance_n n r (Legacy.set_pc p1 c) py1).2).
Proof.
  intros E. cbn [Legacy.advance_n]. rewrite E.
  by destruct (Legacy.advance_n n r (Legacy.set_pc p1 c) py1) as [[py2 out2] p2].
Qed.

Lemma advance_n_after_second n r c py code h :
  Legacy.pc c = Legacy.AfterSecond code -> js_handler py = Some h ->
  Legacy.advance_n (S n) r c py
  = (set_js_handler None py, [complete_ok code], Legacy.Finished).
Proof.
  intros Hc Hj.
  rewrite (advance_n_step n r c py (set_js_handler None py) [complete_ok code]
             Legacy.Finished).
  - by rewrite advance_n_finished.
  - unfold Legacy.advance, unregisterJsModule. by rewrite Hc, Hj.
Qed.

Lemma advance_n_catch n r c py m h :
  Legacy.pc c = Legacy.CatchScript m ->
  saved py builtins_print = Some Original -> imported py = true ->
  js_handler py = Some h ->
  Legacy.advance_n (S (S n)) r c py
  = (set_js_handler None (set_live builtins_print Original py),
     [complete_failed m], Legacy.Finished).
Proof.
  intros Hc Hs Hi Hj.
  rewrite (advance_n_step (S n) r c py (set_live builtins_print Original py) []
             (Legacy.AfterCatch m true)).
  - rewrite (advance_n_step n r _ _
               (set_js_handler None (set_live builtins_print Original py))
               [complete_failed m] Legacy.Finished).
    + by rewrite advance_n_finished.
    + unfold Legacy.advance, unregisterJsModule. cbn. by rewrite Hj.
  - unfold Legacy.advance. by rewrite Hc, restore_print.
Qed.

(** X21. What a call of [run] that no other call overlaps posts. When
    the interpreter is clean and holds the script module as the [run]
    message arrives, nothing fails before the script starts, and the worker
    does nothing else until the call has posted [complete], then the call
    posts one [output] message per [print] of the script and nothing for a
    call of [input]; then the line this worker prints about the ending (for
    an [EOFError] that interactive input is not supported, for a
    [KeyboardInterrupt] the line "Cancelled", for another [Exception] the
    line "Error: " with the fault's text and no traceback); and last the
    [complete] message, with the exit codes of the worker with a queue. *)
Theorem legacy_run_alone_messages args s w py :
  Legacy.pyodide w = Some py ->
  clean_python py ->
  script_module py = true ->
  Legacy.register_fault s = None ->
  Legacy.setup_fault s = None ->
  Legacy.posted (Legacy.steps w (Legacy.alone args s w))
  = Legacy.posted w
      ++ flat_map Legacy.relayed (Legacy.actions s)
      ++ Legacy.reported (Legacy.ending s) ++ [completion_for (Legacy.ending s)].
Proof.
  intros Hp [Hcl Hsv] Hm Hr Hf. unfold Legacy.alone. rewrite steps_cons.
  cbn [Legacy.step]. unfold Legacy.receive. rewrite Hp, Hr.
  set (r := length (Legacy.calls w)).
  set (c := {| Legacy.call_args := args; Legacy.script := s;
               Legacy.pc := Legacy.FirstScript |}).
  rewrite (resumes_advance_n 5 r _ c (set_js_handler (Some r) py));
    [|by apply list_lookup_middle|done].
  cbn [Legacy.posted]. f_equal.
  destruct (legacy_setup_no_fault r args py Hcl)
    as (py3 & E3 & Hl3 & Hs3 & Hi3 & Hj3 & Hm3).
  rewrite Hm in Hm3.
  rewrite (advance_n_step 4 r c _ py3 [] Legacy.SecondScript);
    [|unfold Legacy.advance; cbn [Legacy.pc c Legacy.script Legacy.call_args];
      by rewrite Hf, E3].
  destruct (second_script_messages r r s py3 Hl3 Hs3 Hi3 Hm3) as [Hout Hres].
  destruct (Legacy.second_script r s py3) as [[py5 out] [code|m]] eqn:E5;
    cbn in Hout, Hres; destruct Hres as [-> ->]; subst out.
  - rewrite (advance_n_step 3 r _ py3 (set_live builtins_print Original py3)
               (flat_map Legacy.relayed (Legacy.actions s)
                  ++ Legacy.reported (Legacy.ending s))
               (Legacy.AfterSecond code));
      [|unfold Legacy.advance; cbn [Legacy.pc Legacy.set_pc Legacy.script c];
        by rewrite E5].
    rewrite (advance_n_after_second 2 r _ _ code r); [|done|done].
    cbn. by rewrite <- app_assoc.
  - rewrite (advance_n_step 3 r _ py3 py3
               (flat_map Legacy.relayed (Legacy.actions s)
                  ++ Legacy.reported (Legacy.ending s))
               (Legacy.CatchScript m));
      [|unfold Legacy.advance; cbn [Legacy.pc Legacy.set_pc Legacy.script c];
        by rewrite E5].
    rewrite (advance_n_catch 1 r _ _ m r); [|done|done|done|done].
    cbn. by rewrite <- app_assoc.
Qed.

(** No statement of the worker's scripts repairs a broken [print]. *)
Lemma exec_stmt_broken r s py py' :
  Legacy.broken py -> exec_stmt r s py = inl py' -> Legacy.broken py'.
Proof.
  intros [[r1 Hl] [r2 Hs]] E. unfold Legacy.broken.
  destruct s as [| | |s0| |s0|a|s0]; cbn in E; repeat case_match; simplify_eq; cbn;
    unfold upd; try (split; eauto; fail).
  - split; [eauto|]. case_decide; [|eauto]. subst s0. rewrite Hl. eauto.
  - split; [|eauto]. case_decide; eauto.
  - split; [|eauto]. case_decide; [|eauto]. subst s0. simplify_eq. eauto.
Qed.

Lemma exec_stmts_broken r fault ss py :
  Legacy.broken py -> Legacy.broken (exec_stmts r fault ss py).1.
Proof.
  apply exec_stmts_inv. intros s p p' _. apply exec_stmt_broken.
Qed.

Lemma second_script_broken r s py :
  Legacy.broken py -> Legacy.broken (Legacy.second_script r s py).1.1.
Proof.
  intros Hb. unfold Legacy.second_script.
  pose proof (exec_stmts_broken r None Legacy.restore_script py Hb) as Hr.
  destruct (exec_stmts r None Legacy.restore_script py) as [py5 e5]. cbn in Hr.
  repeat case_match; simplify_eq; done.
Qed.

Lemma unregister_broken py py' :
  unregisterJsModule py = inl py' -> Legacy.broken py -> Legacy.broken py'.
Proof.
  unfold unregisterJsModule. destruct (js_handler py); [|done]. by intros [= <-].
Qed.

Lemma advance_broken r c py :
  Legacy.broken py -> Legacy.broken (Legacy.advance r c py).1.1.
Proof.
  intros Hb. unfold Legacy.advance. destruct (Legacy.pc c) as [| |code|m|m restored|].
  - pose proof (exec_stmts_broken r (Legacy.setup_fault (Legacy.script c))
                  (Legacy.setup_script (Legacy.call_args c)) py Hb) as H.
    by destruct (exec_stmts r (Legacy.setup_fault (Legacy.script c))
                   (Legacy.setup_script (Legacy.call_args c)) py) as [py3 [e|]].
  - pose proof (second_script_broken r (Legacy.script c) py Hb) as H.
    by destruct (Legacy.second_script r (Legacy.script c) py) as [[py5 out] [code|m]].
  - destruct (unregisterJsModule py) as [py6|m] eqn:E; [|done].
    by eapply unregister_broken.
  - pose proof (exec_stmts_broken r None Legacy.restore_script py Hb) as H.
    by destruct (exec_stmts r None Legacy.restore_script py) as [py1 [e|]].
  - cbn. destruct restored; [|done].
    destruct (unregisterJsModule py) as [py2|] eqn:E; [|done].
    by eapply unregister_broken.
  - done.
Qed.

Lemma step_stuck w e : Legacy.stuck w -> Legacy.stuck (Legacy.step w e).
Proof.
  intros (py & Hp & Hb). destruct e as [args s|r]; cbn [Legacy.step].
  - unfold Legacy.receive. rewrite Hp.
    destruct (Legacy.register_fault s); eexists; (split; [reflexivity|done]).
  - unfold Legacy.resume. rewrite Hp.
    destruct (Legacy.calls w !! r) as [c|]; [|by exists py].
    pose proof (advance_broken r c py Hb) as H.
    destruct (Legacy.advance r c py) as [[py' out] p]. by exists py'.
Qed.

Lemma steps_stuck evs : forall w, Legacy.stuck w -> Legacy.stuck (Legacy.steps w evs).
Proof.
  induction evs as [|e evs IH]; intros w H; [done|].
  rewrite steps_cons. by apply IH, step_stuck.
Qed.

(** The first script of a call while [print] is replaced. *)
Lemma setup_on_replaced r r0 h args py :
  live py builtins_print = Patched r0 ->
  js_handler py = Some h ->
  exists py',
    exec_stmts r None (Legacy.setup_script args) py = (py', None) /\ Legacy.broken py'.
Proof.
  intros Hl Hj. destruct py as [l sv im av ch sm js]. cbn in Hl, Hj. subst js.
  unfold Legacy.setup_script, Legacy.capture_script, Legacy.install_script.
  destruct ch as [c|]; cbn; eexists; (split; [reflexivity|]); unfold Legacy.broken; cbn;
    unfold upd; cbn; rewrite ?Hl; repeat case_decide; try done; eauto.
Qed.

(** X22. Two calls of [run] that overlap break [print] for good. Let a
    [run] message arrive while the interpreter is clean and let the first
    script of that call run; let a second [run] message arrive and the first
    script of the second call run before the second script of the first
    call; in neither call anything fails up to there. Then, whatever the
    worker does afterwards (the two calls going on in any order, any
    further [run] messages and their calls), [print] is never the
    interpreter's own again: it stays replaced, [_original_print] holds a
    replacement too, and every call of [print] in a script fails. *)
Theorem legacy_overlap_breaks_print argsA sA argsB sB w py evs :
  Legacy.pyodide w = Some py ->
  clean_python py ->
  Legacy.register_fault sA = None -> Legacy.setup_fault sA = None ->
  Legacy.register_fault sB = None -> Legacy.setup_fault sB = None ->
  exists py',
    Legacy.pyodide
      (Legacy.steps w
         ([ Legacy.Receives argsA sA; Legacy.Resumes (length (Legacy.calls w));
            Legacy.Receives argsB sB; Legacy.Resumes (S (length (Legacy.calls w))) ]
            ++ evs))
    = Some py'
    /\ Legacy.broken py'
    /\ ~ clean_python py'
    /\ forall text, Legacy.print_call text py' = None.
Proof.
  intros Hp [Hcl _] HrA HfA HrB HfB.
  set (a := length (Legacy.calls w)).
  assert (Legacy.stuck
            (Legacy.steps w [ Legacy.Receives argsA sA; Legacy.Resumes a;
                              Legacy.Receives argsB sB; Legacy.Resumes (S a) ])) as H4.
  { rewrite steps_cons. cbn [Legacy.step]. unfold Legacy.receive at 1. rewrite Hp, HrA.
    fold a. set (cA := {| Legacy.call_args := argsA; Legacy.script := sA;
                          Legacy.pc := Legacy.FirstScript |}).
    destruct (legacy_setup_no_fault a argsA py Hcl)
      as (py3 & E3 & Hl3 & Hs3 & Hi3 & Hj3 & Hm3).
    rewrite steps_cons. cbn [Legacy.step].
    rewrite (resume_at a _ cA (set_js_handler (Some a) py));
      [|by apply list_lookup_middle|done].
    assert (Legacy.advance a cA (set_js_handler (Some a) py)
            = (py3, [], Legacy.SecondScript)) as ->.
    { unfold Legacy.advance. cbn [Legacy.pc cA Legacy.script Legacy.call_args].
      by rewrite HfA, E3. }
    cbn [fst snd Legacy.calls Legacy.posted].
    rewrite steps_cons. cbn [Legacy.step]. unfold Legacy.receive at 1.
    cbn [Legacy.pyodide Legacy.calls Legacy.posted]. rewrite HrB.
    rewrite length_insert, length_app. cbn [length]. fold a.
    replace (a + 1)%nat with (S a) by lia.
    set (cB := {| Legacy.call_args := argsB; Legacy.script := sB;
                  Legacy.pc := Legacy.FirstScript |}).
    destruct (setup_on_replaced (S a) a (S a) argsB (set_js_handler (Some (S a)) py3))
      as (py5 & E5 & Hb5); [done|done|].
    rewrite steps_cons. cbn [Legacy.step].
    rewrite (resume_at (S a) _ cB (set_js_handler (Some (S a)) py3)); [| |done].
    - assert (Legacy.advance (S a) cB (set_js_handler (Some (S a)) py3)
              = (py5, [], Legacy.SecondScript)) as ->.
      { unfold Legacy.advance. cbn [Legacy.pc cB Legacy.script Legacy.call_args].
        by rewrite HfB, E5. }
      by exists py5.
    - cbn [Legacy.calls]. apply list_lookup_middle.
      rewrite length_insert, length_app. cbn [length]. fold a. lia. }
  rewrite steps_app.
  destruct (steps_stuck evs _ H4) as (py' & Hp' & Hb').
  exists py'. split; [done|]. split; [done|].
  destruct Hb' as [[r1 Hl1] [r2 Hs2]]. split.
  - intros [Hc _]. by rewrite Hc in Hl1.
  - intros text. unfold Legacy.print_call. by rewrite Hl1, Hs2.
Qed.

End LegacyFacts.

Section LegacyWitnesses.

Import Bridge BridgeSpec BridgeSamples.

Lemma legacy_run_alone_restores_print_witness :
  Legacy.clean
    (Legacy.steps LegacySamples.loaded
       (Legacy.alone [lit "-h"] LegacySamples.fails_in_setup LegacySamples.loaded))
  /\ (exists c,
        Legacy.calls
          (Legacy.steps LegacySamples.loaded
             (Legacy.alone [lit "-h"] LegacySamples.fails_in_setup LegacySamples.loaded))
          !! length (Legacy.calls LegacySamples.loaded)
        = Some c
        /\ Legacy.pc c = Legacy.Finished)
  /\ exists out m,
       Legacy.posted
         (Legacy.steps LegacySamples.loaded
            (Legacy.alone [lit "-h"] LegacySamples.fails_in_setup LegacySamples.loaded))
       = Legacy.posted LegacySamples.loaded ++ out ++ [m]
       /\ Forall not_complete out /\ is_complete m = true.
Proof.
  apply (legacy_run_alone_restores_print [lit "-h"] LegacySamples.fails_in_setup
           LegacySamples.loaded).
  split; [reflexivity | discriminate].
Defined.

Lemma legacy_run_alone_messages_witness :
  Legacy.posted
    (Legacy.steps LegacySamples.loaded
       (Legacy.alone [] (LegacySamples.prints_then (Raised exit_2)) LegacySamples.loaded))
  = Legacy.posted LegacySamples.loaded
      ++ flat_map Legacy.relayed (Legacy.actions (LegacySamples.prints_then (Raised exit_2)))
      ++ Legacy.reported (Legacy.ending (LegacySamples.prints_then (Raised exit_2)))
      ++ [completion_for (Legacy.ending (LegacySamples.prints_then (Raised exit_2)))].
Proof.
  apply (legacy_run_alone_messages [] (LegacySamples.prints_then (Raised exit_2))
           LegacySamples.loaded (set_script_module fresh_python)).
  - reflexivity.
  - split; [reflexivity | discriminate].
  - reflexivity.
  - reflexivity.
  - reflexivity.
Defined.

Lemma legacy_overlap_breaks_print_witness :
  exists py',
    Legacy.pyodide
      (Legacy.steps LegacySamples.loaded
         ([ Legacy.Receives [lit "a"] (LegacySamples.prints_then Returned);
            Legacy.Resumes (length (Legacy.calls LegacySamples.loaded));
            Legacy.Receives [lit "b"] (LegacySamples.prints_then Returned);
            Legacy.Resumes (S (length (Legacy.calls LegacySamples.loaded))) ]
            ++ [ Legacy.Resumes 0; Legacy.Resumes 0; Legacy.Resumes 1; Legacy.Resumes 1;
                 Legacy.Resumes 1; Legacy.Resumes 1 ]))
    = Some py'
    /\ Legacy.broken py'
    /\ ~ clean_python py'
    /\ forall text, Legacy.print_call text py' = None.
Proof.
  apply (legacy_overlap_breaks_print [lit "a"] (LegacySamples.prints_then Returned)
           [lit "b"] (LegacySamples.prints_then Returned)
           LegacySamples.loaded (set_script_module fresh_python)
           [ Legacy.Resumes 0; Legacy.Resumes 0; Legacy.Resumes 1; Legacy.Resumes 1;
             Legacy.Resumes 1; Legacy.Resumes 1 ]).
  - reflexivity.
  - split; [reflexivity | discriminate].
  - reflexivity.
  - reflexivity.
  - reflexivity.
  - reflexivity.
Defined.

End LegacyWitnesses.
